(** * bedup: the tracking catalog, the incremental scanner and the cloner

    A shallow embedding of [bedup/tracking.py] (and of the audit tables of
    [bedup/logModel.py]).  Python integers are unbounded, and every integer
    the program stores is a byte count, an inode number, a descriptor or a
    btrfs generation, so they are modelled in [N].  The SQLAlchemy session is
    a pair of catalogs: what has been committed and what the session
    currently sees.  The kernel, the clock and the file contents are a
    record of functions, [World]; the progress sink [tt] only prints and is
    left out. *)

From stdpp Require Import gmap strings list fin_maps sorting.
From Stdlib Require Import NArith Lia.

#[local] Open Scope N_scope.

(** ** Exceptions and results *)

Inductive exn :=
| IOError (errno : N)
| TypeError
| AttributeError
| AssertionError
| IndexError
| KeyError
| NameError
| OverflowError.

Inductive result (A : Type) :=
| Ok (a : A)
| Raise (e : exn).
Arguments Ok {A} a.
Arguments Raise {A} e.

(** errno values of Linux, as [errno.ENOENT] and friends. *)
Definition ENOENT : N := 2.
Definition EACCES : N := 13.
Definition ETXTBSY : N := 26.

(** ** Data model (the tables of the catalog) *)

Record Volume := mkVolume {
  vol_id : N;
  vol_fs : N;
  root_id : N;
  size_cutoff : N;
  last_tracked_generation : N;
  last_tracked_size_cutoff : option N;
  (* transient attributes set by get_vol *)
  vol_fd : N;
  vol_st_dev : N }.

Record Inode := mkInode {
  inode_vol : N;
  ino : N;
  inode_size : N;
  has_updates : bool;
  mini_hash : option N;
  fiemap_hash : option N }.

(** logModel.DedupEvent and logModel.DedupEventInode.  The surrogate key
    of an event is its position in the table. *)
Record DedupEvent := mkDedupEvent {
  evt_fs : N;
  item_size : N;
  created : N }.

Record DedupEventInode := mkDedupEventInode {
  evti_event : nat;
  evti_ino : N;
  evti_vol : N }.

Record Catalog := mkCatalog {
  volumes : gmap N Volume;
  inodes : gmap (N * N) Inode;
  dedup_events : list DedupEvent;
  dedup_event_inodes : list DedupEventInode }.

Record Session := mkSession {
  committed : Catalog;
  pending : Catalog }.

Definition commit (sess : Session) : Session :=
  {| committed := pending sess; pending := pending sess |}.

Definition with_pending (f : Catalog -> Catalog) (sess : Session) : Session :=
  {| committed := committed sess; pending := f (pending sess) |}.

Definition set_inodes (m : gmap (N * N) Inode) (c : Catalog) : Catalog :=
  {| volumes := volumes c; inodes := m;
     dedup_events := dedup_events c;
     dedup_event_inodes := dedup_event_inodes c |}.

Definition set_volumes (m : gmap N Volume) (c : Catalog) : Catalog :=
  {| volumes := m; inodes := inodes c;
     dedup_events := dedup_events c;
     dedup_event_inodes := dedup_event_inodes c |}.

Definition inode_key (i : Inode) : N * N := (inode_vol i, ino i).

(** sess.delete(inode) and sess.expunge(inode), for the row object held
    under key [k]: in both cases the session no longer holds the row. *)
Definition sess_delete (k : N * N) : Session -> Session :=
  with_pending (fun c => set_inodes (delete k (inodes c)) c).

Definition sess_expunge (k : N * N) : Session -> Session :=
  with_pending (fun c => set_inodes (delete k (inodes c)) c).

(** Assigning to attributes of the row object held under key [k]. *)
Definition sess_store (k : N * N) (i : Inode) : Session -> Session :=
  with_pending (fun c => set_inodes (<[k := i]> (inodes c)) c).

(** ** The outside world *)

Record btrfs_ioctl_search_key := mkSearchKey {
  tree_id : N;
  min_objectid : N;
  max_objectid : N;
  min_offset : N;
  max_offset : N;
  min_transid : N;
  max_transid : N;
  min_type : N;
  max_type : N;
  nr_items : N }.

Record btrfs_ioctl_search_header := mkSearchHeader {
  sh_transid : N;
  sh_objectid : N;
  sh_offset : N;
  sh_type : N;
  sh_len : N }.

(** The three fields of [struct btrfs_inode_item] the scanner decodes. *)
Record btrfs_inode_item := mkInodeItem {
  btrfs_stack_inode_generation : N;
  btrfs_stack_inode_size : N;
  btrfs_stack_inode_mode : N }.

Record search_item := mkSearchItem {
  header : btrfs_ioctl_search_header;
  payload : btrfs_inode_item }.

Record File := mkFile { fileno : N }.

(** Everything the program asks of the kernel and of the modules that are
    imported from [.btrfs], [.openat], [.dedup] and [.datetime].  A call
    that can fail with an errno the program inspects returns a sum. *)
Record World := mkWorld {
  BTRFS_INODE_ITEM_KEY : N;
  u64_max : N;
  get_root_generation : N -> N;
  ioctl_tree_search : N -> btrfs_ioctl_search_key -> N + list search_item;
  lookup_ino_path_one : N -> N -> N + string;
  fopenat_rw : N -> string -> N + File;
  fds_in_write_use : list N -> list N;
  sha1_digest : File -> N;
  fstat : N -> N * N;
  tell : File -> N;
  cmp_files : File -> File -> bool;
  clone_data : N -> N -> bool;
  system_now : N }.

(** ** Scanner: track_updated_files and forget_vol *)

Module Scanner.

Definition S_IFMT : N := 61440.   (* 0o170000 *)
Definition S_IFREG : N := 32768.  (* 0o100000 *)
Definition S_ISREG (mode : N) : bool := N.land mode S_IFMT =? S_IFREG.

(** Python truth value of an optional integer: None and 0 are false. *)
Definition truthy (o : option N) : bool :=
  match o with
  | Some n => negb (n =? 0)
  | None => false
  end.

(** tracking.py 207-211. *)
Definition min_generation (vol : Volume) : N :=
  match last_tracked_size_cutoff vol with
  | Some c =>
      if c <=? size_cutoff vol then last_tracked_generation vol + 1 else 0
  | None => 0
  end.

(** tracking.py 223-242; ffi.new zero-initialises the structure. *)
Definition initial_key (w : World) (min_gen : N) : btrfs_ioctl_search_key :=
  {| tree_id := 0;
     min_objectid := 0; max_objectid := u64_max w;
     min_offset := 0; max_offset := u64_max w;
     min_transid := min_gen; max_transid := u64_max w;
     min_type := 0; max_type := BTRFS_INODE_ITEM_KEY w;
     nr_items := 0 |}.

Definition set_nr_items (n : N) (sk : btrfs_ioctl_search_key) :=
  {| tree_id := tree_id sk;
     min_objectid := min_objectid sk; max_objectid := max_objectid sk;
     min_offset := min_offset sk; max_offset := max_offset sk;
     min_transid := min_transid sk; max_transid := max_transid sk;
     min_type := min_type sk; max_type := max_type sk;
     nr_items := n |}.

(** tracking.py 308-312: the cursor re-enters after the last header. *)
Definition advance (sh : btrfs_ioctl_search_header)
    (sk : btrfs_ioctl_search_key) :=
  {| tree_id := tree_id sk;
     min_objectid := sh_objectid sh; max_objectid := max_objectid sk;
     min_offset := sh_offset sh + 1; max_offset := max_offset sk;
     min_transid := min_transid sk; max_transid := max_transid sk;
     min_type := sh_type sh; max_type := max_type sk;
     nr_items := nr_items sk |}.

(** Modelled from the spec: [get_or_create] of [bedup/model.py], which is
    not among the sources.  "Upsert Inode(vol, ino)": the row keyed by
    (volume, inode number) if the session has one, else a fresh row; the
    flag tells which. *)
Definition get_or_create_inode (sess : Session) (vid i : N) : Inode * bool :=
  match inodes (pending sess) !! (vid, i) with
  | Some row => (row, false)
  | None =>
      ({| inode_vol := vid; ino := i; inode_size := 0; has_updates := false;
          mini_hash := None; fiemap_hash := None |}, true)
  end.

Definition upsert (sz : N) (row : Inode) : Inode :=
  {| inode_vol := inode_vol row; ino := ino row;
     inode_size := sz; has_updates := true;
     mini_hash := mini_hash row; fiemap_hash := fiemap_hash row |}.

(** tracking.py 284-298, for an item that passed every filter. *)
Definition record_inode (w : World) (vol : Volume) (i sz : N)
    (sess : Session) : Session :=
  let k := (vol_id vol, i) in
  let '(row, inode_created) := get_or_create_inode sess (vol_id vol) i in
  let inode := upsert sz row in
  let sess := sess_store k inode sess in
  match lookup_ino_path_one w (vol_fd vol) i with
  | inl _ =>
      if inode_created then sess_expunge k sess
      else sess_delete k sess
  | inr _ => sess
  end.

(** tracking.py 258-307: the body of the for loop; every [continue]
    returns the session as it is. *)
Definition scan_item (w : World) (vol : Volume) (min_gen : N)
    (sess : Session) (it : search_item) : Session :=
  let sh := header it in
  if negb (sh_type sh =? BTRFS_INODE_ITEM_KEY w) then sess else
  let item := payload it in
  let inode_gen := btrfs_stack_inode_generation item in
  let size := btrfs_stack_inode_size item in
  let mode := btrfs_stack_inode_mode item in
  if size <? size_cutoff vol then sess else
  if (if truthy (last_tracked_size_cutoff vol)
         && (default 0 (last_tracked_size_cutoff vol) <=? size)
      then inode_gen <=? last_tracked_generation vol
      else inode_gen <? min_gen)
  then sess else
  if negb (S_ISREG mode) then sess else
  record_inode w vol (sh_objectid sh) size sess.

(** tracking.py 244-312.  Each turn of [while True] costs one unit of
    fuel; [None] means the fuel ran out.  Storing [sh.offset + 1] in a u64
    field that cannot hold it makes cffi raise OverflowError. *)
Fixpoint scan_loop (fuel : nat) (w : World) (vol : Volume) (min_gen : N)
    (sk : btrfs_ioctl_search_key) (sess : Session)
    : option (result unit * Session) :=
  match fuel with
  | O => None
  | S fuel' =>
      let sk := set_nr_items 4096 sk in
      match ioctl_tree_search w (vol_fd vol) sk with
      | inl e => Some (Raise (IOError e), sess)
      | inr items =>
          match last items with
          | None => Some (Ok tt, sess)
          | Some it =>
              let sess := foldl (scan_item w vol min_gen) sess items in
              let sh := header it in
              if u64_max w <? sh_offset sh + 1
              then Some (Raise OverflowError, sess)
              else scan_loop fuel' w vol min_gen (advance sh sk) sess
          end
      end
  end.

Definition tracked (top_generation : N) (vol : Volume) : Volume :=
  {| vol_id := vol_id vol; vol_fs := vol_fs vol; root_id := root_id vol;
     size_cutoff := size_cutoff vol;
     last_tracked_generation := top_generation;
     last_tracked_size_cutoff := Some (size_cutoff vol);
     vol_fd := vol_fd vol; vol_st_dev := vol_st_dev vol |}.

(** Assigning to attributes of the volume object [vid]. *)
Definition store_volume (vid : N) (vol : Volume) : Session -> Session :=
  with_pending (fun c => set_volumes (<[vid := vol]> (volumes c)) c).

(** tracking.py 203-315.  [vid] names the volume object the caller
    passes; its attributes are those the session holds. *)
Definition track_updated_files (fuel : nat) (w : World) (vid : N)
    (sess : Session) : option (result unit * Session) :=
  match volumes (pending sess) !! vid with
  | None => Some (Raise AttributeError, sess)
  | Some vol =>
      let top_generation := get_root_generation w (vol_fd vol) in
      let min_gen := min_generation vol in
      if top_generation <? min_gen then Some (Ok tt, commit sess)
      else
        match scan_loop fuel w vol min_gen (initial_key w min_gen) sess with
        | Some (Ok _, sess) =>
            Some (Ok tt,
                  commit (store_volume vid (tracked top_generation vol) sess))
        | r => r
        end
  end.

Definition forgotten (vol : Volume) : Volume :=
  {| vol_id := vol_id vol; vol_fs := vol_fs vol; root_id := root_id vol;
     size_cutoff := size_cutoff vol;
     last_tracked_generation := 0;
     last_tracked_size_cutoff := last_tracked_size_cutoff vol;
     vol_fd := vol_fd vol; vol_st_dev := vol_st_dev vol |}.

(** tracking.py 94-98. *)
Definition forget_vol (vid : N) (sess : Session) : result unit * Session :=
  match volumes (pending sess) !! vid with
  | None => (Raise AttributeError, sess)
  | Some vol =>
      let sess :=
        with_pending (fun c =>
          set_inodes
            (filter (fun kv => inode_vol (snd kv) ≠ vol_id vol) (inodes c)) c)
          sess in
      (Ok tt, commit (store_volume vid (forgotten vol) sess))
  end.

(** The first [n] turns of the loop of [scan_loop], when each of them
    reads a batch that is not empty and moves the cursor: the key and the
    session the next turn starts from. *)
Fixpoint scan_batches (n : nat) (w : World) (vol : Volume) (min_gen : N)
    (sk : btrfs_ioctl_search_key) (sess : Session)
    : option (btrfs_ioctl_search_key * Session) :=
  match n with
  | O => Some (sk, sess)
  | S n' =>
      let sk := set_nr_items 4096 sk in
      match ioctl_tree_search w (vol_fd vol) sk with
      | inl _ => None
      | inr items =>
          match last items with
          | None => None
          | Some it =>
              let sess := foldl (scan_item w vol min_gen) sess items in
              let sh := header it in
              if u64_max w <? sh_offset sh + 1 then None
              else scan_batches n' w vol min_gen (advance sh sk) sess
          end
      end
  end.

(** The eligibility rule in the words of the specification (4.2, step 5):
    "if last_tracked_size_cutoff is set and size ≥ last_tracked_size_cutoff,
    require inode_generation > last_tracked_generation; else require
    inode_generation ≥ min_generation". *)
Definition spec_update_eligible (vol : Volume) (min_gen inode_gen sz : N)
    : bool :=
  match last_tracked_size_cutoff vol with
  | Some c =>
      if c <=? sz then last_tracked_generation vol <? inode_gen
      else min_gen <=? inode_gen
  | None => min_gen <=? inode_gen
  end.

(** The four conditions of the specification under which a yielded item
    is recorded. *)
Definition spec_item_recorded (w : World) (vol : Volume) (min_gen : N)
    (it : search_item) : bool :=
  (sh_type (header it) =? BTRFS_INODE_ITEM_KEY w)
  && (size_cutoff vol <=? btrfs_stack_inode_size (payload it))
  && S_ISREG (btrfs_stack_inode_mode (payload it))
  && spec_update_eligible vol min_gen
       (btrfs_stack_inode_generation (payload it))
       (btrfs_stack_inode_size (payload it)).

(** What a scan leaves alone: the committed catalog, the volume rows and
    the audit tables of the session. *)
Definition scan_frame (s s' : Session) : Prop :=
  committed s' = committed s
  ∧ volumes (pending s') = volumes (pending s)
  ∧ dedup_events (pending s') = dedup_events (pending s)
  ∧ dedup_event_inodes (pending s') = dedup_event_inodes (pending s).

End Scanner.

(** ** Python's call protocol, as far as the module needs it *)

Module Python.

(** A [def] statement: the name it binds and its parameters, none of which
    has a default, a star or a double star. *)
Record FunctionDef := mkDef {
  def_name : string;
  def_line : nat;
  def_params : list string }.

(** Executing the module body binds each name in turn; a later [def] of the
    same name rebinds it. *)
Definition exec_defs (defs : list FunctionDef) : gmap string FunctionDef :=
  foldl (fun ns d => <[def_name d := d]> ns) ∅ defs.

(** Binding [npos] positional arguments and the keywords [kwargs] to the
    parameters: too many positionals, an unknown keyword, a keyword naming
    a parameter already filled, or a parameter left without a value each
    raise TypeError before the body (or the generator) starts. *)
Definition bind_arguments (params : list string) (npos : nat)
    (kwargs : list string) : result unit :=
  if bool_decide (length params < npos)%nat then Raise TypeError
  else if existsb (fun k => negb (bool_decide (k ∈ params))) kwargs
  then Raise TypeError
  else if existsb (fun k => bool_decide (k ∈ take npos params)) kwargs
  then Raise TypeError
  else if existsb (fun p => negb (bool_decide (p ∈ kwargs))) (drop npos params)
  then Raise TypeError
  else Ok tt.

(** The function definitions of bedup/tracking.py, in file order. *)
Definition tracking_defs : list FunctionDef :=
  [ mkDef "get_vol" 64 ["sess"; "volpath"; "size_cutoff"];
    mkDef "forget_vol" 94 ["sess"; "vol"];
    mkDef "parse_btrfs_mountinfo" 106 [];
    mkDef "is_subvolume" 122 ["btrfs_mountpoint_fd"];
    mkDef "show_fs" 127 ["fs"; "mpoints_by_root_id"; "initial_indent"; "indent"];
    mkDef "show_vols" 150 ["sess"];
    mkDef "track_updated_files" 203 ["sess"; "vol"; "tt"];
    mkDef "windowed_query" 318
      ["window_start"; "query"; "attr"; "per"; "clear_updates"];
    mkDef "windowed_query" 335 ["window_start"; "query"; "attr"; "per"];
    mkDef "dedup_tracked" 350 ["sess"; "volset"; "tt"];
    mkDef "dedup_tracked1" 395
      ["sess"; "tt"; "ofile_reserved"; "query"; "fs"; "skipped"];
    mkDef "dedup_tracked2" 619 ["sess"; "volset"; "tt"];
    mkDef "do_hashing" 683 ["sess"; "tt"; "chunk"];
    mkDef "do_hashing2" 726 ["sess"; "tt"; "chunk"];
    mkDef "do_dedup" 755 ["sess"; "tt"; "chunk"] ].

Definition tracking_namespace : gmap string FunctionDef :=
  exec_defs tracking_defs.

End Python.

(** ** Cloner: dedup_tracked and the final stage of dedup_tracked1 *)

Module Cloner.

(** The session, the list [skipped] shared by dedup_tracked and
    dedup_tracked1, the process limit RLIMIT_OFILE, and two logs: every
    fopenat_rw call (descriptor of the volume, path) and every clone_data
    call (dest, src). *)
Record State := mkState {
  sess : Session;
  skipped : list Inode;
  rlimit_ofile : N * N;
  opened : list (N * string);
  cloned : list (N * N) }.

Definition M (A : Type) : Type := State -> result A * State.

#[export] Instance M_ret : MRet M := fun A a st => (Ok a, st).
#[export] Instance M_bind : MBind M := fun A B f m st =>
  match m st with
  | (Ok a, st') => f a st'
  | (Raise e, st') => (Raise e, st')
  end.

Definition raise {A} (e : exn) : M A := fun st => (Raise e, st).
Definition gets {A} (f : State -> A) : M A := fun st => (Ok (f st), st).
Definition modify (f : State -> State) : M unit := fun st => (Ok tt, f st).

Definition with_sess (f : Session -> Session) (st : State) : State :=
  {| sess := f (sess st); skipped := skipped st;
     rlimit_ofile := rlimit_ofile st; opened := opened st;
     cloned := cloned st |}.

Definition with_skipped (f : list Inode -> list Inode) (st : State) : State :=
  {| sess := sess st; skipped := f (skipped st);
     rlimit_ofile := rlimit_ofile st; opened := opened st;
     cloned := cloned st |}.

Definition with_rlimit (soft_hard : N * N) (st : State) : State :=
  {| sess := sess st; skipped := skipped st;
     rlimit_ofile := soft_hard; opened := opened st;
     cloned := cloned st |}.

Definition with_opened (f : list (N * string) -> list (N * string))
    (st : State) : State :=
  {| sess := sess st; skipped := skipped st;
     rlimit_ofile := rlimit_ofile st; opened := f (opened st);
     cloned := cloned st |}.

Definition with_cloned (f : list (N * N) -> list (N * N)) (st : State)
    : State :=
  {| sess := sess st; skipped := skipped st;
     rlimit_ofile := rlimit_ofile st; opened := opened st;
     cloned := f (cloned st) |}.

Definition on_sess (f : Session -> Session) : M unit := modify (with_sess f).

Definition set_skipped (l : list Inode) : M unit :=
  modify (with_skipped (fun _ => l)).

(** skipped.append(inode) *)
Definition skip (inode : Inode) : M unit :=
  modify (with_skipped (fun l => l ++ [inode])).

(** resource.setrlimit(resource.RLIMIT_OFILE, (soft, hard)) *)
Definition setrlimit (soft hard : N) : M unit :=
  modify (with_rlimit (soft, hard)).

Definition log_open (dirfd : N) (path : string) : M unit :=
  modify (with_opened (fun l => l ++ [(dirfd, path)])).

Definition log_clone (dest src : N) : M unit :=
  modify (with_cloned (fun l => l ++ [(dest, src)])).

(** inode.vol: the volume row the inode points to. *)
Definition inode_volume (inode : Inode) : M Volume := fun st =>
  match volumes (pending (sess st)) !! inode_vol inode with
  | Some vol => (Ok vol, st)
  | None => (Raise AttributeError, st)
  end.

(** d[k] on a dict. *)
Definition getitem {V} (d : gmap N V) (k : N) : M V :=
  match d !! k with
  | Some v => mret v
  | None => raise KeyError
  end.

Fixpoint for_each {A} (body : A -> M unit) (l : list A) : M unit :=
  match l with
  | [] => mret tt
  | x :: l' => _ ← body x; for_each body l'
  end.

Fixpoint for_fold {A B} (body : B -> A -> M B) (l : list A) (b : B) : M B :=
  match l with
  | [] => mret b
  | x :: l' => b' ← body b x; for_fold body l' b'
  end.

(** A row of the Commonality3 view: the size shared by the group, its
    inode_count column and its inodes relationship. *)
Record Comm3 := mkComm3 {
  comm_size : N;
  inode_count : N;
  comm_inodes : list Inode }.

(** The locals files, fds, fd_names and fd_inodes of tracking.py 464-467. *)
Record Locals := mkLocals {
  files : list File;
  fds : list N;
  fd_names : gmap N string;
  fd_inodes : gmap N Inode }.

Definition no_locals : Locals :=
  {| files := []; fds := []; fd_names := ∅; fd_inodes := ∅ |}.

(** tracking.py 487-526, one turn of the loop. *)
Definition open_candidate (w : World) (loc : Locals) (inode : Inode)
    : M Locals :=
  vol ← inode_volume inode;
  match lookup_ino_path_one w (vol_fd vol) (ino inode) with
  | inl e =>
      if e =? ENOENT then _ ← on_sess (sess_delete (inode_key inode)); mret loc
      else raise (IOError e)
  | inr path =>
      _ ← log_open (vol_fd vol) path;
      match fopenat_rw w (vol_fd vol) path with
      | inl e =>
          if e =? ETXTBSY then _ ← skip inode; mret loc
          else if e =? EACCES then _ ← skip inode; mret loc
          else if e =? ENOENT then _ ← skip inode; mret loc
          else raise (IOError e)
      | inr afile =>
          let fd := fileno afile in
          mret {| files := files loc ++ [afile];
                  fds := fds loc ++ [fd];
                  fd_names := <[fd := path]> (fd_names loc);
                  fd_inodes := <[fd := inode]> (fd_inodes loc) |}
      end
  end.

(** by_hash[digest].append(afile) on a defaultdict(list). *)
Definition bucket_append (digest : N) (afile : File)
    (by_hash : gmap N (list File)) : gmap N (list File) :=
  <[digest := default [] (by_hash !! digest) ++ [afile]]> by_hash.

(** tracking.py 534-564, one turn of the loop. *)
Definition hash_candidate (w : World) (comm3 : Comm3) (loc : Locals)
    (in_write_use : list N) (by_hash : gmap N (list File)) (afile : File)
    : M (gmap N (list File)) :=
  let fd := fileno afile in
  inode ← getitem (fd_inodes loc) fd;
  if bool_decide (fd ∈ in_write_use) then
    _ ← getitem (fd_names loc) fd; _ ← skip inode; mret by_hash
  else
    let digest := sha1_digest w afile in
    let st := fstat w fd in
    if negb (fst st =? ino inode) then _ ← skip inode; mret by_hash
    else
      vol ← inode_volume inode;
      if negb (snd st =? vol_st_dev vol) then _ ← skip inode; mret by_hash
      else
        let size := tell w afile in
        if negb (size =? comm_size comm3) then
          if size <? size_cutoff vol
          then _ ← on_sess (sess_delete (inode_key inode)); mret by_hash
          else _ ← skip inode; mret by_hash
        else mret (bucket_append digest afile by_hash).

(** tracking.py 577-592: the destinations of one bucket, in order;
    [assert False] raises on the first pair whose bytes differ. *)
Fixpoint clone_dests (w : World) (loc : Locals) (sfile : File)
    (dfiles : list File) (dfiles_successful : list File)
    : M (list File) :=
  match dfiles with
  | [] => mret dfiles_successful
  | dfile :: rest =>
      let sfd := fileno sfile in
      let dfd := fileno dfile in
      _ ← getitem (fd_names loc) sfd;
      _ ← getitem (fd_names loc) dfd;
      if negb (cmp_files w sfile dfile) then raise AssertionError
      else
        _ ← log_clone dfd sfd;
        if clone_data w dfd sfd
        then clone_dests w loc sfile rest (dfiles_successful ++ [dfile])
        else clone_dests w loc sfile rest dfiles_successful
  end.

Definition append_event (evt : DedupEvent) (c : Catalog) : Catalog :=
  {| volumes := volumes c; inodes := inodes c;
     dedup_events := dedup_events c ++ [evt];
     dedup_event_inodes := dedup_event_inodes c |}.

Definition append_event_inode (evti : DedupEventInode) (c : Catalog)
    : Catalog :=
  {| volumes := volumes c; inodes := inodes c;
     dedup_events := dedup_events c;
     dedup_event_inodes := dedup_event_inodes c ++ [evti] |}.

(** sess.add(evt); the event's key is handed back for the rows that
    refer to it. *)
Definition add_event (evt : DedupEvent) : M nat :=
  id ← gets (fun st => length (dedup_events (pending (sess st))));
  _ ← on_sess (with_pending (append_event evt));
  mret id.

Definition add_event_inode (evti : DedupEventInode) : M unit :=
  on_sess (with_pending (append_event_inode evti)).

(** The rows written for an event: one for each file, naming the inode
    that fd_inodes holds for its descriptor. *)
Definition event_rows (evt : nat) (loc : Locals) (fileset : list File)
    : list DedupEventInode :=
  omap (fun afile =>
          (fun inode =>
             {| evti_event := evt; evti_ino := ino inode;
                evti_vol := inode_vol inode |})
          <$> fd_inodes loc !! fileno afile)
       fileset.

(** tracking.py 593-602. *)
Definition record_event (w : World) (fs : N) (comm3 : Comm3) (loc : Locals)
    (sfile : File) (dfiles_successful : list File) : M unit :=
  evt ← add_event {| evt_fs := fs; item_size := comm_size comm3;
                     created := system_now w |};
  _ ← for_each (fun afile =>
         inode ← getitem (fd_inodes loc) (fileno afile);
         add_event_inode {| evti_event := evt; evti_ino := ino inode;
                            evti_vol := inode_vol inode |})
       (sfile :: dfiles_successful);
  on_sess commit.

(** tracking.py 566-602, one bucket of by_hash. *)
Definition clone_fileset (w : World) (fs : N) (comm3 : Comm3) (loc : Locals)
    (fileset : list File) : M unit :=
  match fileset with
  | sfile :: ((_ :: _) as dfiles) =>
      dfiles_successful ← clone_dests w loc sfile dfiles [];
      match dfiles_successful with
      | [] => mret tt
      | _ :: _ => record_event w fs comm3 loc sfile dfiles_successful
      end
  | _ => mret tt
  end.

(** tracking.py 487-602.  by_hash.itervalues() visits the buckets in the
    order of the dictionary, here that of [map_to_list]. *)
Definition clone_group (w : World) (fs : N) (comm3 : Comm3) : M unit :=
  loc ← for_fold (open_candidate w) (comm_inodes comm3) no_locals;
  let in_write_use := fds_in_write_use w (fds loc) in
  by_hash ← for_fold (hash_candidate w comm3 loc in_write_use) (files loc) ∅;
  for_each (clone_fileset w fs comm3 loc) (snd <$> map_to_list by_hash).

(** tracking.py 460-602: what dedup_tracked1 does with one Commonality3
    group.  The local ofile_soft is passed in and handed back. *)
Definition dedup_comm3 (w : World) (fs ofile_reserved : N) (comm3 : Comm3)
    (ofile_soft ofile_hard : N) : M N :=
  let count3 := inode_count comm3 in
  let ofile_req := 2 * count3 + ofile_reserved in
  if ofile_soft <? ofile_req then
    if ofile_req <=? ofile_hard then
      _ ← setrlimit ofile_req ofile_hard;
      _ ← clone_group w fs comm3;
      mret ofile_req
    else
      _ ← for_each (fun inode =>
             if has_updates inode then skip inode else mret tt)
           (comm_inodes comm3);
      mret ofile_soft
  else
    _ ← clone_group w fs comm3;
    mret ofile_soft.

(** Modelled from the spec: the Commonality1 mapping of [comm_mappings] in
    [bedup/model.py], which is not among the sources.  "All Inode rows
    satisfying vol_id ∈ volset ∧ fs_id = fs ∧ has_updates, grouped by size,
    keeping groups of cardinality ≥ 2"; the query's count is the number of
    such groups. *)
Definition candidate_rows (c : Catalog) (fs : N) (vol_ids : list N)
    : list Inode :=
  filter (fun i =>
            inode_vol i ∈ vol_ids
            ∧ vol_fs <$> (volumes c !! inode_vol i) = Some fs
            ∧ has_updates i = true)
         (snd <$> map_to_list (inodes c)).

Definition commonality1 (c : Catalog) (fs : N) (vol_ids : list N) : list N :=
  let rows := candidate_rows c fs vol_ids in
  filter (fun sz => (2 ≤ length (filter (fun i => inode_size i = sz) rows))%nat)
         (remove_dups (inode_size <$> rows)).

(** sess.query(Inode).order_by(-Inode.size).first(): a row of greatest
    size, None on an empty table. *)
Definition first_by_size_desc (c : Catalog) : option Inode :=
  foldr (fun i acc =>
           match acc with
           | Some j => if inode_size j <? inode_size i then Some i else Some j
           | None => Some i
           end)
        None (snd <$> map_to_list (inodes c)).

Section DedupTracked.

(** The rest of the pipeline, entered through the call on line 390 with
    ofile_reserved, fs and the window the generator starts from. *)
Variable dedup_tracked1 : N -> N -> N -> M unit.

(** tracking.py 350-392. *)
Definition dedup_tracked (volset : list Volume) : M unit :=
  _ ← set_skipped [];
  match volset with
  | [] => raise IndexError
  | vol0 :: _ =>
      let fs := vol_fs vol0 in
      let vol_ids := vol_id <$> volset in
      if negb (forallb (fun vol => vol_fs vol =? fs) volset)
      then raise AssertionError
      else
        let ofile_reserved := 7 + N.of_nat (length volset) in
        le ← gets (fun st =>
                length (commonality1 (pending (sess st)) fs vol_ids));
        _ ← match le with
            | O => mret tt
            | S _ =>
                first ← gets (fun st => first_by_size_desc (pending (sess st)));
                match first with
                | None => raise AttributeError
                | Some row =>
                    let window_start := inode_size row in
                    match Python.tracking_namespace !! "windowed_query" with
                    | None => raise NameError
                    | Some f =>
                        match Python.bind_arguments (Python.def_params f) 2
                                ["attr"; "per"; "clear_updates"] with
                        | Raise e => raise e
                        | Ok _ => dedup_tracked1 ofile_reserved fs window_start
                        end
                    end
                end
            end;
        on_sess commit
  end.

End DedupTracked.

(** Appending rows to the DedupEventInode table. *)
Definition append_rows (rows : list DedupEventInode) (c : Catalog) : Catalog :=
  {| volumes := volumes c; inodes := inodes c;
     dedup_events := dedup_events c;
     dedup_event_inodes := dedup_event_inodes c ++ rows |}.

(** What the opening and hashing loops leave alone. *)
Definition clone_frame (st st' : State) : Prop :=
  cloned st' = cloned st
  ∧ volumes (pending (sess st')) = volumes (pending (sess st)).

(** A file that passed the checks of the hashing loop: its length is the
    group's size and fstat names the inode and device of a candidate of
    the group. *)
Definition checked (w : World) (comm3 : Comm3) (vols : gmap N Volume)
    (f : File) : Prop :=
  tell w f = comm_size comm3
  ∧ ∃ inode vol,
      inode ∈ comm_inodes comm3
      ∧ fst (fstat w (fileno f)) = ino inode
      ∧ vols !! inode_vol inode = Some vol
      ∧ snd (fstat w (fileno f)) = vol_st_dev vol.

Definition buckets_checked (w : World) (comm3 : Comm3) (vols : gmap N Volume)
    (by_hash : gmap N (list File)) : Prop :=
  ∀ digest bucket f, by_hash !! digest = Some bucket → f ∈ bucket →
                     checked w comm3 vols f.

(** The pairs handed to clone_data for one bucket are made of files of
    that bucket. *)
Definition from_fileset (fileset : list File) (log : list (N * N)) : Prop :=
  ∀ dest src, (dest, src) ∈ log →
    ∃ dfile sfile, dfile ∈ fileset ∧ sfile ∈ fileset
                   ∧ fileno dfile = dest ∧ fileno sfile = src.

End Cloner.

(** ** Concrete catalogs and worlds used by the examples below *)

Module Examples.

Definition MiB : N := 1024 * 1024.

(** A volume last scanned at generation 3 with a 16 MiB cutoff, since
    lowered to 8 MiB. *)
Definition vol1 : Volume :=
  {| vol_id := 1; vol_fs := 1; root_id := 5;
     size_cutoff := 8 * MiB;
     last_tracked_generation := 3;
     last_tracked_size_cutoff := Some (16 * MiB);
     vol_fd := 7; vol_st_dev := 40 |}.

Definition catalog1 : Catalog :=
  {| volumes := {[1 := vol1]}; inodes := ∅;
     dedup_events := []; dedup_event_inodes := [] |}.

Definition session1 : Session :=
  {| committed := catalog1; pending := catalog1 |}.

(** One regular file of 16 MiB, inode 257, written at generation 9. *)
Definition item257 : search_item :=
  {| header := {| sh_transid := 9; sh_objectid := 257; sh_offset := 0;
                  sh_type := 1; sh_len := 160 |};
     payload := {| btrfs_stack_inode_generation := 9;
                   btrfs_stack_inode_size := 16 * MiB;
                   btrfs_stack_inode_mode := 33188 |} |}.

(** A filesystem at generation 10 whose tree search yields [item257] and
    then, from the advanced cursor, what [second] says. *)
Definition scan_world (second : N + list search_item) : World :=
  {| BTRFS_INODE_ITEM_KEY := 1;
     u64_max := 18446744073709551615;
     get_root_generation := fun _ => 10;
     ioctl_tree_search := fun _ sk =>
       if min_objectid sk =? 0 then inr [item257] else second;
     lookup_ino_path_one := fun _ _ => inr "a";
     fopenat_rw := fun _ _ => inl ENOENT;
     fds_in_write_use := fun _ => [];
     sha1_digest := fun _ => 0;
     fstat := fun _ => (0, 0);
     tell := fun _ => 0;
     cmp_files := fun _ _ => true;
     clone_data := fun _ _ => true;
     system_now := 0 |}.

End Examples.

Module CloneExamples.

Import Cloner.

Definition MiB : N := 1024 * 1024.

Definition vol1 : Volume :=
  {| vol_id := 1; vol_fs := 1; root_id := 5;
     size_cutoff := 8 * MiB;
     last_tracked_generation := 10;
     last_tracked_size_cutoff := Some (8 * MiB);
     vol_fd := 7; vol_st_dev := 40 |}.

(** A tracked file of 16 MiB with inode number [i]. *)
Definition inode (i : N) : Inode :=
  {| inode_vol := 1; ino := i; inode_size := 16 * MiB; has_updates := true;
     mini_hash := Some 1; fiemap_hash := Some i |}.

Definition catalog (rows : list Inode) : Catalog :=
  {| volumes := {[1 := vol1]};
     inodes := list_to_map ((fun r => (inode_key r, r)) <$> rows);
     dedup_events := []; dedup_event_inodes := [] |}.

(** A process with the given limits, nothing skipped, opened or cloned
    yet, whose session holds [rows]. *)
Definition state (limits : N * N) (rows : list Inode) : State :=
  {| sess := {| committed := catalog rows; pending := catalog rows |};
     skipped := []; rlimit_ofile := limits;
     opened := []; cloned := [] |}.

(** Inode [i] lives at path "fi"; opening it gives descriptor [i]; every
    file has digest 99.  [open_error] gives the errno, if any, with which
    opening a path fails, [differ] the pairs of files whose bytes differ,
    [stat] what fstat reports and [length_of] where reading a file ends. *)
Definition world (open_error : string -> option N)
    (differ : File -> File -> bool) (stat : N -> N * N)
    (length_of : File -> N) : World :=
  {| BTRFS_INODE_ITEM_KEY := 1;
     u64_max := 18446744073709551615;
     get_root_generation := fun _ => 10;
     ioctl_tree_search := fun _ _ => inr [];
     lookup_ino_path_one := fun _ i =>
       inr ("f" +:+ String (Ascii.ascii_of_N (48 + i)) "");
     fopenat_rw := fun _ path =>
       match open_error path with
       | Some e => inl e
       | None =>
           match path with
           | String _ (String c _) => inr {| fileno := Ascii.N_of_ascii c - 48 |}
           | _ => inl ENOENT
           end
       end;
     fds_in_write_use := fun _ => [];
     sha1_digest := fun _ => 99;
     fstat := stat;
     tell := length_of;
     cmp_files := fun a b => negb (differ a b);
     clone_data := fun _ _ => true;
     system_now := 1700000000 |}.

Definition quiet_world : World :=
  world (fun _ => None) (fun _ _ => false)
        (fun fd => (fd, 40)) (fun _ => 16 * MiB).

(** The file of inode 4 is unlinked between the path lookup and the open. *)
Definition unlinked_world : World :=
  world (fun path => if bool_decide (path = "f4") then Some ENOENT else None)
        (fun _ _ => false) (fun fd => (fd, 40)) (fun _ => 16 * MiB).

(** The path of inode 4 was replaced: the descriptor opened there belongs
    to inode 999. *)
Definition raced_world : World :=
  world (fun _ => None) (fun _ _ => false)
        (fun fd => if fd =? 4 then (999, 40) else (fd, 40))
        (fun _ => 16 * MiB).

(** The file of inode 5 was truncated to 1 MiB, below the cutoff. *)
Definition truncated_world : World :=
  world (fun _ => None) (fun _ _ => false)
        (fun fd => (fd, 40))
        (fun f => if fileno f =? 5 then 1 * MiB else 16 * MiB).

(** The source and the second destination have equal digests and
    different bytes. *)
Definition collision_world : World :=
  world (fun _ => None) (fun _ b => fileno b =? 5)
        (fun fd => (fd, 40)) (fun _ => 16 * MiB).

(** The locals after the files of inodes 3, 4 and 5 were opened. *)
Definition locals345 : Locals :=
  {| files := [mkFile 3; mkFile 4; mkFile 5];
     fds := [3; 4; 5];
     fd_names := {[3 := "f3"; 4 := "f4"; 5 := "f5"]};
     fd_inodes := {[3 := inode 3; 4 := inode 4; 5 := inode 5]} |}.

Definition rows345 : list Inode := [inode 3; inode 4; inode 5].

(** Scenario 3 of the specification: 5000 identical files. *)
Definition many : list Inode := (fun k => inode (N.of_nat k)) <$> seq 300 5000.

Definition comm3_many : Comm3 :=
  {| comm_size := 16 * MiB; inode_count := 5000; comm_inodes := many |}.

Definition comm3_of (rows : list Inode) : Comm3 :=
  {| comm_size := 16 * MiB; inode_count := N.of_nat (length rows);
     comm_inodes := rows |}.

End CloneExamples.


(** ** Relations used to state what the scanner and the cloner preserve *)

Module Footprint.

(** How one key of the Inode table may change during a scan of [vol]: the
    row is as before, or gone, or a row flagged has_updates whose size is
    at least the cutoff. *)
Definition scan_row_step (vol : Volume) (old new : option Inode) : Prop :=
  new = old
  ∨ new = None
  ∨ ∃ row, new = Some row ∧ has_updates row = true
           ∧ size_cutoff vol ≤ inode_size row.

End Footprint.


Module GroupFootprint.

Import Cloner.

(** What processing one group may do outside the audit tables and the
    clone log: the volume rows stay, Inode rows are only deleted, skipped
    only grows, and by candidates of the group [X], the log of opens only
    grows and the process limits stay. *)
Definition group_footprint (X : list Inode) (st st' : State) : Prop :=
  volumes (pending (sess st')) = volumes (pending (sess st))
  ∧ inodes (pending (sess st')) ⊆ inodes (pending (sess st))
  ∧ (∃ sk, skipped st' = skipped st ++ sk ∧ ∀ i, i ∈ sk → i ∈ X)
  ∧ (∃ op, opened st' = opened st ++ op)
  ∧ rlimit_ofile st' = rlimit_ofile st.

(** The dictionaries of a group agree: every descriptor with an inode has
    a name, every opened file has an inode, and the inodes are candidates
    of the group [X]. *)
Definition locals_ok (X : list Inode) (loc : Locals) : Prop :=
  (∀ fd i, fd_inodes loc !! fd = Some i → i ∈ X)
  ∧ (∀ fd, is_Some (fd_inodes loc !! fd) → is_Some (fd_names loc !! fd))
  ∧ (∀ f, f ∈ files loc → is_Some (fd_inodes loc !! fileno f)).

Definition buckets_known (loc : Locals) (by_hash : gmap N (list File))
    : Prop :=
  ∀ digest bucket f, by_hash !! digest = Some bucket → f ∈ bucket →
                     is_Some (fd_inodes loc !! fileno f).

(** The exceptions that leave a group: a volume that is missing, bytes
    that differ after equal digests, and the I/O errors of the kernel. *)
Definition group_exn (e : exn) : Prop :=
  e = AttributeError ∨ e = AssertionError ∨ ∃ errno, e = IOError errno.

Definition raises_only_group_exn {A} (r : result A) : Prop :=
  ∀ e, r = Raise e → group_exn e.

(** A step that leaves the audit tables and the clone log alone. *)
Definition quiet (st st' : State) : Prop :=
  dedup_events (pending (sess st')) = dedup_events (pending (sess st))
  ∧ dedup_event_inodes (pending (sess st'))
    = dedup_event_inodes (pending (sess st))
  ∧ cloned st' = cloned st.

(** The opens [op] of a stretch of the log are accounted for by the
    candidates [X], one candidate for one open: entry by entry, [op] is the
    (descriptor of the volume, resolved path) of a subsequence of [X], in
    the order of [X].  No candidate accounts for two opens. *)
Definition opens_of (w : World) (vols : gmap N Volume) (X : list Inode)
    (op : list (N * string)) : Prop :=
  ∃ cands,
    sublist cands X
    ∧ Forall2 (fun inode entry =>
                 ∃ vol, vols !! inode_vol inode = Some vol
                        ∧ entry.1 = vol_fd vol
                        ∧ lookup_ino_path_one w (vol_fd vol) (ino inode)
                          = inr entry.2)
              cands op.

End GroupFootprint.

(** ** The derived columns of logModel.DedupEvent *)

Module LogModel.

(** logModel.py 81-84: DedupEvent.inode_count, the number of
    DedupEventInode rows whose event is the event with key [id]. *)
Definition inode_count (c : Catalog) (id : nat) : nat :=
  length (filter (fun row => evti_event row = id) (dedup_event_inodes c)).

(** logModel.py 62-64: DedupEvent.estimated_space_gain. *)
Definition estimated_space_gain (c : Catalog) (id : nat) (evt : DedupEvent)
    : Z :=
  (Z.of_N (item_size evt) * (Z.of_nat (inode_count c id) - 1))%Z.

End LogModel.

Module AuditTrail.

Import Cloner.

(** What a group adds to the audit tables of the session it started with:
    events [evt] only, each referred to by at least two of the added
    rows, and a commit after the last of them. *)
Definition audited (evt : DedupEvent) (st0 st : State) : Prop :=
  ∃ evs rws,
    dedup_events (pending (sess st))
      = dedup_events (pending (sess st0)) ++ evs
    ∧ dedup_event_inodes (pending (sess st))
      = dedup_event_inodes (pending (sess st0)) ++ rws
    ∧ (∀ e, e ∈ evs → e = evt)
    ∧ (∀ k, (k < length evs)%nat →
         (2 ≤ length (filter (fun row =>
                 evti_event row
                 = (length (dedup_events (pending (sess st0))) + k)%nat)
               rws))%nat)
    ∧ (evs ≠ [] → committed (sess st) = pending (sess st)).

(** What holds while the group [comm3] is processed, relative to the
    state [st0] it started from. *)
Definition group_inv (w : World) (fs : N) (comm3 : Comm3) (st0 st : State)
    : Prop :=
  GroupFootprint.group_footprint (comm_inodes comm3) st0 st
  ∧ audited {| evt_fs := fs; item_size := comm_size comm3;
               created := system_now w |} st0 st.

End AuditTrail.


(** ** windowed_query, the definition the module ends up with *)

Module Windowed.

Section Generator.

(** The rows of the query and their [size] attribute, which is also the
    column the caller passes as [attr].  Sizes are integers: the window can
    move below zero. *)
Context {A : Type} (size_of : A → Z).

Definition by_size_desc : relation A :=
  fun a b => (size_of b ≤ size_of a)%Z.

#[local] Instance by_size_desc_dec a b : Decision (by_size_desc a b).
Proof. unfold by_size_desc. apply _. Defined.

(** query.order_by(-attr).filter(attr <= window_start).limit(per).all(),
    against a table [rows] that does not change while the generator runs.
    Rows of equal size come in the order of the table. *)
Definition select_window (rows : list A) (window_start : Z) (per : nat)
    : list A :=
  take per
    (merge_sort by_size_desc
       (filter (fun el => (size_of el ≤ window_start)%Z) rows)).

(** tracking.py 335-347: the elements the generator yields, in order.
    Each turn of [while True] costs one unit of fuel. *)
Fixpoint windowed_query (fuel : nat) (window_start : Z) (rows : list A)
    (per : nat) : option (list A) :=
  match fuel with
  | O => None
  | S fuel' =>
      let li := select_window rows window_start per in
      match last li with
      | None => Some []
      | Some el =>
          let window_end := size_of el in
          (fun rest => li ++ rest)
          <$> windowed_query fuel' (window_end - 1)%Z rows per
      end
  end.

End Generator.

End Windowed.

(** ** Further scenarios *)

Module ScanExamples.

(** The catalog of [Examples.catalog1] after a scan has recorded inode 257
    and a file of volume 2. *)
Definition row257 : Inode :=
  {| inode_vol := 1; ino := 257; inode_size := 16 * Examples.MiB;
     has_updates := false; mini_hash := Some 5; fiemap_hash := Some 6 |}.

Definition row_other : Inode :=
  {| inode_vol := 2; ino := 300; inode_size := 1;
     has_updates := false; mini_hash := None; fiemap_hash := None |}.

Definition catalog2 : Catalog :=
  {| volumes := {[1 := Examples.vol1]};
     inodes := {[(1, 257) := row257; (2, 300) := row_other]};
     dedup_events := []; dedup_event_inodes := [] |}.

Definition session2 : Session :=
  {| committed := catalog2; pending := catalog2 |}.

(** The world of [Examples.scan_world] with a path lookup that fails with
    errno [e]. *)
Definition unresolved_world (e : N) : World :=
  {| BTRFS_INODE_ITEM_KEY := 1;
     u64_max := 18446744073709551615;
     get_root_generation := fun _ => 10;
     ioctl_tree_search := fun _ sk =>
       if min_objectid sk =? 0 then inr [Examples.item257] else inr [];
     lookup_ino_path_one := fun _ _ => inl e;
     fopenat_rw := fun _ _ => inl ENOENT;
     fds_in_write_use := fun _ => [];
     sha1_digest := fun _ => 0;
     fstat := fun _ => (0, 0);
     tell := fun _ => 0;
     cmp_files := fun _ _ => true;
     clone_data := fun _ _ => true;
     system_now := 0 |}.

End ScanExamples.

Module VolsetExamples.

(** A volume of another filesystem. *)
Definition vol_elsewhere : Volume :=
  {| vol_id := 2; vol_fs := 2; root_id := 5;
     size_cutoff := 8 * CloneExamples.MiB;
     last_tracked_generation := 10;
     last_tracked_size_cutoff := Some (8 * CloneExamples.MiB);
     vol_fd := 8; vol_st_dev := 41 |}.

End VolsetExamples.

(** ** What is known about a pair of files when clone_data is called on it *)

Module CloneSafety.

Import Cloner.

(** The pairs (dest, src) of a stretch of the clone log are descriptors of
    files related by [P]. *)
Definition pairs_of (P : File → File → Prop) (log : list (N * N)) : Prop :=
  ∀ dest src, (dest, src) ∈ log →
    ∃ dfile sfile, fileno dfile = dest ∧ fileno sfile = src ∧ P dfile sfile.

(** Both files passed the fstat and length checks, their digests are
    equal and cmp_files found their bytes equal. *)
Definition verified_pair (w : World) (comm3 : Comm3) (vols : gmap N Volume)
    (dfile sfile : File) : Prop :=
  cmp_files w sfile dfile = true
  ∧ sha1_digest w dfile = sha1_digest w sfile
  ∧ checked w comm3 vols dfile
  ∧ checked w comm3 vols sfile.

(** Every file of by_hash sits in the bucket of its own digest. *)
Definition buckets_by_digest (w : World) (by_hash : gmap N (list File))
    : Prop :=
  ∀ digest bucket f, by_hash !! digest = Some bucket → f ∈ bucket →
                     sha1_digest w f = digest.

End CloneSafety.

(** ** The global names of the module *)

Module Globals.

Import Cloner.

(** Every name bound at the top level of bedup/tracking.py: by an import
    (lines 20-46), by an assignment (lines 48-61, 101 and 614-617) or by a
    [def]. *)
Definition tracking_globals : list string :=
  [ "collections"; "errno"; "fcntl"; "gc"; "hashlib"; "os"; "re";
    "resource"; "stat"; "subprocess"; "sys";
    "closing"; "ExitStack"; "and_";
    "lookup_ino_path_one"; "get_fsid"; "get_root_id";
    "get_root_generation"; "clone_data"; "defragment";
    "BTRFS_FIRST_FREE_OBJECTID";
    "system_now"; "ImmutableFDs"; "cmp_files"; "fopenat"; "fopenat_rw";
    "Filesystem"; "Volume"; "Inode"; "comm_mappings"; "get_or_create";
    "DedupEvent"; "DedupEventInode"; "VolumePathHistory";
    "func"; "literal_column";
    "BUFSIZE"; "WINDOW_SIZE"; "FS_ENCODING"; "DEFAULT_SIZE_CUTOFF";
    "BLKID_RE"; "ofile_soft"; "ofile_hard"; "ofile_reserved"; "fs" ]
  ++ (Python.def_name <$> Python.tracking_defs).

(** Evaluating a name that is neither local nor a builtin: NameError
    unless the module binds it; [k] is what follows when it does. *)
Definition with_global {A} (name : string) (k : M A) : M A :=
  if bool_decide (name ∈ tracking_globals) then k else raise NameError.

End Globals.

(** ** dedup_tracked2 *)

Module Tracked2.

Import Cloner Globals.

(** The Inode rows of the volumes [vol_ids] on filesystem [fs]
    (Inode.vol_id.in_(vol_ids), Inode.fs_id == fs.id). *)
Definition volset_rows (c : Catalog) (fs : N) (vol_ids : list N)
    : list Inode :=
  filter (fun i =>
            inode_vol i ∈ vol_ids
            ∧ vol_fs <$> (volumes c !! inode_vol i) = Some fs)
         (snd <$> map_to_list (inodes c)).

Definition rows_of_size (c : Catalog) (fs : N) (vol_ids : list N) (sz : N)
    : list Inode :=
  filter (fun i => inode_size i = sz) (volset_rows c fs vol_ids).

Definition size_desc (a b : N) : Prop := b ≤ a.

#[export] Instance size_desc_dec : RelDecision size_desc :=
  fun a b => decide (b ≤ a).

(** tracking.py 641-653: the sizes shared by more than one row, at least
    one of them flagged has_updates, in the order of the grouping key
    -size. *)
Definition size_groups (c : Catalog) (fs : N) (vol_ids : list N) : list N :=
  merge_sort size_desc
    (filter (fun sz =>
               (1 < length (rows_of_size c fs vol_ids sz))%nat
               ∧ existsb has_updates (rows_of_size c fs vol_ids sz) = true)
            (remove_dups (inode_size <$> volset_rows c fs vol_ids))).

Definition cleared (i : Inode) : Inode :=
  {| inode_vol := inode_vol i; ino := ino i; inode_size := inode_size i;
     has_updates := false; mini_hash := mini_hash i;
     fiemap_hash := fiemap_hash i |}.

(** tracking.py 673-677: UPDATE Inode SET has_updates = 0
    WHERE vol_id IN vol_ids. *)
Definition clear_updates (vol_ids : list N) (c : Catalog) : Catalog :=
  set_inodes
    ((fun i => if bool_decide (inode_vol i ∈ vol_ids) then cleared i else i)
       <$> inodes c) c.

Section DedupTracked2.

(** do_hashing(sess, tt, query), and lines 678-679 as they would run with
    a global [skipped]. *)
Variable do_hashing : list Inode → M unit.
Variable mark_skipped : M unit.

(** tracking.py 619-680.  The first 50000 groups are sliced off. *)
Definition dedup_tracked2 (volset : list Volume) : M unit :=
  let vol_ids := vol_id <$> volset in
  match volset with
  | [] => raise IndexError
  | vol0 :: _ =>
      let fs := vol_fs vol0 in
      if negb (forallb (fun vol => vol_fs vol =? fs) volset)
      then raise AssertionError
      else
        groups ← gets (fun st => size_groups (pending (sess st)) fs vol_ids);
        _ ← for_each (fun sz =>
               query ← gets (fun st =>
                         rows_of_size (pending (sess st)) fs vol_ids sz);
               do_hashing query)
             (drop (N.to_nat 50000) groups);
        _ ← on_sess (with_pending (clear_updates vol_ids));
        _ ← with_global "skipped" mark_skipped;
        on_sess commit
  end.

End DedupTracked2.

End Tracked2.

(** ** do_dedup *)

Module DoDedup.

Import Cloner Globals.

Section DoDedup.

Variable w : World.

(** Lines 778-785 and [skipped.append(inode)] as they would run with
    globals count3, comm3 and skipped: do_dedup neither defines these
    names nor receives them. *)
Variable too_many : M unit.
Variable skipped_append : Inode → M unit.

Definition skip_global (inode : Inode) : M unit :=
  with_global "skipped" (skipped_append inode).

(** tracking.py 787-826, one turn of the loop. *)
Definition open_chunk_inode (loc : Locals) (inode : Inode) : M Locals :=
  vol ← inode_volume inode;
  match lookup_ino_path_one w (vol_fd vol) (ino inode) with
  | inl e =>
      if e =? ENOENT then _ ← on_sess (sess_delete (inode_key inode)); mret loc
      else raise (IOError e)
  | inr path =>
      _ ← log_open (vol_fd vol) path;
      match fopenat_rw w (vol_fd vol) path with
      | inl e =>
          if e =? ETXTBSY then _ ← skip_global inode; mret loc
          else if e =? EACCES then _ ← skip_global inode; mret loc
          else if e =? ENOENT then _ ← skip_global inode; mret loc
          else raise (IOError e)
      | inr afile =>
          let fd := fileno afile in
          mret {| files := files loc ++ [afile];
                  fds := fds loc ++ [fd];
                  fd_names := <[fd := path]> (fd_names loc);
                  fd_inodes := <[fd := inode]> (fd_inodes loc) |}
      end
  end.

(** tracking.py 834-863, one turn of the loop.  The local [inode] stays
    bound after the loop and is read on line 895: it is handed on with
    by_hash. *)
Definition hash_chunk_file (loc : Locals) (in_write_use : list N)
    (acc : gmap N (list File) * option Inode) (afile : File)
    : M (gmap N (list File) * option Inode) :=
  let by_hash := acc.1 in
  let fd := fileno afile in
  inode ← getitem (fd_inodes loc) fd;
  if bool_decide (fd ∈ in_write_use) then
    _ ← getitem (fd_names loc) fd;
    _ ← skip_global inode; mret (by_hash, Some inode)
  else
    let digest := sha1_digest w afile in
    let st := fstat w fd in
    if negb (fst st =? ino inode)
    then _ ← skip_global inode; mret (by_hash, Some inode)
    else
      vol ← inode_volume inode;
      if negb (snd st =? vol_st_dev vol)
      then _ ← skip_global inode; mret (by_hash, Some inode)
      else
        let size := tell w afile in
        if negb (size =? inode_size inode) then
          if size <? size_cutoff vol
          then _ ← on_sess (sess_delete (inode_key inode));
               mret (by_hash, Some inode)
          else _ ← skip_global inode; mret (by_hash, Some inode)
        else mret (bucket_append digest afile by_hash, Some inode).

(** tracking.py 875-892: the destinations of one bucket. *)
Fixpoint clone_chunk_dests (loc : Locals) (sfile : File)
    (dfiles : list File) (dfiles_successful : list File)
    : M (list File) :=
  match dfiles with
  | [] => mret dfiles_successful
  | dfile :: rest =>
      let sfd := fileno sfile in
      let dfd := fileno dfile in
      _ ← getitem (fd_names loc) sfd;
      _ ← getitem (fd_names loc) dfd;
      if negb (cmp_files w sfile dfile) then raise AssertionError
      else
        _ ← log_clone dfd sfd;
        if clone_data w dfd sfd
        then clone_chunk_dests loc sfile rest (dfiles_successful ++ [dfile])
        else
          _ ← getitem (fd_inodes loc) sfd;
          _ ← getitem (fd_inodes loc) dfd;
          clone_chunk_dests loc sfile rest dfiles_successful
  end.

(** tracking.py 893-902.  item_size is the size of whatever the local
    [inode] holds: a local read before it is bound raises
    UnboundLocalError, a NameError. *)
Definition record_chunk_event (fs : N) (loc : Locals) (cur : option Inode)
    (sfile : File) (dfiles_successful : list File) : M (option Inode) :=
  match cur with
  | None => raise NameError
  | Some inode =>
      evt ← add_event {| evt_fs := fs; item_size := inode_size inode;
                         created := system_now w |};
      cur' ← for_fold (fun _ afile =>
                inode ← getitem (fd_inodes loc) (fileno afile);
                _ ← add_event_inode
                      {| evti_event := evt; evti_ino := ino inode;
                         evti_vol := inode_vol inode |};
                mret (Some inode))
             (sfile :: dfiles_successful) cur;
      _ ← on_sess commit;
      mret cur'
  end.

(** tracking.py 865-902, one bucket of by_hash. *)
Definition clone_chunk_fileset (fs : N) (loc : Locals) (cur : option Inode)
    (fileset : list File) : M (option Inode) :=
  match fileset with
  | sfile :: ((_ :: _) as dfiles) =>
      dfiles_successful ← clone_chunk_dests loc sfile dfiles [];
      match dfiles_successful with
      | [] => mret cur
      | _ :: _ => record_chunk_event fs loc cur sfile dfiles_successful
      end
  | _ => mret cur
  end.

(** tracking.py 755-902.  The globals fs, ofile_reserved, ofile_soft and
    ofile_hard are passed in, and ofile_soft is handed back. *)
Definition do_dedup (fs ofile_reserved ofile_soft ofile_hard : N)
    (chunk : list Inode) : M N :=
  let ofile_req := 2 * N.of_nat (length chunk) + ofile_reserved in
  ofile_soft ←
    (if ofile_soft <? ofile_req then
       if ofile_req <=? ofile_hard then
         _ ← setrlimit ofile_req ofile_hard; mret ofile_req
       else
         _ ← with_global "count3" (with_global "comm3" too_many);
         mret ofile_soft
     else mret ofile_soft);
  loc ← for_fold open_chunk_inode chunk no_locals;
  let in_write_use := fds_in_write_use w (fds loc) in
  hashed ← for_fold (hash_chunk_file loc in_write_use) (files loc) (∅, None);
  _ ← for_fold (clone_chunk_fileset fs loc)
        (snd <$> map_to_list hashed.1) hashed.2;
  mret ofile_soft.

End DoDedup.

End DoDedup.

(** What do_dedup leaves alone at every step: the list skipped and the
    volume rows. *)
Module DedupFrame.

Import Cloner.

Definition untouched (st st' : State) : Prop :=
  skipped st' = skipped st
  ∧ volumes (pending (sess st')) = volumes (pending (sess st)).

End DedupFrame.

(** ** show_vols: the mount points of the subvolumes of a device *)

Module Mounts.

Definition EPERM : N := 1.

(** What the helper of show_vols asks of the system: os.path.realpath,
    os.open (an OSError errno or a descriptor), the st_ino of os.fstat,
    get_root_id (an IOError errno or a root id) and the constant
    BTRFS_FIRST_FREE_OBJECTID of [.btrfs]. *)
Record MountWorld := mkMountWorld {
  realpath : string → string;
  os_open : string → N + N;
  fstat_ino : N → N;
  get_root_id : N → N + N;
  BTRFS_FIRST_FREE_OBJECTID : N }.

Inductive outcome (A : Type) : Type :=
  | Returns (a : A)
  | RaisesOSError (errno : N)
  | RaisesIOError (errno : N).
Arguments Returns {A} a.
Arguments RaisesOSError {A} errno.
Arguments RaisesIOError {A} errno.

(** tracking.py 122-124. *)
Definition is_subvolume (mw : MountWorld) (btrfs_mountpoint_fd : N) : bool :=
  fstat_ino mw btrfs_mountpoint_fd =? BTRFS_FIRST_FREE_OBJECTID mw.

(** mpoints_by_root_id[root_id].append(...) on a defaultdict(list). *)
Definition mpoint_append (root_id : N) (entry : string * string)
    (m : gmap N (list (string * string))) : gmap N (list (string * string)) :=
  <[root_id := default [] (m !! root_id) ++ [entry]]> m.

(** tracking.py 162-178: the loop over the (volpath, mpoint) pairs of a
    device; [break] returns what was collected so far. *)
Fixpoint collect_mpoints (mw : MountWorld) (l : list (string * string))
    (mpoints_by_root_id : gmap N (list (string * string)))
    : outcome (gmap N (list (string * string))) :=
  match l with
  | [] => Returns mpoints_by_root_id
  | (volpath, mpoint) :: rest =>
      match os_open mw mpoint with
      | inl e => RaisesOSError e
      | inr mpoint_fd =>
          if negb (is_subvolume mw mpoint_fd)
          then collect_mpoints mw rest mpoints_by_root_id
          else
            match get_root_id mw mpoint_fd with
            | inl e =>
                if e =? EPERM then Returns mpoints_by_root_id
                else RaisesIOError e
            | inr root_id =>
                collect_mpoints mw rest
                  (mpoint_append root_id (volpath, mpoint) mpoints_by_root_id)
            end
      end
  end.

(** tracking.py 153-179. *)
Definition get_subvol_mpoints_by_root_id (mw : MountWorld)
    (mpoints_by_dev : gmap string (list (string * string))) (dev : string)
    : outcome (gmap N (list (string * string))) :=
  let dev_canonical := realpath mw dev in
  match mpoints_by_dev !! dev_canonical with
  | None => Returns ∅
  | Some l => collect_mpoints mw l ∅
  end.

(** A mount point that the helper reports under [root_id]: it can be
    opened, it is the root of a subvolume, and get_root_id names it. *)
Definition subvol_root (mw : MountWorld) (mpoint : string) (root_id : N)
    : Prop :=
  ∃ fd, os_open mw mpoint = inr fd
        ∧ is_subvolume mw fd = true
        ∧ get_root_id mw fd = inr root_id.

(** A mount point at which get_root_id is refused. *)
Definition refused (mw : MountWorld) (mpoint : string) : Prop :=
  ∃ fd, os_open mw mpoint = inr fd
        ∧ is_subvolume mw fd = true
        ∧ get_root_id mw fd = inl EPERM.

End Mounts.

Module MountExamples.

Import Mounts.

(** Three mounts of one device: "/" and "/home" are subvolume roots 5 and
    257, "/srv" is a subvolume whose root id may not be read. *)
Definition world : MountWorld :=
  {| realpath := fun p => p;
     os_open := fun p =>
       if bool_decide (p = "/") then inr 3
       else if bool_decide (p = "/srv") then inr 4
       else if bool_decide (p = "/home") then inr 5
       else inl 2;
     fstat_ino := fun _ => 256;
     get_root_id := fun fd =>
       if fd =? 3 then inr 5 else if fd =? 5 then inr 257 else inl EPERM;
     BTRFS_FIRST_FREE_OBJECTID := 256 |}.

Definition mounts : gmap string (list (string * string)) :=
  {[ "/dev/sda1" := [("/", "/"); ("/srv", "/srv"); ("/home", "/home")] ]}.

(** The same device without the mount at "/srv". *)
Definition readable_mounts : gmap string (list (string * string)) :=
  {[ "/dev/sda1" := [("/", "/"); ("/home", "/home")] ]}.

End MountExamples.

(** * Properties of the scanner *)

Import Scanner.

Ltac cmp_cases :=
  repeat match goal with
  | |- context [?a <? ?b] => destruct (N.ltb_spec a b)
  | |- context [?a <=? ?b] => destruct (N.leb_spec a b)
  | |- context [?a =? ?b] => destruct (N.eqb_spec a b)
  | H : context [?a <? ?b] |- _ => destruct (N.ltb_spec a b)
  | H : context [?a <=? ?b] |- _ => destruct (N.leb_spec a b)
  | H : context [?a =? ?b] |- _ => destruct (N.eqb_spec a b)
  end; simpl in *; try done; try lia.

Lemma scan_frame_refl s : scan_frame s s.
Proof. by repeat split. Qed.

Lemma scan_frame_trans s1 s2 s3 :
  scan_frame s1 s2 → scan_frame s2 s3 → scan_frame s1 s3.
Proof.
  intros (?&?&?&?) (?&?&?&?). repeat split; congruence.
Qed.

Lemma record_inode_frame w vol i sz s : scan_frame s (record_inode w vol i sz s).
Proof.
  unfold record_inode, get_or_create_inode.
  destruct (inodes (pending s) !! (vol_id vol, i));
    destruct (lookup_ino_path_one w (vol_fd vol) i); by repeat split.
Qed.

Lemma scan_item_frame w vol mg s it : scan_frame s (scan_item w vol mg s it).
Proof.
  unfold scan_item.
  repeat case_match; auto using scan_frame_refl, record_inode_frame.
Qed.

Lemma scan_items_frame w vol mg items s :
  scan_frame s (foldl (scan_item w vol mg) s items).
Proof.
  revert s. induction items as [|it items IH]; intros s; simpl.
  - apply scan_frame_refl.
  - eapply scan_frame_trans; [apply scan_item_frame | apply IH].
Qed.

Lemma scan_loop_frame fuel w vol mg sk s r s' :
  scan_loop fuel w vol mg sk s = Some (r, s') → scan_frame s s'.
Proof.
  revert sk s. induction fuel as [|fuel IH]; intros sk s; simpl; [done|].
  destruct (ioctl_tree_search _ _ _) as [e|items].
  { intros [= <- <-]. apply scan_frame_refl. }
  destruct (last items) as [it|].
  2:{ intros [= <- <-]. apply scan_frame_refl. }
  destruct (_ <? _).
  - intros [= <- <-]. apply scan_items_frame.
  - intros H. eapply scan_frame_trans; [apply scan_items_frame | eapply IH, H].
Qed.

Lemma scan_batches_frame n w vol mg sk s sk' s' :
  scan_batches n w vol mg sk s = Some (sk', s') → scan_frame s s'.
Proof.
  revert sk s. induction n as [|n IH]; intros sk s; simpl.
  { intros [= <- <-]. apply scan_frame_refl. }
  destruct (ioctl_tree_search _ _ _) as [e|items]; [done|].
  destruct (last items) as [it|]; [|done].
  destruct (_ <? _); [done|].
  intros H. eapply scan_frame_trans; [apply scan_items_frame | eapply IH, H].
Qed.

(** Fuel for [n] turns brings the loop to where [scan_batches] stops. *)
Lemma scan_loop_batches n w vol mg sk s sk' s' fuel :
  scan_batches n w vol mg sk s = Some (sk', s') →
  scan_loop (n + fuel) w vol mg sk s = scan_loop fuel w vol mg sk' s'.
Proof.
  revert sk s. induction n as [|n IH]; intros sk s; simpl.
  { by intros [= <- <-]. }
  destruct (ioctl_tree_search _ _ _) as [e|items]; [done|].
  destruct (last items) as [it|]; [|done].
  destruct (_ <? _); [done|].
  apply IH.
Qed.

(** C6: min_generation is last_tracked_generation + 1 exactly when
    last_tracked_size_cutoff is set and at most the current size_cutoff, and
    0 otherwise; after the cutoff was lowered below the recorded one the
    scan starts from generation 0 and is not skipped. *)
Theorem min_generation_iff (vol : Volume) :
  (min_generation vol = last_tracked_generation vol + 1 ↔
     ∃ c, last_tracked_size_cutoff vol = Some c ∧ c ≤ size_cutoff vol)
  ∧ ((¬ ∃ c, last_tracked_size_cutoff vol = Some c ∧ c ≤ size_cutoff vol) →
     min_generation vol = 0)
  ∧ (∀ c, last_tracked_size_cutoff vol = Some c → size_cutoff vol < c →
     min_generation vol = 0
     ∧ ∀ w fuel vid sess,
         volumes (pending sess) !! vid = Some vol →
         track_updated_files fuel w vid sess =
           match scan_loop fuel w vol 0 (initial_key w 0) sess with
           | Some (Ok _, sess') =>
               Some (Ok tt,
                     commit (store_volume vid
                       (tracked (get_root_generation w (vol_fd vol)) vol) sess'))
           | r => r
           end).
Proof.
  unfold min_generation.
  destruct (last_tracked_size_cutoff vol) as [c|] eqn:Hc.
  - destruct (N.leb_spec c (size_cutoff vol)) as [Hle|Hgt].
    + split; [|split].
      * split; [eauto|done].
      * intros Hn. destruct Hn. eauto.
      * intros c' [= <-] Hlt. lia.
    + split; [|split].
      * split; [lia|]. intros (c' & [= <-] & Hle). lia.
      * done.
      * intros c' [= <-] _. split; [done|].
        intros w fuel vid sess Hvol. unfold track_updated_files.
        rewrite Hvol. unfold min_generation. rewrite Hc.
        replace (c <=? size_cutoff vol) with false
          by (symmetry; apply N.leb_gt; lia).
        replace (get_root_generation w (vol_fd vol) <? 0) with false
          by (symmetry; apply N.ltb_ge; lia).
        done.
  - split; [|split].
    + split; [lia|]. intros (c' & ? & _). done.
    + done.
    + intros c' ?. done.
Qed.

(** Lowering the cutoff from 16 MiB to 8 MiB: the scan restarts at 0. *)
Lemma min_generation_iff_witness :
  min_generation Examples.vol1 = 0
  ∧ min_transid (initial_key (Examples.scan_world (inr []))
                   (min_generation Examples.vol1)) = 0.
Proof.
  destruct (min_generation_iff Examples.vol1) as (_ & _ & H).
  destruct (H (16 * Examples.MiB)) as [H0 _]; [reflexivity | reflexivity |].
  rewrite H0. split; reflexivity.
Defined.

(** C7: an item is recorded (its row upserted with the new size and
    has_updates set) only if its type is INODE_ITEM_KEY, its size is at
    least the cutoff, its mode is that of a regular file and it is
    update-eligible in the sense of the specification; any other item
    leaves the session as it was. *)
Theorem scan_item_recorded_iff (w : World) (vol : Volume) (sess : Session)
    (it : search_item) :
  scan_item w vol (min_generation vol) sess it =
    (if spec_item_recorded w vol (min_generation vol) it
     then record_inode w vol (sh_objectid (header it))
            (btrfs_stack_inode_size (payload it)) sess
     else sess)
  ∧ (∀ path,
       lookup_ino_path_one w (vol_fd vol) (sh_objectid (header it)) = inr path →
       ∃ row,
         inodes (pending (record_inode w vol (sh_objectid (header it))
                            (btrfs_stack_inode_size (payload it)) sess))
           !! (vol_id vol, sh_objectid (header it)) = Some row
         ∧ inode_size row = btrfs_stack_inode_size (payload it)
         ∧ has_updates row = true).
Proof.
  split.
  - unfold scan_item, spec_item_recorded, spec_update_eligible,
      min_generation, truthy.
    destruct (S_ISREG (btrfs_stack_inode_mode (payload it)));
      destruct (last_tracked_size_cutoff vol) as [c|]; simpl;
      cmp_cases.
  - intros path Hpath. unfold record_inode, get_or_create_inode.
    rewrite Hpath.
    destruct (inodes (pending sess) !! _) as [row|] eqn:Hrow; simpl.
    + eexists. split; [apply lookup_insert_eq|done].
    + eexists. split; [apply lookup_insert_eq|done].
Qed.

(** C8: when the tree-search ioctl fails after [n] batches were read,
    track_updated_files raises that IOError, and nothing was committed: the
    committed catalog is the one the run started from, and the volume rows
    of the session (the cursor and the recorded cutoff among them) are
    untouched, so the next run computes the same min_generation. *)
Theorem tree_search_error_aborts_scan (w : World) (vid : N) (sess : Session)
    (vol : Volume) (n fuel : nat) (sk : btrfs_ioctl_search_key)
    (sess_n : Session) (e : N) :
  volumes (pending sess) !! vid = Some vol →
  min_generation vol ≤ get_root_generation w (vol_fd vol) →
  scan_batches n w vol (min_generation vol)
    (initial_key w (min_generation vol)) sess = Some (sk, sess_n) →
  ioctl_tree_search w (vol_fd vol) (set_nr_items 4096 sk) = inl e →
  (n < fuel)%nat →
  track_updated_files fuel w vid sess = Some (Raise (IOError e), sess_n)
  ∧ committed sess_n = committed sess
  ∧ volumes (pending sess_n) !! vid = Some vol.
Proof.
  intros Hvol Htop Hbatches Hfail Hfuel.
  destruct (scan_batches_frame _ _ _ _ _ _ _ _ Hbatches) as (Hc & Hv & _).
  split; [|split]; [|done|by rewrite Hv].
  unfold track_updated_files. rewrite Hvol.
  replace (_ <? _) with false by (symmetry; apply N.ltb_ge; lia).
  replace fuel with (n + S (fuel - S n))%nat by lia.
  rewrite (scan_loop_batches _ _ _ _ _ _ _ _ _ Hbatches).
  simpl. by rewrite Hfail.
Qed.

Lemma tree_search_error_aborts_scan_witness :
  ∃ sess_n,
    track_updated_files 5%nat (Examples.scan_world (inl 5)) 1 Examples.session1
      = Some (Raise (IOError 5), sess_n)
    ∧ committed sess_n = committed Examples.session1
    ∧ is_Some (inodes (pending sess_n) !! (1, 257)).
Proof.
  eexists.
  destruct (tree_search_error_aborts_scan (Examples.scan_world (inl 5)) 1
              Examples.session1 Examples.vol1 1%nat 5%nat
              _ _ 5
              eq_refl ltac:(vm_compute; discriminate) eq_refl eq_refl
              ltac:(lia))
    as (Hrun & Hc & _).
  split; [exact Hrun|]. split; [exact Hc|].
  vm_compute. eauto.
Defined.

(** C9: a second run on the session a clean run left behind, against the
    same filesystem, changes nothing: it ends normally in the very same
    session.  The volume it finds has min_generation above the root
    generation; when the first run did scan, that volume carries the root
    generation as last_tracked_generation and the cutoff as
    last_tracked_size_cutoff, so min_generation is the root generation
    plus one; the same value is computed after a first run that was itself
    skipped, as long as the cursor was not ahead of the root generation. *)
Theorem second_scan_is_noop (fuel : nat) (w : World) (vid : N)
    (sess sess1 : Session) :
  track_updated_files fuel w vid sess = Some (Ok tt, sess1) →
  (∀ fuel', track_updated_files fuel' w vid sess1 = Some (Ok tt, sess1))
  ∧ ∃ vol vol1,
      volumes (pending sess) !! vid = Some vol
      ∧ volumes (pending sess1) !! vid = Some vol1
      ∧ get_root_generation w (vol_fd vol1) < min_generation vol1
      ∧ (min_generation vol ≤ get_root_generation w (vol_fd vol) →
         last_tracked_generation vol1 = get_root_generation w (vol_fd vol)
         ∧ last_tracked_size_cutoff vol1 = Some (size_cutoff vol)
         ∧ size_cutoff vol1 = size_cutoff vol
         ∧ min_generation vol1 = get_root_generation w (vol_fd vol) + 1)
      ∧ (last_tracked_generation vol ≤ get_root_generation w (vol_fd vol) →
         min_generation vol1 = get_root_generation w (vol_fd vol) + 1).
Proof.
  unfold track_updated_files.
  destruct (volumes (pending sess) !! vid) as [vol|] eqn:Hvol; [|done].
  destruct (N.ltb_spec (get_root_generation w (vol_fd vol)) (min_generation vol))
    as [Hskip|Hscan].
  - intros [= <-]. split.
    + intros fuel'. simpl. rewrite Hvol.
      replace (_ <? _) with true by (symmetry; apply N.ltb_lt; lia).
      done.
    + exists vol, vol. simpl.
      split; [done|]. split; [done|]. split; [lia|]. split; [intros; lia|].
      revert Hskip. unfold min_generation.
      destruct (last_tracked_size_cutoff vol) as [c|]; [|lia].
      destruct (c <=? size_cutoff vol); lia.
  - destruct (scan_loop _ _ _ _ _ _) as [[[[]|] sess']|] eqn:Hloop; [|done..].
    intros [= <-].
    assert (Hmin : min_generation (tracked (get_root_generation w (vol_fd vol)) vol)
                   = get_root_generation w (vol_fd vol) + 1).
    { unfold min_generation, tracked; simpl.
      by replace (_ <=? _) with true by (symmetry; apply N.leb_le; lia). }
    split.
    + intros fuel'. simpl. rewrite lookup_insert_eq. simpl. rewrite Hmin.
      replace (_ <? _) with true by (symmetry; apply N.ltb_lt; lia).
      done.
    + exists vol, (tracked (get_root_generation w (vol_fd vol)) vol).
      simpl. rewrite lookup_insert_eq, Hmin. simpl.
      repeat split; try done. lia.
Qed.

Lemma second_scan_is_noop_witness :
  ∃ sess1,
    track_updated_files 5%nat (Examples.scan_world (inr [])) 1 Examples.session1
      = Some (Ok tt, sess1)
    ∧ track_updated_files 5%nat (Examples.scan_world (inr [])) 1 sess1
      = Some (Ok tt, sess1)
    ∧ last_tracked_generation <$> volumes (committed sess1) !! 1 = Some 10.
Proof.
  eexists. split; [vm_compute; reflexivity|].
  split; [|vm_compute; reflexivity].
  refine (proj1 (second_scan_is_noop 5%nat (Examples.scan_world (inr [])) 1
                   Examples.session1 _ _) 5%nat).
  vm_compute. reflexivity.
Defined.

(** C10, amended: a run of track_updated_files, however it ends, never
    lowers last_tracked_generation of any volume of the session, provided
    the scanned volume's cursor is not ahead of the root generation (which
    holds when the cursor was taken from a root generation that has not
    decreased since); after a clean run the committed catalog holds the
    same rows. *)
Theorem scan_cursor_monotonic (fuel : nat) (w : World) (vid : N)
    (sess sess' : Session) (r : result unit) :
  (∀ vol, volumes (pending sess) !! vid = Some vol →
          last_tracked_generation vol ≤ get_root_generation w (vol_fd vol)) →
  track_updated_files fuel w vid sess = Some (r, sess') →
  (∀ v vol, volumes (pending sess) !! v = Some vol →
     ∃ vol', volumes (pending sess') !! v = Some vol'
             ∧ last_tracked_generation vol ≤ last_tracked_generation vol')
  ∧ (r = Ok tt → committed sess' = pending sess').
Proof.
  intros Hroot. unfold track_updated_files.
  destruct (volumes (pending sess) !! vid) as [vol0|] eqn:Hvol.
  2:{ intros [= <- <-]. split; [|done]. intros v vol Hv. exists vol. split; [done|lia]. }
  destruct (_ <? _).
  { intros [= <- <-]. split; [|done]. intros v vol Hv. exists vol. split; [done|lia]. }
  destruct (scan_loop _ _ _ _ _ _) as [[[[]|ex] s1]|] eqn:Hloop; [| |done].
  - intros [= <- <-]. split; [|done].
    apply scan_loop_frame in Hloop as (_ & Hv1 & _).
    intros v vol Hv. simpl. rewrite Hv1.
    destruct (decide (vid = v)) as [<-|Hne].
    + rewrite lookup_insert_eq. eexists. split; [done|]. simpl.
      rewrite Hvol in Hv. injection Hv as <-. by apply Hroot.
    + rewrite lookup_insert_ne by done. exists vol. split; [done|lia].
  - intros [= <- <-]. split; [|done].
    apply scan_loop_frame in Hloop as (_ & Hv1 & _).
    intros v vol Hv. rewrite Hv1. exists vol. split; [done|lia].
Qed.

Lemma scan_cursor_monotonic_witness :
  ∃ vol',
    volumes
      (pending
         (default Examples.session1
            (snd <$> track_updated_files 5%nat (Examples.scan_world (inr [])) 1
                       Examples.session1))) !! 1 = Some vol'
    ∧ last_tracked_generation Examples.vol1 ≤ last_tracked_generation vol'.
Proof.
  destruct (track_updated_files 5%nat (Examples.scan_world (inr [])) 1
              Examples.session1) as [[r s]|] eqn:Hrun; [|vm_compute in Hrun; discriminate].
  simpl.
  refine (proj1 (scan_cursor_monotonic 5%nat (Examples.scan_world (inr [])) 1
                   Examples.session1 s r _ Hrun) 1 Examples.vol1 eq_refl).
  intros vol [= <-]. vm_compute. discriminate.
Defined.

(** forget_vol puts the cursor back to 0: the monotonicity claimed for
    every operation on the catalog fails for it. *)
Lemma forget_vol_lowers_cursor :
  ¬ (∀ vid sess sess' vol vol',
       forget_vol vid sess = (Ok tt, sess') →
       volumes (pending sess) !! vid = Some vol →
       volumes (pending sess') !! vid = Some vol' →
       last_tracked_generation vol ≤ last_tracked_generation vol').
Proof.
  intros H.
  specialize (H 1 Examples.session1 _ Examples.vol1
                (forgotten Examples.vol1) eq_refl eq_refl eq_refl).
  vm_compute in H. by apply H.
Qed.

(** * Properties of the cloner *)

Import Cloner.

Ltac munfold :=
  unfold mbind, M_bind, mret, M_ret, raise, gets, modify, on_sess, skip,
    set_skipped, setrlimit, log_open, log_clone, getitem, inode_volume in *.

Lemma for_each_skip_updated (l : list Inode) (st : State) :
  for_each (fun inode => if has_updates inode then skip inode else mret tt) l st
  = (Ok tt, with_skipped (fun sk => sk ++ filter (fun i => has_updates i = true) l) st).
Proof.
  revert st. induction l as [|i l IH]; intros st; simpl.
  - destruct st. unfold with_skipped; simpl. by rewrite app_nil_r.
  - munfold. destruct (has_updates i) eqn:Hi; simpl.
    + rewrite IH. rewrite filter_cons_True by done.
      destruct st; unfold with_skipped; simpl. by rewrite <- app_assoc.
    + rewrite IH. by rewrite filter_cons_False by (rewrite Hi; done).
Qed.

(** C2, amended: with required_fds = 2 × inode_count + reserved and
    reserved = 7 + the number of volumes of the set: when required_fds
    exceeds the soft limit but not the hard limit, the soft limit is raised
    to required_fds and the group is processed; when it exceeds both, the
    limits are left as they are, no file is opened, the candidates whose
    has_updates is set are appended to skipped, and nothing else changes. *)
Theorem ofile_budget (w : World) (fs : N) (volset : list Volume)
    (comm3 : Comm3) (ofile_soft ofile_hard : N) (st : State) :
  let ofile_reserved := 7 + N.of_nat (length volset) in
  let required_fds := 2 * inode_count comm3 + ofile_reserved in
  (ofile_soft < required_fds → required_fds ≤ ofile_hard →
     dedup_comm3 w fs ofile_reserved comm3 ofile_soft ofile_hard st =
       match clone_group w fs comm3
               (with_rlimit (required_fds, ofile_hard) st) with
       | (Ok _, st') => (Ok required_fds, st')
       | (Raise e, st') => (Raise e, st')
       end)
  ∧ (ofile_soft < required_fds → ofile_hard < required_fds →
     dedup_comm3 w fs ofile_reserved comm3 ofile_soft ofile_hard st =
       (Ok ofile_soft,
        with_skipped
          (fun sk => sk ++ filter (fun i => has_updates i = true)
                              (comm_inodes comm3)) st)).
Proof.
  intros ofile_reserved required_fds. unfold dedup_comm3.
  fold ofile_reserved. fold required_fds. split.
  - intros Hsoft Hhard.
    replace (ofile_soft <? required_fds) with true
      by (symmetry; apply N.ltb_lt; lia).
    replace (required_fds <=? ofile_hard) with true
      by (symmetry; apply N.leb_le; lia).
    munfold. simpl. by destruct (clone_group _ _ _ _) as [[[]|e] st'].
  - intros Hsoft Hhard.
    replace (ofile_soft <? required_fds) with true
      by (symmetry; apply N.ltb_lt; lia).
    replace (required_fds <=? ofile_hard) with false
      by (symmetry; apply N.leb_gt; lia).
    unfold mbind, M_bind. by rewrite for_each_skip_updated.
Qed.

Lemma ofile_budget_witness :
  dedup_comm3 CloneExamples.quiet_world 1 8
    (CloneExamples.comm3_of [CloneExamples.inode 3; CloneExamples.inode 4;
                             CloneExamples.inode 5])
    10 12 (CloneExamples.state (10, 12) [])
  = (Ok 10,
     with_skipped
       (fun _ => [CloneExamples.inode 3; CloneExamples.inode 4;
                  CloneExamples.inode 5])
       (CloneExamples.state (10, 12) [])).
Proof.
  exact (proj2 (ofile_budget CloneExamples.quiet_world 1 [CloneExamples.vol1]
                  (CloneExamples.comm3_of
                     [CloneExamples.inode 3; CloneExamples.inode 4;
                      CloneExamples.inode 5])
                  10 12 (CloneExamples.state (10, 12) []))
           ltac:(vm_compute; reflexivity) ltac:(vm_compute; reflexivity)).
Defined.

(** Scenario 3 of the specification, 5000 files under limits (1024, 2048):
    the soft limit is not raised to the hard limit when the group is
    deferred. *)
Lemma deferred_group_keeps_soft_limit :
  ¬ (fst (rlimit_ofile
            (snd (dedup_comm3 CloneExamples.quiet_world 1 8
                    CloneExamples.comm3_many 1024 2048
                    (CloneExamples.state (1024, 2048) []))))
     = 2048).
Proof. vm_compute. discriminate. Qed.

(** C5, amended: opening a candidate read-write.  ETXTBSY, EACCES and
    ENOENT from fopenat_rw each append the inode to skipped and leave the
    catalog alone; ENOENT from the path lookup deletes the inode row, and no
    open is attempted; any other errno, from the lookup or from the open,
    is raised as the IOError it came with, the catalog and skipped
    unchanged.  The last two parts say what the two outcomes mean for the
    tables: after ENOENT from the lookup the session holds no row under the
    inode's key and every other row as before; after a deferring errno of
    the open the inode is the last element of skipped and the Inode table
    is as it was. *)
Theorem open_candidate_errors (w : World) (loc : Locals) (inode : Inode)
    (st : State) (vol : Volume) :
  volumes (pending (sess st)) !! inode_vol inode = Some vol →
  (∀ e, lookup_ino_path_one w (vol_fd vol) (ino inode) = inl e →
     open_candidate w loc inode st =
       if e =? ENOENT
       then (Ok loc, with_sess (sess_delete (inode_key inode)) st)
       else (Raise (IOError e), st))
  ∧ (∀ path e,
       lookup_ino_path_one w (vol_fd vol) (ino inode) = inr path →
       fopenat_rw w (vol_fd vol) path = inl e →
       open_candidate w loc inode st =
         if bool_decide (e = ETXTBSY ∨ e = EACCES ∨ e = ENOENT)
         then (Ok loc,
               with_skipped (fun sk => sk ++ [inode])
                 (with_opened (fun l => l ++ [(vol_fd vol, path)]) st))
         else (Raise (IOError e),
               with_opened (fun l => l ++ [(vol_fd vol, path)]) st))
  ∧ (lookup_ino_path_one w (vol_fd vol) (ino inode) = inl ENOENT →
     let st' := snd (open_candidate w loc inode st) in
     inodes (pending (sess st')) !! inode_key inode = None
     ∧ (∀ k, k ≠ inode_key inode →
          inodes (pending (sess st')) !! k = inodes (pending (sess st)) !! k)
     ∧ skipped st' = skipped st
     ∧ opened st' = opened st)
  ∧ (∀ path e,
       lookup_ino_path_one w (vol_fd vol) (ino inode) = inr path →
       fopenat_rw w (vol_fd vol) path = inl e →
       e = ETXTBSY ∨ e = EACCES ∨ e = ENOENT →
       let st' := snd (open_candidate w loc inode st) in
       skipped st' = skipped st ++ [inode]
       ∧ inodes (pending (sess st')) = inodes (pending (sess st))).
Proof.
  intros Hvol.
  assert (Hlookup : ∀ e,
    lookup_ino_path_one w (vol_fd vol) (ino inode) = inl e →
    open_candidate w loc inode st =
      if e =? ENOENT
      then (Ok loc, with_sess (sess_delete (inode_key inode)) st)
      else (Raise (IOError e), st)).
  { intros e He. unfold open_candidate. munfold. rewrite Hvol, He.
    by destruct (e =? ENOENT). }
  assert (Hopen : ∀ path e,
    lookup_ino_path_one w (vol_fd vol) (ino inode) = inr path →
    fopenat_rw w (vol_fd vol) path = inl e →
    open_candidate w loc inode st =
      if bool_decide (e = ETXTBSY ∨ e = EACCES ∨ e = ENOENT)
      then (Ok loc,
            with_skipped (fun sk => sk ++ [inode])
              (with_opened (fun l => l ++ [(vol_fd vol, path)]) st))
      else (Raise (IOError e),
            with_opened (fun l => l ++ [(vol_fd vol, path)]) st)).
  { intros path e Hpath He. unfold open_candidate. munfold.
    rewrite Hvol, Hpath. simpl. rewrite He.
    destruct (N.eqb_spec e ETXTBSY) as [->|H1]; [done|].
    destruct (N.eqb_spec e EACCES) as [->|H2]; [done|].
    destruct (N.eqb_spec e ENOENT) as [->|H3]; [done|].
    rewrite bool_decide_eq_false_2; [done|]. intros [?|[?|?]]; done. }
  split; [exact Hlookup|]. split; [exact Hopen|]. split.
  - intros He. cbv zeta. rewrite (Hlookup ENOENT He). simpl.
    split; [apply lookup_delete_eq|]. split; [|done].
    intros k Hk. by apply lookup_delete_ne.
  - intros path e Hpath He Herr. cbv zeta. rewrite (Hopen path e Hpath He).
    by rewrite bool_decide_eq_true_2.
Qed.

(** The file of inode 4 was unlinked between the path lookup and the
    open: the row stays in the catalog and the inode is deferred. *)
Lemma open_candidate_errors_witness :
  open_candidate
    CloneExamples.unlinked_world
    no_locals (CloneExamples.inode 4)
    (CloneExamples.state (1024, 2048) [CloneExamples.inode 4])
  = (Ok no_locals,
     with_skipped (fun _ => [CloneExamples.inode 4])
       (with_opened (fun _ => [(7, "f4")])
          (CloneExamples.state (1024, 2048) [CloneExamples.inode 4]))).
Proof.
  exact (proj1 (proj2 (open_candidate_errors CloneExamples.unlinked_world
                         no_locals (CloneExamples.inode 4)
                         (CloneExamples.state (1024, 2048)
                            [CloneExamples.inode 4])
                         CloneExamples.vol1 eq_refl))
           "f4" ENOENT eq_refl eq_refl).
Defined.

(** ENOENT from the open does not delete the row. *)
Lemma open_enoent_keeps_row :
  ¬ (inodes
       (pending
          (sess
             (snd
                (open_candidate
                   CloneExamples.unlinked_world
                   no_locals (CloneExamples.inode 4)
                   (CloneExamples.state (1024, 2048) [CloneExamples.inode 4])))))
       !! (1, 4) = None).
Proof. vm_compute. discriminate. Qed.

Lemma for_fold_app {A B} (body : B → A → M B) (l1 l2 : list A) (b : B)
    (st : State) :
  for_fold body (l1 ++ l2) b st =
    match for_fold body l1 b st with
    | (Ok b', st') => for_fold body l2 b' st'
    | (Raise e, st') => (Raise e, st')
    end.
Proof.
  revert b st. induction l1 as [|x l1 IH]; intros b st; simpl; [done|].
  unfold mbind, M_bind. destruct (body b x st) as [[b'|e] st']; [apply IH|done].
Qed.

(** An exception of one turn of the opening loop leaves the group. *)
Lemma open_error_leaves_group (w : World) (fs : N) (comm3 : Comm3)
    (pre post : list Inode) (inode : Inode) (loc : Locals)
    (st0 st st' : State) (ex : exn) :
  comm_inodes comm3 = pre ++ inode :: post →
  for_fold (open_candidate w) pre no_locals st0 = (Ok loc, st) →
  open_candidate w loc inode st = (Raise ex, st') →
  clone_group w fs comm3 st0 = (Raise ex, st').
Proof.
  intros Hc Hpre Hopen. unfold clone_group. rewrite Hc.
  unfold mbind at 1. unfold M_bind.
  rewrite for_fold_app, Hpre. simpl.
  unfold mbind at 1. unfold M_bind. by rewrite Hopen.
Qed.

(** One turn of the hashing loop for a descriptor that is not in write
    use elsewhere, by the outcome of the checks. *)
Lemma hash_candidate_outcomes (w : World) (comm3 : Comm3) (loc : Locals)
    (in_write_use : list N) (by_hash : gmap N (list File)) (afile : File)
    (st : State) (inode : Inode) (vol : Volume) :
  fd_inodes loc !! fileno afile = Some inode →
  fileno afile ∉ in_write_use →
  volumes (pending (sess st)) !! inode_vol inode = Some vol →
  let st_ino := fst (fstat w (fileno afile)) in
  let st_dev := snd (fstat w (fileno afile)) in
  let deferred := (Ok by_hash, with_skipped (fun sk => sk ++ [inode]) st) in
  let deleted :=
    (Ok by_hash, with_sess (sess_delete (inode_key inode)) st) in
  let run := hash_candidate w comm3 loc in_write_use by_hash afile st in
  (st_ino ≠ ino inode ∨ st_dev ≠ vol_st_dev vol → run = deferred)
  ∧ (st_ino = ino inode → st_dev = vol_st_dev vol →
     tell w afile ≠ comm_size comm3 →
     (tell w afile < size_cutoff vol → run = deleted)
     ∧ (size_cutoff vol ≤ tell w afile → run = deferred))
  ∧ (st_ino = ino inode → st_dev = vol_st_dev vol →
     tell w afile = comm_size comm3 →
     run = (Ok (bucket_append (sha1_digest w afile) afile by_hash), st)).
Proof.
  intros Hinode Huse Hvol st_ino st_dev deferred deleted run.
  subst run deferred deleted st_ino st_dev.
  unfold hash_candidate. munfold. cbv zeta. rewrite Hinode.
  rewrite bool_decide_eq_false_2 by done. simpl.
  destruct (N.eqb_spec (fstat w (fileno afile)).1 (ino inode)) as [Hi|Hi]; simpl.
  2:{ split; [done|]. split; intros; done. }
  rewrite Hvol.
  destruct (N.eqb_spec (fstat w (fileno afile)).2 (vol_st_dev vol)) as [Hd|Hd]; simpl.
  2:{ split; [done|]. split; intros; done. }
  split; [by intros [?|?]|].
  destruct (N.eqb_spec (tell w afile) (comm_size comm3)) as [Hs|Hs]; simpl.
  { split; [done|]. done. }
  split; [|done]. intros _ _ _.
  destruct (N.ltb_spec (tell w afile) (size_cutoff vol)); split; intros; try done; lia.
Qed.

(** C4: a descriptor that is hashed (it is not in write use elsewhere).
    If fstat's st_ino differs from the inode row, or its st_dev from the
    volume's, the inode is appended to skipped and by_hash is returned as
    it was.  If fstat agrees but the length read differs from the group's
    size, the row is deleted when the length is below the volume's cutoff
    and the inode is appended to skipped otherwise; by_hash is again
    returned as it was, so the file is in no clone set.  Deleted means
    that the session afterwards holds no row under the inode's key, every
    other row being as before and skipped unchanged; deferred means that
    the inode is the last element of skipped and the Inode table is as it
    was. *)
Theorem hash_candidate_race_checks (w : World) (comm3 : Comm3) (loc : Locals)
    (in_write_use : list N) (by_hash : gmap N (list File)) (afile : File)
    (st : State) (inode : Inode) (vol : Volume) :
  fd_inodes loc !! fileno afile = Some inode →
  fileno afile ∉ in_write_use →
  volumes (pending (sess st)) !! inode_vol inode = Some vol →
  let st_ino := fst (fstat w (fileno afile)) in
  let st_dev := snd (fstat w (fileno afile)) in
  let run := hash_candidate w comm3 loc in_write_use by_hash afile st in
  let st' := snd run in
  let deferred :=
    run = (Ok by_hash, with_skipped (fun sk => sk ++ [inode]) st)
    ∧ skipped st' = skipped st ++ [inode]
    ∧ inodes (pending (sess st')) = inodes (pending (sess st)) in
  let deleted :=
    run = (Ok by_hash, with_sess (sess_delete (inode_key inode)) st)
    ∧ inodes (pending (sess st')) !! inode_key inode = None
    ∧ (∀ k, k ≠ inode_key inode →
         inodes (pending (sess st')) !! k = inodes (pending (sess st)) !! k)
    ∧ skipped st' = skipped st in
  (st_ino ≠ ino inode ∨ st_dev ≠ vol_st_dev vol → deferred)
  ∧ (st_ino = ino inode → st_dev = vol_st_dev vol →
     tell w afile ≠ comm_size comm3 →
     (tell w afile < size_cutoff vol → deleted)
     ∧ (size_cutoff vol ≤ tell w afile → deferred))
  ∧ (st_ino = ino inode → st_dev = vol_st_dev vol →
     tell w afile = comm_size comm3 →
     run = (Ok (bucket_append (sha1_digest w afile) afile by_hash), st)).
Proof.
  intros Hinode Huse Hvol.
  destruct (hash_candidate_outcomes w comm3 loc in_write_use by_hash afile
              st inode vol Hinode Huse Hvol) as (Hrace & Hlen & Hok).
  cbv zeta in *.
  assert (Hdeferred :
    hash_candidate w comm3 loc in_write_use by_hash afile st
      = (Ok by_hash, with_skipped (fun sk => sk ++ [inode]) st) →
    hash_candidate w comm3 loc in_write_use by_hash afile st
      = (Ok by_hash, with_skipped (fun sk => sk ++ [inode]) st)
    ∧ skipped (snd (hash_candidate w comm3 loc in_write_use by_hash afile st))
      = skipped st ++ [inode]
    ∧ inodes (pending (sess (snd (hash_candidate w comm3 loc in_write_use
                                    by_hash afile st))))
      = inodes (pending (sess st))).
  { intros Hrun. split; [done|]. by rewrite Hrun. }
  split; [|split; [|exact Hok]].
  - intros Hne. apply Hdeferred. by apply Hrace.
  - intros Hi Hd Hs. destruct (Hlen Hi Hd Hs) as [Hdel Hdef]. split.
    + intros Hlt. rewrite (Hdel Hlt). split; [done|]. simpl.
      split; [apply lookup_delete_eq|]. split; [|done].
      intros k Hk. by apply lookup_delete_ne.
    + intros Hge. apply Hdeferred. by apply Hdef.
Qed.

Lemma hash_candidate_race_checks_witness :
  hash_candidate CloneExamples.raced_world
    (CloneExamples.comm3_of CloneExamples.rows345) CloneExamples.locals345
    [] ∅ (mkFile 4) (CloneExamples.state (1024, 2048) CloneExamples.rows345)
  = (Ok ∅,
     with_skipped (fun _ => [CloneExamples.inode 4])
       (CloneExamples.state (1024, 2048) CloneExamples.rows345))
  ∧ hash_candidate CloneExamples.truncated_world
      (CloneExamples.comm3_of CloneExamples.rows345) CloneExamples.locals345
      [] ∅ (mkFile 5) (CloneExamples.state (1024, 2048) CloneExamples.rows345)
    = (Ok ∅,
       with_sess (sess_delete (1, 5))
         (CloneExamples.state (1024, 2048) CloneExamples.rows345))
  ∧ inodes (pending (sess (CloneExamples.state (1024, 2048)
                             CloneExamples.rows345))) !! (1, 5)
    = Some (CloneExamples.inode 5)
  ∧ inodes
      (pending
         (sess
            (snd (hash_candidate CloneExamples.truncated_world
                    (CloneExamples.comm3_of CloneExamples.rows345)
                    CloneExamples.locals345 [] ∅ (mkFile 5)
                    (CloneExamples.state (1024, 2048)
                       CloneExamples.rows345))))) !! (1, 5)
    = None.
Proof.
  split; [|split; [|split; [vm_compute; reflexivity|]]].
  - destruct (hash_candidate_race_checks CloneExamples.raced_world
                (CloneExamples.comm3_of CloneExamples.rows345)
                CloneExamples.locals345 [] ∅ (mkFile 4)
                (CloneExamples.state (1024, 2048) CloneExamples.rows345)
                (CloneExamples.inode 4) CloneExamples.vol1)
      as (Hrace & _ & _);
      [vm_compute; reflexivity | apply not_elem_of_nil
      | vm_compute; reflexivity |].
    destruct Hrace as (Hrun & _); [left; vm_compute; discriminate|].
    rewrite Hrun. reflexivity.
  - destruct (hash_candidate_race_checks CloneExamples.truncated_world
                (CloneExamples.comm3_of CloneExamples.rows345)
                CloneExamples.locals345 [] ∅ (mkFile 5)
                (CloneExamples.state (1024, 2048) CloneExamples.rows345)
                (CloneExamples.inode 5) CloneExamples.vol1)
      as (_ & Hlen & _);
      [vm_compute; reflexivity | apply not_elem_of_nil
      | vm_compute; reflexivity |].
    destruct Hlen as [Hdel _];
      [vm_compute; reflexivity | vm_compute; reflexivity
      | vm_compute; discriminate |].
    destruct Hdel as (Hrun & _); [vm_compute; reflexivity|].
    rewrite Hrun. reflexivity.
  - destruct (hash_candidate_race_checks CloneExamples.truncated_world
                (CloneExamples.comm3_of CloneExamples.rows345)
                CloneExamples.locals345 [] ∅ (mkFile 5)
                (CloneExamples.state (1024, 2048) CloneExamples.rows345)
                (CloneExamples.inode 5) CloneExamples.vol1)
      as (_ & Hlen & _);
      [vm_compute; reflexivity | apply not_elem_of_nil
      | vm_compute; reflexivity |].
    destruct Hlen as [Hdel _];
      [vm_compute; reflexivity | vm_compute; reflexivity
      | vm_compute; discriminate |].
    destruct Hdel as (_ & Hgone & _); [vm_compute; reflexivity|].
    exact Hgone.
Defined.

Lemma bind_run {A B} (m : M A) (f : A → M B) (st : State) :
  (m ≫= f) st =
    match m st with
    | (Ok a, st') => f a st'
    | (Raise e, st') => (Raise e, st')
    end.
Proof. done. Qed.

Lemma with_cloned_nil st : with_cloned (fun l => l ++ []) st = st.
Proof. destruct st. unfold with_cloned; simpl. by rewrite app_nil_r. Qed.

Lemma with_cloned_cons x xs st :
  with_cloned (fun l => l ++ xs) (with_cloned (fun l => l ++ [x]) st)
  = with_cloned (fun l => l ++ x :: xs) st.
Proof.
  destruct st. unfold with_cloned; simpl. by rewrite <- app_assoc.
Qed.

(** The loop over the destinations when every pair compares equal: every
    destination is handed to clone_data, and those for which it answers
    true are collected in order. *)
Lemma clone_dests_equal w loc sfile dfiles acc st :
  is_Some (fd_names loc !! fileno sfile) →
  (∀ d, d ∈ dfiles →
        is_Some (fd_names loc !! fileno d) ∧ cmp_files w sfile d = true) →
  clone_dests w loc sfile dfiles acc st =
    (Ok (acc ++ filter (fun d => clone_data w (fileno d) (fileno sfile) = true)
                  dfiles),
     with_cloned
       (fun l => l ++ ((fun d => (fileno d, fileno sfile)) <$> dfiles)) st).
Proof.
  intros [sname Hs]. revert acc st.
  induction dfiles as [|d dfiles IH]; intros acc st Hd; simpl.
  { by rewrite app_nil_r, with_cloned_nil. }
  destruct (Hd d) as [[dname Hdn] Hcmp]; [left|].
  munfold. rewrite Hs, Hdn, Hcmp. simpl.
  assert (Hrest : ∀ d', d' ∈ dfiles →
            is_Some (fd_names loc !! fileno d') ∧ cmp_files w sfile d' = true).
  { intros d' Hin. apply Hd. by right. }
  destruct (clone_data w (fileno d) (fileno sfile)) eqn:Hclone.
  - rewrite IH by done. rewrite filter_cons_True by done.
    by rewrite <- app_assoc, with_cloned_cons.
  - rewrite IH by done. rewrite filter_cons_False by (rewrite Hclone; done).
    by rewrite with_cloned_cons.
Qed.

(** The loop over the destinations never touches the session or skipped. *)
Lemma clone_dests_frame w loc sfile dfiles acc st r st' :
  clone_dests w loc sfile dfiles acc st = (r, st') →
  sess st' = sess st ∧ skipped st' = skipped st.
Proof.
  revert acc st. induction dfiles as [|d dfiles IH]; intros acc st; simpl.
  { by intros [= <- <-]. }
  munfold.
  destruct (fd_names loc !! fileno sfile); [|by intros [= <- <-]].
  destruct (fd_names loc !! fileno d); [|by intros [= <- <-]].
  destruct (cmp_files w sfile d); simpl; [|by intros [= <- <-]].
  destruct (clone_data w (fileno d) (fileno sfile)); intros H;
    apply IH in H as [-> ->]; done.
Qed.

(** A pair that differs makes the loop raise AssertionError. *)
Lemma clone_dests_differ w loc sfile dfiles acc st :
  is_Some (fd_names loc !! fileno sfile) →
  (∀ d, d ∈ dfiles → is_Some (fd_names loc !! fileno d)) →
  (∃ d, d ∈ dfiles ∧ cmp_files w sfile d = false) →
  fst (clone_dests w loc sfile dfiles acc st) = Raise AssertionError.
Proof.
  intros [sname Hs]. revert acc st.
  induction dfiles as [|d dfiles IH]; intros acc st Hd (d0 & Hin & Hne).
  { by apply elem_of_nil in Hin. }
  simpl. destruct (Hd d) as [dname Hdn]; [left|].
  munfold. rewrite Hs, Hdn.
  destruct (cmp_files w sfile d) eqn:Hcmp; simpl; [|done].
  assert (Hrest : ∀ d', d' ∈ dfiles → is_Some (fd_names loc !! fileno d')).
  { intros d' Hin'. apply Hd. by right. }
  assert (Hex : ∃ d', d' ∈ dfiles ∧ cmp_files w sfile d' = false).
  { apply elem_of_cons in Hin as [->|Hin]; [congruence|eauto]. }
  destruct (clone_data w (fileno d) (fileno sfile)); by apply IH.
Qed.

Lemma add_event_rows evt loc fileset st :
  (∀ f, f ∈ fileset → is_Some (fd_inodes loc !! fileno f)) →
  for_each (fun afile =>
              inode ← getitem (fd_inodes loc) (fileno afile);
              add_event_inode {| evti_event := evt; evti_ino := ino inode;
                                 evti_vol := inode_vol inode |})
           fileset st
  = (Ok tt,
     with_sess (with_pending (append_rows (event_rows evt loc fileset))) st).
Proof.
  revert st. induction fileset as [|f fileset IH]; intros st Hf; simpl.
  { destruct st as [[c [v i e ei]] sk rl op cl].
    unfold with_sess, with_pending, append_rows; simpl. by rewrite app_nil_r. }
  destruct (Hf f) as [inode Hi]; [left|].
  munfold. unfold add_event_inode. munfold. rewrite Hi. simpl.
  rewrite IH by (intros f' Hin; apply Hf; by right).
  destruct st as [[c [v i e ei]] sk rl op cl].
  unfold with_sess, with_pending, append_rows, append_event_inode; simpl.
  by rewrite <- app_assoc.
Qed.

Lemma event_rows_length evt loc fileset :
  (∀ f, f ∈ fileset → is_Some (fd_inodes loc !! fileno f)) →
  length (event_rows evt loc fileset) = length fileset.
Proof.
  induction fileset as [|f fileset IH]; intros Hf; [done|].
  unfold event_rows in *. simpl.
  destruct (Hf f) as [inode Hi]; [left|]. rewrite Hi. simpl.
  f_equal. apply IH. intros f' Hin. apply Hf. by right.
Qed.

Lemma record_event_rows w fs comm3 loc sfile successful st :
  (∀ f, f ∈ sfile :: successful → is_Some (fd_inodes loc !! fileno f)) →
  record_event w fs comm3 loc sfile successful st =
    (Ok tt,
     with_sess
       (fun s =>
          commit
            (with_pending
               (append_rows
                  (event_rows (length (dedup_events (pending (sess st)))) loc
                     (sfile :: successful)))
               (with_pending
                  (append_event
                     {| evt_fs := fs; item_size := comm_size comm3;
                        created := system_now w |}) s))) st).
Proof.
  intros Hkeys. unfold record_event, add_event.
  rewrite !bind_run. unfold gets at 1. cbv beta iota.
  rewrite bind_run. unfold on_sess at 1. unfold modify at 1. cbv beta iota.
  unfold mret at 1. unfold M_ret at 1. rewrite bind_run.
  rewrite add_event_rows by done. by destruct st.
Qed.

(** C3, amended: one bucket [sfile :: dfiles] of by_hash, the source being
    its first member.  When every destination compares equal to the
    source, the bucket ends normally, and a DedupEvent is appended exactly
    when clone_data returned true for some destination: then one event with
    the group's size and the time of system_now is appended, followed by
    one DedupEventInode for the source and one for each destination whose
    clone_data returned true (at least two rows), and the session is
    committed; when no clone_data returned true the session is unchanged.
    When some destination differs from the source, AssertionError is
    raised and the session is unchanged, whatever clone_data returned
    before. *)
Theorem clone_fileset_audit (w : World) (fs : N) (comm3 : Comm3)
    (loc : Locals) (sfile : File) (dfiles : list File) (st : State) :
  (∀ f, f ∈ sfile :: dfiles →
        is_Some (fd_names loc !! fileno f)
        ∧ is_Some (fd_inodes loc !! fileno f)) →
  let successful :=
    filter (fun d => clone_data w (fileno d) (fileno sfile) = true) dfiles in
  let before := pending (sess st) in
  let rows := event_rows (length (dedup_events before)) loc
                (sfile :: successful) in
  ((∀ d, d ∈ dfiles → cmp_files w sfile d = true) →
   ∃ st',
     clone_fileset w fs comm3 loc (sfile :: dfiles) st = (Ok tt, st')
     ∧ cloned st' = cloned st ++ ((fun d => (fileno d, fileno sfile)) <$> dfiles)
     ∧ (successful = [] → sess st' = sess st)
     ∧ (successful ≠ [] →
        dedup_events (pending (sess st')) =
          dedup_events before
          ++ [{| evt_fs := fs; item_size := comm_size comm3;
                 created := system_now w |}]
        ∧ dedup_event_inodes (pending (sess st')) =
            dedup_event_inodes before ++ rows
        ∧ (2 ≤ length rows)%nat
        ∧ length rows = S (length successful)
        ∧ committed (sess st') = pending (sess st')))
  ∧ ((∃ d, d ∈ dfiles ∧ cmp_files w sfile d = false) →
     ∃ st',
       clone_fileset w fs comm3 loc (sfile :: dfiles) st
         = (Raise AssertionError, st')
       ∧ sess st' = sess st).
Proof.
  intros Hkeys. cbv zeta.
  set (P := fun d => clone_data w (fileno d) (fileno sfile) = true).
  set (log := fun l : list (N * N) =>
                l ++ ((fun d => (fileno d, fileno sfile)) <$> dfiles)).
  assert (Hs : is_Some (fd_names loc !! fileno sfile)) by (apply Hkeys; left).
  assert (Hd : ∀ d, d ∈ dfiles → is_Some (fd_names loc !! fileno d)).
  { intros d Hin. apply Hkeys. by right. }
  assert (Hsub : ∀ f, f ∈ sfile :: filter P dfiles →
                      is_Some (fd_inodes loc !! fileno f)).
  { intros f Hin. apply Hkeys.
    apply elem_of_cons in Hin as [->|Hin]; [left|right].
    by apply list_elem_of_filter in Hin as [_ ?]. }
  split.
  - intros Hcmp.
    assert (Hrun : clone_fileset w fs comm3 loc (sfile :: dfiles) st =
              match filter P dfiles with
              | [] => (Ok tt, with_cloned log st)
              | _ :: _ =>
                  record_event w fs comm3 loc sfile (filter P dfiles)
                    (with_cloned log st)
              end).
    { unfold clone_fileset. destruct dfiles as [|d0 dfiles0].
      - subst log. simpl. by rewrite with_cloned_nil.
      - munfold. rewrite clone_dests_equal by (auto; intros d Hin; split; auto).
        simpl. fold P. by destruct (filter P (d0 :: dfiles0)). }
    rewrite Hrun. clear Hrun.
    pose proof (event_rows_length (length (dedup_events (pending (sess st))))
                  loc _ Hsub) as Hlen.
    destruct (filter P dfiles) as [|s1 succ] eqn:Hsucc.
    { eexists. split; [done|]. split; [by destruct st|]. split; done. }
    rewrite record_event_rows by done.
    eexists. split; [done|]. split; [by destruct st|].
    split; [done|]. intros _.
    split; [done|]. split; [done|]. split; [|done].
    rewrite Hlen. simpl. lia.
  - intros Hex. unfold clone_fileset.
    destruct dfiles as [|d0 dfiles0].
    { destruct Hex as (d & Hin & _). by apply elem_of_nil in Hin. }
    munfold.
    pose proof (clone_dests_differ w loc sfile (d0 :: dfiles0) [] st Hs Hd Hex)
      as Hr.
    destruct (clone_dests w loc sfile (d0 :: dfiles0) [] st) as [r st']
      eqn:Hrun.
    simpl in Hr. subst r.
    apply clone_dests_frame in Hrun as [Hsess _]. eauto.
Qed.

Lemma clone_fileset_audit_witness :
  ∃ st',
    clone_fileset CloneExamples.quiet_world 1
      (CloneExamples.comm3_of CloneExamples.rows345) CloneExamples.locals345
      [mkFile 3; mkFile 4; mkFile 5]
      (CloneExamples.state (1024, 2048) CloneExamples.rows345)
    = (Ok tt, st')
    ∧ dedup_events (pending (sess st')) =
        [{| evt_fs := 1; item_size := 16 * CloneExamples.MiB;
            created := 1700000000 |}]
    ∧ length (dedup_event_inodes (pending (sess st'))) = 3%nat.
Proof.
  destruct (proj1 (clone_fileset_audit CloneExamples.quiet_world 1
                     (CloneExamples.comm3_of CloneExamples.rows345)
                     CloneExamples.locals345 (mkFile 3) [mkFile 4; mkFile 5]
                     (CloneExamples.state (1024, 2048) CloneExamples.rows345)
                     ltac:(intros f Hin;
                           repeat (apply elem_of_cons in Hin as [->|Hin];
                                   [vm_compute; eauto|]);
                           by apply elem_of_nil in Hin))
             ltac:(reflexivity))
    as (st' & Hrun & _ & _ & Hevt).
  destruct Hevt as (He & Hr & _ & _); [vm_compute; discriminate|].
  exists st'. split; [exact Hrun|]. split; [exact He|].
  rewrite Hr. vm_compute. reflexivity.
Defined.

(** A destination was cloned (clone_data returned true for descriptor 4)
    and the next one differs from the source: no DedupEvent is appended. *)
Lemma clone_without_event :
  let st0 := CloneExamples.state (1024, 2048) CloneExamples.rows345 in
  let st' :=
    snd (clone_fileset CloneExamples.collision_world 1
           (CloneExamples.comm3_of CloneExamples.rows345)
           CloneExamples.locals345 [mkFile 3; mkFile 4; mkFile 5] st0) in
  ¬ (dedup_events (pending (sess st')) ≠ dedup_events (pending (sess st0))
     ↔ ∃ dest src, (dest, src) ∈ cloned st'
                   ∧ clone_data CloneExamples.collision_world dest src = true).
Proof.
  intros st0 st' [_ H]. apply H; [|vm_compute; reflexivity].
  exists 4, 3. split; [|reflexivity].
  replace (cloned st') with [(4, 3)] by (vm_compute; reflexivity).
  apply list_elem_of_here.
Qed.

(** * dedup_tracked *)

Lemma windowed_query_binding :
  Python.tracking_namespace !! "windowed_query"
  = Some (Python.mkDef "windowed_query" 335
            ["window_start"; "query"; "attr"; "per"]).
Proof. vm_compute. reflexivity. Qed.

Lemma first_by_size_desc_is_Some (c : Catalog) (fs : N) (vol_ids : list N) :
  commonality1 c fs vol_ids ≠ [] → is_Some (first_by_size_desc c).
Proof.
  intros Hne. unfold first_by_size_desc.
  destruct (snd <$> map_to_list (inodes c)) as [|i l] eqn:Hl.
  - exfalso. apply Hne. unfold commonality1, candidate_rows. by rewrite Hl.
  - simpl. destruct (foldr _ None l); [destruct (_ <? _)|]; eauto.
Qed.

(** C1: whenever the candidate query is not empty, dedup_tracked raises
    TypeError at the call of windowed_query: the name is bound to the
    definition of line 335, which has no parameter clear_updates, while the
    definition of line 318 it replaced would have accepted the call.  The
    rest of the pipeline is not entered (the outcome is the same for every
    dedup_tracked1) and the session is the one dedup_tracked started with,
    so no has_updates flag was cleared and nothing was committed. *)
Theorem dedup_tracked_raises_TypeError (dedup_tracked1 : N → N → N → M unit)
    (vol0 : Volume) (rest : list Volume) (st : State) :
  forallb (fun vol => vol_fs vol =? vol_fs vol0) (vol0 :: rest) = true →
  commonality1 (pending (sess st)) (vol_fs vol0) (vol_id <$> (vol0 :: rest)) ≠ [] →
  dedup_tracked dedup_tracked1 (vol0 :: rest) st
    = (Raise TypeError, with_skipped (fun _ => []) st)
  ∧ (∃ f, Python.tracking_namespace !! "windowed_query" = Some f
          ∧ Python.def_line f = 335%nat
          ∧ ("clear_updates" ∉ Python.def_params f)
          ∧ Python.bind_arguments (Python.def_params f) 2
              ["attr"; "per"; "clear_updates"] = Raise TypeError)
  ∧ (∃ g, g ∈ Python.tracking_defs
          ∧ Python.def_name g = "windowed_query"
          ∧ Python.def_line g = 318%nat
          ∧ Python.bind_arguments (Python.def_params g) 2
              ["attr"; "per"; "clear_updates"] = Ok tt).
Proof.
  intros Hfs Hle. split; [|split].
  - unfold dedup_tracked. rewrite bind_run. unfold set_skipped, modify.
    cbv beta iota. rewrite Hfs. cbv [negb]. rewrite !bind_run.
    unfold gets at 1. cbv beta iota.
    change (sess (with_skipped (fun _ => []) st)) with (sess st).
    destruct (commonality1 _ _ _) as [|sz szs] eqn:Hcomm; [done|].
    cbn [length]. rewrite bind_run. unfold gets at 1. cbv beta iota.
    change (sess (with_skipped (fun _ => []) st)) with (sess st).
    destruct (first_by_size_desc_is_Some (pending (sess st)) (vol_fs vol0)
                (vol_id <$> (vol0 :: rest))) as [row Hrow]; [by rewrite Hcomm|].
    rewrite bind_run. cbv beta iota.
    change (sess (with_skipped (fun _ => []) st)) with (sess st).
    rewrite Hrow, windowed_query_binding. reflexivity.
  - eexists. split; [apply windowed_query_binding|].
    split; [done|]. split; [|vm_compute; reflexivity].
    simpl. intros Hin. repeat (apply elem_of_cons in Hin as [?|Hin]; [done|]).
    by apply elem_of_nil in Hin.
  - exists (Python.mkDef "windowed_query" 318
              ["window_start"; "query"; "attr"; "per"; "clear_updates"]).
    split; [|split; [done|split; [done|vm_compute; reflexivity]]].
    unfold Python.tracking_defs. do 7 right. left.
Qed.

Lemma dedup_tracked_raises_TypeError_witness :
  dedup_tracked (fun _ _ _ => mret tt) [CloneExamples.vol1]
    (CloneExamples.state (1024, 2048) CloneExamples.rows345)
  = (Raise TypeError, CloneExamples.state (1024, 2048) CloneExamples.rows345).
Proof.
  exact (proj1 (dedup_tracked_raises_TypeError (fun _ _ _ => mret tt)
                  CloneExamples.vol1 []
                  (CloneExamples.state (1024, 2048) CloneExamples.rows345)
                  ltac:(reflexivity) ltac:(vm_compute; discriminate))).
Defined.

(** ** Only files that passed the checks reach clone_data *)

Lemma clone_frame_refl st : clone_frame st st.
Proof. by split. Qed.

Lemma clone_frame_trans st1 st2 st3 :
  clone_frame st1 st2 → clone_frame st2 st3 → clone_frame st1 st3.
Proof. intros [? ?] [? ?]. split; congruence. Qed.

Lemma for_fold_invariant {A B} (body : B → A → M B) (I : B → Prop)
    (J : State → Prop) (l : list A) (b : B) (st : State) r st' :
  (∀ b x st r st', x ∈ l → I b → J st → body b x st = (r, st') →
     J st' ∧ ∀ b', r = Ok b' → I b') →
  I b → J st →
  for_fold body l b st = (r, st') →
  J st' ∧ ∀ b', r = Ok b' → I b'.
Proof.
  revert b st. induction l as [|x l IH]; intros b st Hbody Hb Hst; simpl.
  { intros [= <- <-]. split; [done|]. by intros b' [= <-]. }
  rewrite bind_run.
  destruct (body b x st) as [[b1|e] st1] eqn:Hx.
  - destruct (Hbody _ _ _ _ _ ltac:(left) Hb Hst Hx) as [Hf1 Hb1].
    apply IH; [|by apply Hb1|done].
    intros ? ? ? ? ? Hin. apply Hbody. by right.
  - intros [= <- <-].
    destruct (Hbody _ _ _ _ _ ltac:(left) Hb Hst Hx) as [Hf1 _].
    split; [done|]. intros b' [=].
Qed.

(** After the opening loop, fd_inodes maps descriptors to candidates of
    the group only. *)
Lemma open_candidate_inodes w loc inode st r st' (X : list Inode) :
  inode ∈ X →
  (∀ fd i, fd_inodes loc !! fd = Some i → i ∈ X) →
  open_candidate w loc inode st = (r, st') →
  clone_frame st st'
  ∧ ∀ loc', r = Ok loc' → ∀ fd i, fd_inodes loc' !! fd = Some i → i ∈ X.
Proof.
  intros Hin Hloc. unfold open_candidate. munfold.
  destruct (volumes (pending (sess st)) !! inode_vol inode) as [vol|];
    [|intros [= <- <-]; split; [apply clone_frame_refl|by intros ? [=]]].
  destruct (lookup_ino_path_one w (vol_fd vol) (ino inode)) as [e|path].
  { destruct (e =? ENOENT); intros [= <- <-];
      (split; [by split|]); [by intros ? [= <-]|by intros ? [=]]. }
  simpl.
  destruct (fopenat_rw w (vol_fd vol) path) as [e|afile].
  { destruct (e =? ETXTBSY); [|destruct (e =? EACCES); [|destruct (e =? ENOENT)]];
      intros [= <- <-]; (split; [by split|]);
      [by intros ? [= <-]..|by intros ? [=]]. }
  intros [= <- <-]. split; [by split|]. intros loc' [= <-] fd i. simpl.
  rewrite lookup_insert. case_decide; [by intros [= <-]|apply Hloc].
Qed.

Lemma bucket_append_checked w comm3 vols by_hash digest f :
  buckets_checked w comm3 vols by_hash → checked w comm3 vols f →
  buckets_checked w comm3 vols (bucket_append digest f by_hash).
Proof.
  intros Hb Hf digest' bucket f'. unfold bucket_append.
  rewrite lookup_insert. case_decide as Hd.
  - intros [= <-] Hin. apply elem_of_app in Hin as [Hin|Hin].
    + destruct (by_hash !! digest) as [b0|] eqn:Hb0; simpl in Hin.
      * by eapply Hb.
      * by apply elem_of_nil in Hin.
    + apply list_elem_of_singleton in Hin as ->. done.
  - apply Hb.
Qed.

Lemma hash_candidate_checked w comm3 loc in_write_use by_hash afile st r st'
    vols :
  (∀ fd i, fd_inodes loc !! fd = Some i → i ∈ comm_inodes comm3) →
  volumes (pending (sess st)) = vols →
  buckets_checked w comm3 vols by_hash →
  hash_candidate w comm3 loc in_write_use by_hash afile st = (r, st') →
  (clone_frame st st')
  ∧ ∀ by_hash', r = Ok by_hash' → buckets_checked w comm3 vols by_hash'.
Proof.
  intros Hloc Hvols Hb. unfold hash_candidate. munfold. cbv zeta.
  destruct (fd_inodes loc !! fileno afile) as [inode|] eqn:Hinode;
    [|intros [= <- <-]; split; [apply clone_frame_refl|by intros ? [=]]].
  simpl. case_bool_decide.
  { destruct (fd_names loc !! fileno afile); intros [= <- <-];
      (split; [by split|]); [by intros ? [= <-]|by intros ? [=]]. }
  destruct (N.eqb_spec (fstat w (fileno afile)).1 (ino inode)) as [Hi|Hi]; simpl.
  2:{ intros [= <- <-]. split; [by split|]. by intros ? [= <-]. }
  destruct (volumes (pending (sess st)) !! inode_vol inode) as [vol|] eqn:Hvol;
    [|intros [= <- <-]; split; [apply clone_frame_refl|by intros ? [=]]].
  destruct (N.eqb_spec (fstat w (fileno afile)).2 (vol_st_dev vol)) as [Hd|Hd];
    simpl.
  2:{ intros [= <- <-]. split; [by split|]. by intros ? [= <-]. }
  destruct (N.eqb_spec (tell w afile) (comm_size comm3)) as [Hs|Hs]; simpl.
  2:{ destruct (_ <? _); intros [= <- <-]; (split; [by split|]);
        by intros ? [= <-]. }
  intros [= <- <-]. split; [by split|]. intros ? [= <-].
  apply bucket_append_checked; [done|]. split; [done|].
  exists inode, vol. subst vols. eauto.
Qed.

Lemma clone_dests_log w loc sfile dfiles acc st r st' :
  clone_dests w loc sfile dfiles acc st = (r, st') →
  ∃ log, cloned st' = cloned st ++ log ∧ from_fileset (sfile :: dfiles) log.
Proof.
  revert acc st. induction dfiles as [|d dfiles IH]; intros acc st; simpl.
  { intros [= <- <-]. exists []. split; [by rewrite app_nil_r|].
    intros ? ? Hin. by apply elem_of_nil in Hin. }
  munfold.
  assert (Hnone : ∃ log, cloned st = cloned st ++ log
                         ∧ from_fileset (sfile :: d :: dfiles) log).
  { exists []. split; [by rewrite app_nil_r|].
    intros ? ? Hin. by apply elem_of_nil in Hin. }
  destruct (fd_names loc !! fileno sfile); [|by intros [= <- <-]].
  destruct (fd_names loc !! fileno d); [|by intros [= <- <-]].
  destruct (cmp_files w sfile d); simpl; [|by intros [= <- <-]].
  intros Hrest.
  assert (∃ acc', clone_dests w loc sfile dfiles acc'
                    (with_cloned (fun l => l ++ [(fileno d, fileno sfile)]) st)
                  = (r, st')) as [acc' Hrun].
  { destruct (clone_data w (fileno d) (fileno sfile)); eauto. }
  apply IH in Hrun as (log & Hlog & Hfrom). simpl in Hlog.
  exists ((fileno d, fileno sfile) :: log).
  split; [by rewrite Hlog, <- app_assoc|].
  intros dest src Hin. apply elem_of_cons in Hin as [[= -> ->]|Hin].
  - exists d, sfile. split; [right; left|]. split; [left|done].
  - destruct (Hfrom _ _ Hin) as (df & sf & Hdf & Hsf & ? & ?).
    exists df, sf. split; [|split; [|done]].
    + apply elem_of_cons in Hdf as [->|Hdf]; [left|right; by right].
    + apply elem_of_cons in Hsf as [->|Hsf]; [left|right; by right].
Qed.

Lemma for_each_cloned {A} (body : A → M unit) (l : list A) st r st' :
  (∀ x st r st', body x st = (r, st') → cloned st' = cloned st) →
  for_each body l st = (r, st') → cloned st' = cloned st.
Proof.
  intros Hbody. revert st. induction l as [|x l IH]; intros st; simpl.
  { by intros [= <- <-]. }
  rewrite bind_run. destruct (body x st) as [[[]|e] st1] eqn:Hx.
  - intros Hrest. apply IH in Hrest. apply Hbody in Hx. congruence.
  - intros [= <- <-]. by apply Hbody in Hx.
Qed.

Lemma record_event_cloned w fs comm3 loc sfile successful st r st' :
  record_event w fs comm3 loc sfile successful st = (r, st') →
  cloned st' = cloned st.
Proof.
  unfold record_event, add_event. rewrite !bind_run.
  unfold gets at 1. cbv beta iota. rewrite bind_run.
  unfold on_sess at 1. unfold modify at 1. cbv beta iota.
  unfold mret at 1. unfold M_ret at 1. rewrite bind_run.
  match goal with
  | |- context [for_each ?b ?l ?s] =>
      destruct (for_each b l s) as [[[]|e] st1] eqn:Hrows
  end.
  - intros [= <- <-]. apply for_each_cloned in Hrows; [done|].
    intros afile s0 r0 s0'. rewrite bind_run. unfold getitem.
    destruct (fd_inodes loc !! fileno afile); by intros [= <- <-].
  - intros [= <- <-]. apply for_each_cloned in Hrows; [done|].
    intros afile s0 r0 s0'. rewrite bind_run. unfold getitem.
    destruct (fd_inodes loc !! fileno afile); by intros [= <- <-].
Qed.

Lemma clone_fileset_log w fs comm3 loc fileset st r st' :
  clone_fileset w fs comm3 loc fileset st = (r, st') →
  ∃ log, cloned st' = cloned st ++ log ∧ from_fileset fileset log.
Proof.
  assert (Hnone : ∃ log, cloned st = cloned st ++ log ∧ from_fileset fileset log).
  { exists []. split; [by rewrite app_nil_r|].
    intros ? ? Hin. by apply elem_of_nil in Hin. }
  unfold clone_fileset. destruct fileset as [|sfile [|d dfiles]];
    [by intros [= <- <-]..|].
  rewrite bind_run.
  destruct (clone_dests _ _ _ _ _ _) as [[succ|e] st1] eqn:Hd.
  - apply clone_dests_log in Hd as (log & Hlog & Hfrom).
    destruct succ as [|s1 succ].
    + intros [= <- <-]. eauto.
    + intros Hev. apply record_event_cloned in Hev. exists log.
      split; [congruence|done].
  - intros [= <- <-]. by apply clone_dests_log in Hd.
Qed.

Lemma clone_buckets_log w fs comm3 loc buckets st r st' :
  for_each (clone_fileset w fs comm3 loc) buckets st = (r, st') →
  ∃ log, cloned st' = cloned st ++ log
         ∧ ∀ dest src, (dest, src) ∈ log →
             ∃ fileset, fileset ∈ buckets ∧ from_fileset fileset [(dest, src)].
Proof.
  revert st. induction buckets as [|b buckets IH]; intros st; simpl.
  { intros [= <- <-]. exists []. split; [by rewrite app_nil_r|].
    intros ? ? Hin. by apply elem_of_nil in Hin. }
  rewrite bind_run.
  destruct (clone_fileset w fs comm3 loc b st) as [[[]|e] st1] eqn:Hb;
    apply clone_fileset_log in Hb as (log1 & Hlog1 & Hfrom1).
  - intros Hrest. apply IH in Hrest as (log2 & Hlog2 & Hfrom2).
    exists (log1 ++ log2). split; [by rewrite Hlog2, Hlog1, app_assoc|].
    intros dest src Hin. apply elem_of_app in Hin as [Hin|Hin].
    + exists b. split; [left|]. intros ? ? Hone.
      apply list_elem_of_singleton in Hone as [= -> ->]. by apply Hfrom1.
    + destruct (Hfrom2 _ _ Hin) as (b' & ? & ?). exists b'. split; [by right|done].
  - intros [= <- <-]. exists log1. split; [done|].
    intros dest src Hin. exists b. split; [left|]. intros ? ? Hone.
    apply list_elem_of_singleton in Hone as [= -> ->]. by apply Hfrom1.
Qed.

(** Whatever the outcome of a group, every pair of descriptors handed to
    clone_data belongs to files that passed the fstat and length checks of
    the hashing loop. *)
Theorem only_checked_files_cloned (w : World) (fs : N) (comm3 : Comm3)
    (st st' : State) (r : result unit) :
  clone_group w fs comm3 st = (r, st') →
  ∃ log,
    cloned st' = cloned st ++ log
    ∧ ∀ dest src, (dest, src) ∈ log →
        ∃ dfile sfile,
          fileno dfile = dest ∧ fileno sfile = src
          ∧ checked w comm3 (volumes (pending (sess st))) dfile
          ∧ checked w comm3 (volumes (pending (sess st))) sfile.
Proof.
  assert (Hnone : ∀ st1, cloned st1 = cloned st →
            ∃ log, cloned st1 = cloned st ++ log
              ∧ ∀ dest src, (dest, src) ∈ log →
                  ∃ dfile sfile,
                    fileno dfile = dest ∧ fileno sfile = src
                    ∧ checked w comm3 (volumes (pending (sess st))) dfile
                    ∧ checked w comm3 (volumes (pending (sess st))) sfile).
  { intros st1 H1. exists []. split; [by rewrite app_nil_r|].
    intros ? ? Hin. by apply elem_of_nil in Hin. }
  unfold clone_group. rewrite bind_run.
  destruct (for_fold (open_candidate w) _ _ _) as [r1 st1] eqn:Hopen.
  apply (for_fold_invariant _
           (fun loc => ∀ fd i, fd_inodes loc !! fd = Some i →
                               i ∈ comm_inodes comm3)
           (clone_frame st))
    in Hopen as [[Hc1 Hv1] Hloc];
    [| |by intros ? ?; simpl; rewrite lookup_empty|apply clone_frame_refl].
  2:{ intros loc0 x st2 r2 st2' Hx Hinv Hst2 Hrun.
      eapply open_candidate_inodes in Hrun as [Hf ?]; [|done..].
      split; [by eapply clone_frame_trans|done]. }
  destruct r1 as [loc|e]; [|intros [= <- <-]; by apply Hnone].
  specialize (Hloc loc eq_refl).
  cbv zeta. rewrite bind_run.
  destruct (for_fold (hash_candidate _ _ _ _) _ _ _) as [r2 st2] eqn:Hhash.
  apply (for_fold_invariant _
           (buckets_checked w comm3 (volumes (pending (sess st))))
           (clone_frame st))
    in Hhash as [[Hc2 Hv2] Hbh];
    [| |by intros ? ? ?; rewrite lookup_empty|by split].
  2:{ intros bh f st3 r3 st3' _ Hinv [Hc3 Hv3] Hrun.
      eapply hash_candidate_checked in Hrun as [Hf ?]; [|done..].
      split; [by eapply clone_frame_trans|done]. }
  destruct r2 as [by_hash|e]; [|intros [= <- <-]; by apply Hnone].
  specialize (Hbh _ eq_refl).
  intros Hclone. apply clone_buckets_log in Hclone as (log & Hlog & Hfrom).
  exists log. split; [congruence|].
  intros dest src Hin. destruct (Hfrom _ _ Hin) as (fileset & Hfs & Hpair).
  destruct (Hpair dest src ltac:(left)) as (dfile & sfile & Hd & Hs & <- & <-).
  apply list_elem_of_fmap in Hfs as ([digest b] & -> & Hb).
  apply elem_of_map_to_list in Hb. simpl in *.
  exists dfile, sfile. repeat split; try done; by eapply Hbh.
Qed.


(** * Further properties of the scanner *)

Import Footprint.

Lemma scan_row_step_trans vol a b c :
  scan_row_step vol a b → scan_row_step vol b c → scan_row_step vol a c.
Proof.
  intros Hab [->|[->|Hc]]; [done|by right; left|by right; right].
Qed.

Lemma record_inode_rows w vol i sz s k :
  size_cutoff vol ≤ sz →
  (fst k ≠ vol_id vol →
     inodes (pending (record_inode w vol i sz s)) !! k = inodes (pending s) !! k)
  ∧ scan_row_step vol (inodes (pending s) !! k)
      (inodes (pending (record_inode w vol i sz s)) !! k).
Proof.
  intros Hsz. unfold record_inode, get_or_create_inode.
  assert (Hfresh : ∀ row, scan_row_step vol (inodes (pending s) !! k)
                            (Some (upsert sz row))).
  { intros row. right; right. eexists. split; [done|]. by split. }
  destruct (inodes (pending s) !! (vol_id vol, i)) as [row|] eqn:Hrow;
    destruct (lookup_ino_path_one w (vol_fd vol) i); simpl;
    destruct (decide ((vol_id vol, i) = k)) as [<-|Hne].
  all: rewrite ?lookup_delete_eq, ?lookup_insert_eq.
  all: rewrite ?lookup_delete_ne, ?lookup_insert_ne by done.
  all: split; [try done; by intros []|].
  all: try (by left); try (by right; left); try apply Hfresh.
Qed.

Lemma scan_item_rows w vol mg s it k :
  (fst k ≠ vol_id vol →
     inodes (pending (scan_item w vol mg s it)) !! k = inodes (pending s) !! k)
  ∧ scan_row_step vol (inodes (pending s) !! k)
      (inodes (pending (scan_item w vol mg s it)) !! k).
Proof.
  unfold scan_item.
  destruct (negb _); [split; [done|by left]|].
  destruct (N.ltb_spec (btrfs_stack_inode_size (payload it)) (size_cutoff vol));
    [split; [done|by left]|].
  destruct (if _ && _ then _ else _); [split; [done|by left]|].
  destruct (negb _); [split; [done|by left]|].
  by apply record_inode_rows.
Qed.

Lemma scan_items_rows w vol mg items s k :
  (fst k ≠ vol_id vol →
     inodes (pending (foldl (scan_item w vol mg) s items)) !! k
     = inodes (pending s) !! k)
  ∧ scan_row_step vol (inodes (pending s) !! k)
      (inodes (pending (foldl (scan_item w vol mg) s items)) !! k).
Proof.
  revert s. induction items as [|it items IH]; intros s; simpl.
  { split; [done|by left]. }
  destruct (IH (scan_item w vol mg s it)) as [IH1 IH2].
  destruct (scan_item_rows w vol mg s it k) as [H1 H2].
  split.
  - intros Hk. by rewrite IH1, H1.
  - by eapply scan_row_step_trans.
Qed.

Lemma scan_loop_rows fuel w vol mg sk s r s' k :
  scan_loop fuel w vol mg sk s = Some (r, s') →
  (fst k ≠ vol_id vol → inodes (pending s') !! k = inodes (pending s) !! k)
  ∧ scan_row_step vol (inodes (pending s) !! k) (inodes (pending s') !! k).
Proof.
  revert sk s. induction fuel as [|fuel IH]; intros sk s; simpl; [done|].
  destruct (ioctl_tree_search _ _ _) as [e|items].
  { intros [= <- <-]. split; [done|by left]. }
  destruct (last items) as [it|].
  2:{ intros [= <- <-]. split; [done|by left]. }
  destruct (scan_items_rows w vol mg items s k) as [H1 H2].
  destruct (_ <? _).
  - by intros [= <- <-].
  - intros Hrest. apply IH in Hrest as [IH1 IH2]. split.
    + intros Hk. by rewrite IH1, H1.
    + by eapply scan_row_step_trans.
Qed.

Lemma track_rows fuel w vid sess r sess' vol k :
  volumes (pending sess) !! vid = Some vol →
  track_updated_files fuel w vid sess = Some (r, sess') →
  (fst k ≠ vol_id vol →
     inodes (pending sess') !! k = inodes (pending sess) !! k)
  ∧ scan_row_step vol (inodes (pending sess) !! k)
      (inodes (pending sess') !! k).
Proof.
  intros Hvol. unfold track_updated_files. rewrite Hvol.
  destruct (_ <? _).
  { intros [= <- <-]. split; [done|by left]. }
  destruct (scan_loop _ _ _ _ _ _) as [[[[]|e] s1]|] eqn:Hloop; [| |done].
  - intros [= <- <-]. by apply (scan_loop_rows _ _ _ _ _ _ _ _ k) in Hloop.
  - intros [= <- <-]. by apply (scan_loop_rows _ _ _ _ _ _ _ _ k) in Hloop.
Qed.

(** X1: when the tree search, after [n] batches that were not empty,
    answers with an empty batch, the scan ends normally (fuel for n + 1
    turns is enough): the volume's cursor is the root generation read at
    the start, the recorded cutoff is the current one, and the session,
    with every row recorded on the way, is committed. *)
Theorem empty_batch_completes_scan (w : World) (vid : N) (sess : Session)
    (vol : Volume) (n fuel : nat) (sk : btrfs_ioctl_search_key)
    (sess_n : Session) :
  volumes (pending sess) !! vid = Some vol →
  min_generation vol ≤ get_root_generation w (vol_fd vol) →
  scan_batches n w vol (min_generation vol)
    (initial_key w (min_generation vol)) sess = Some (sk, sess_n) →
  ioctl_tree_search w (vol_fd vol) (set_nr_items 4096 sk) = inr [] →
  (n < fuel)%nat →
  ∃ sess',
    track_updated_files fuel w vid sess = Some (Ok tt, sess')
    ∧ committed sess' = pending sess'
    ∧ inodes (pending sess') = inodes (pending sess_n)
    ∧ ∃ vol',
        volumes (pending sess') !! vid = Some vol'
        ∧ last_tracked_generation vol' = get_root_generation w (vol_fd vol)
        ∧ last_tracked_size_cutoff vol' = Some (size_cutoff vol)
        ∧ size_cutoff vol' = size_cutoff vol.
Proof.
  intros Hvol Htop Hbatches Hempty Hfuel.
  eexists. split.
  - unfold track_updated_files. rewrite Hvol.
    replace (_ <? _) with false by (symmetry; apply N.ltb_ge; lia).
    replace fuel with (n + S (fuel - S n))%nat by lia.
    rewrite (scan_loop_batches _ _ _ _ _ _ _ _ _ Hbatches).
    simpl. rewrite Hempty. simpl. reflexivity.
  - simpl. split; [done|]. split; [done|].
    eexists. split; [apply lookup_insert_eq|]. done.
Qed.

Lemma empty_batch_completes_scan_witness :
  ∃ sess',
    track_updated_files 2 (Examples.scan_world (inr [])) 1 Examples.session1
      = Some (Ok tt, sess')
    ∧ committed sess' = pending sess'
    ∧ is_Some (inodes (committed sess') !! (1, 257)).
Proof.
  destruct (empty_batch_completes_scan (Examples.scan_world (inr [])) 1
              Examples.session1 Examples.vol1 1%nat 2%nat _ _
              eq_refl ltac:(vm_compute; discriminate) eq_refl eq_refl
              ltac:(lia))
    as (sess' & Hrun & Hc & Hi & _).
  exists sess'. split; [exact Hrun|]. split; [exact Hc|].
  rewrite Hc, Hi. vm_compute. eauto.
Defined.

(** X2: whatever its outcome, a scan of a volume leaves every Inode row
    stored under another volume exactly as it was. *)
Theorem scan_leaves_other_volumes (fuel : nat) (w : World) (vid : N)
    (sess sess' : Session) (r : result unit) (vol : Volume) (k : N * N) :
  volumes (pending sess) !! vid = Some vol →
  track_updated_files fuel w vid sess = Some (r, sess') →
  fst k ≠ vol_id vol →
  inodes (pending sess') !! k = inodes (pending sess) !! k.
Proof.
  intros Hvol Hrun. by apply (track_rows _ _ _ _ _ _ _ k Hvol Hrun).
Qed.

Lemma scan_leaves_other_volumes_witness :
  ∃ sess',
    track_updated_files 5 (Examples.scan_world (inr [])) 1
      ScanExamples.session2 = Some (Ok tt, sess')
    ∧ inodes (pending sess') !! (2, 300) = Some ScanExamples.row_other.
Proof.
  assert (∃ sess',
            track_updated_files 5 (Examples.scan_world (inr [])) 1
              ScanExamples.session2 = Some (Ok tt, sess'))
    as [sess' Hrun].
  { vm_compute. eauto. }
  exists sess'. split; [exact Hrun|].
  rewrite (scan_leaves_other_volumes 5 (Examples.scan_world (inr [])) 1
             ScanExamples.session2 sess' (Ok tt) Examples.vol1 (2, 300)
             eq_refl Hrun).
  - reflexivity.
  - vm_compute. discriminate.
Defined.


(** X3: the scanner keeps the catalog's size invariant: if every row
    stored under the scanned volume has a size of at least the volume's
    cutoff before the scan, the same holds after it, whatever its outcome. *)
Theorem scan_keeps_size_invariant (fuel : nat) (w : World) (vid : N)
    (sess sess' : Session) (r : result unit) (vol : Volume) :
  volumes (pending sess) !! vid = Some vol →
  track_updated_files fuel w vid sess = Some (r, sess') →
  (∀ k row, inodes (pending sess) !! k = Some row → fst k = vol_id vol →
            size_cutoff vol ≤ inode_size row) →
  ∀ k row, inodes (pending sess') !! k = Some row → fst k = vol_id vol →
           size_cutoff vol ≤ inode_size row.
Proof.
  intros Hvol Hrun Hinv k row Hrow Hk.
  destruct (track_rows _ _ _ _ _ _ _ k Hvol Hrun) as [_ Hstep].
  rewrite Hrow in Hstep. destruct Hstep as [Hsame|[?|(row' & [= <-] & _ & ?)]];
    [|done|done].
  by eapply Hinv.
Qed.

Lemma scan_keeps_size_invariant_witness :
  ∃ sess' row,
    track_updated_files 5 (Examples.scan_world (inr [])) 1
      ScanExamples.session2 = Some (Ok tt, sess')
    ∧ inodes (pending sess') !! (1, 257) = Some row
    ∧ size_cutoff Examples.vol1 ≤ inode_size row.
Proof.
  assert (∃ sess' row,
            track_updated_files 5 (Examples.scan_world (inr [])) 1
              ScanExamples.session2 = Some (Ok tt, sess')
            ∧ inodes (pending sess') !! (1, 257) = Some row)
    as (sess' & row & Hrun & Hrow).
  { vm_compute. eauto. }
  exists sess', row. split; [exact Hrun|]. split; [exact Hrow|].
  refine (scan_keeps_size_invariant 5 (Examples.scan_world (inr [])) 1
            ScanExamples.session2 sess' (Ok tt) Examples.vol1
            eq_refl Hrun _ (1, 257) row Hrow eq_refl).
  intros k row0 Hk Hvol. destruct k as [v i]. simpl in Hvol. subst v.
  destruct (decide (i = 257)) as [->|Hne].
  - vm_compute in Hk. injection Hk as <-. vm_compute. discriminate.
  - exfalso.
    cbn [ScanExamples.session2 ScanExamples.catalog2 pending inodes] in Hk.
    rewrite lookup_insert_ne in Hk by congruence.
    rewrite lookup_singleton_ne in Hk by congruence. done.
Defined.


(** X4: the scanner never clears has_updates and never changes a row
    without flagging it: a row found after the scan is either the very row
    that was there before or a row whose has_updates is set. *)
Theorem scan_never_clears_has_updates (fuel : nat) (w : World) (vid : N)
    (sess sess' : Session) (r : result unit) (vol : Volume) (k : N * N)
    (row' : Inode) :
  volumes (pending sess) !! vid = Some vol →
  track_updated_files fuel w vid sess = Some (r, sess') →
  inodes (pending sess') !! k = Some row' →
  inodes (pending sess) !! k = Some row' ∨ has_updates row' = true.
Proof.
  intros Hvol Hrun Hrow.
  destruct (track_rows _ _ _ _ _ _ _ k Hvol Hrun) as [_ Hstep].
  rewrite Hrow in Hstep. destruct Hstep as [Hsame|[?|(row & [= <-] & ? & _)]];
    [by left|done|by right].
Qed.

Lemma scan_never_clears_has_updates_witness :
  ∃ sess' row,
    track_updated_files 5 (Examples.scan_world (inr [])) 1
      ScanExamples.session2 = Some (Ok tt, sess')
    ∧ inodes (pending sess') !! (1, 257) = Some row
    ∧ (inodes (pending ScanExamples.session2) !! (1, 257) = Some row
       ∨ has_updates row = true).
Proof.
  assert (∃ sess' row,
            track_updated_files 5 (Examples.scan_world (inr [])) 1
              ScanExamples.session2 = Some (Ok tt, sess')
            ∧ inodes (pending sess') !! (1, 257) = Some row)
    as (sess' & row & Hrun & Hrow).
  { vm_compute. eauto. }
  exists sess', row. split; [exact Hrun|]. split; [exact Hrow|].
  exact (scan_never_clears_has_updates 5 (Examples.scan_world (inr [])) 1
           ScanExamples.session2 sess' (Ok tt) Examples.vol1 (1, 257) row
           eq_refl Hrun Hrow).
Defined.


(** An item of a regular file, at or above the cutoff and newer than the
    volume's cursor, passes every filter of the loop body. *)
Lemma scan_item_when_newer w vol s it :
  sh_type (header it) = BTRFS_INODE_ITEM_KEY w →
  size_cutoff vol ≤ btrfs_stack_inode_size (payload it) →
  S_ISREG (btrfs_stack_inode_mode (payload it)) = true →
  last_tracked_generation vol < btrfs_stack_inode_generation (payload it) →
  scan_item w vol (min_generation vol) s it
  = record_inode w vol (sh_objectid (header it))
      (btrfs_stack_inode_size (payload it)) s.
Proof.
  intros Hty Hsz Hreg Hgen.
  unfold scan_item, min_generation, truthy. rewrite Hty, N.eqb_refl, Hreg.
  simpl.
  destruct (last_tracked_size_cutoff vol) as [c|]; simpl; cmp_cases.
Qed.

(** X5: an item of a regular file, at or above the cutoff and newer than
    the volume's cursor, whose path cannot be resolved (any IOError of
    lookup_ino_path_one, not only ENOENT) leaves the session without a row
    for that inode, whether the inode was new or already tracked; every
    other row is as before. *)
Theorem unresolved_path_drops_row (w : World) (vol : Volume) (s : Session)
    (it : search_item) (e : N) :
  sh_type (header it) = BTRFS_INODE_ITEM_KEY w →
  size_cutoff vol ≤ btrfs_stack_inode_size (payload it) →
  S_ISREG (btrfs_stack_inode_mode (payload it)) = true →
  last_tracked_generation vol < btrfs_stack_inode_generation (payload it) →
  lookup_ino_path_one w (vol_fd vol) (sh_objectid (header it)) = inl e →
  let s' := scan_item w vol (min_generation vol) s it in
  inodes (pending s') !! (vol_id vol, sh_objectid (header it)) = None
  ∧ ∀ k, k ≠ (vol_id vol, sh_objectid (header it)) →
         inodes (pending s') !! k = inodes (pending s) !! k.
Proof.
  intros Hty Hsz Hreg Hgen He. cbv zeta.
  rewrite scan_item_when_newer by done.
  unfold record_inode, get_or_create_inode. rewrite He.
  destruct (inodes (pending s) !! _) as [row|]; simpl.
  - split; [apply lookup_delete_eq|]. intros k Hk.
    by rewrite lookup_delete_ne, lookup_insert_ne.
  - split; [apply lookup_delete_eq|]. intros k Hk.
    by rewrite lookup_delete_ne, lookup_insert_ne.
Qed.

Lemma unresolved_path_drops_row_witness :
  inodes (pending (scan_item (ScanExamples.unresolved_world EACCES)
                     Examples.vol1 (min_generation Examples.vol1)
                     ScanExamples.session2 Examples.item257))
    !! (1, 257) = None
  ∧ inodes (pending (scan_item (ScanExamples.unresolved_world EACCES)
                       Examples.vol1 (min_generation Examples.vol1)
                       ScanExamples.session2 Examples.item257))
      !! (2, 300) = Some ScanExamples.row_other.
Proof.
  destruct (unresolved_path_drops_row (ScanExamples.unresolved_world EACCES)
              Examples.vol1 ScanExamples.session2 Examples.item257 EACCES)
    as [Hgone Hrest];
    [reflexivity | vm_compute; discriminate | reflexivity
    | vm_compute; reflexivity | reflexivity |].
  split; [exact Hgone|].
  rewrite Hrest; [reflexivity|]. vm_compute. discriminate.
Defined.


(** X6: forget_vol on a volume of the session ends normally and commits:
    the rows that belong to the volume are gone and all other rows are
    kept, and the audit tables are as they were; the volume keeps its
    cutoff and its recorded cutoff, and its cursor is 0.  The next scan
    therefore starts from generation 1 when the recorded cutoff is at most
    the cutoff, from 0 otherwise, and in both cases it records every
    regular file at or above the cutoff whose generation is 1 or more. *)
Theorem forget_vol_forgets (vid : N) (sess : Session) (vol : Volume) :
  volumes (pending sess) !! vid = Some vol →
  ∃ sess' vol',
    forget_vol vid sess = (Ok tt, sess')
    ∧ committed sess' = pending sess'
    ∧ (∀ k row, inodes (pending sess') !! k = Some row
                ↔ inodes (pending sess) !! k = Some row
                  ∧ inode_vol row ≠ vol_id vol)
    ∧ dedup_events (pending sess') = dedup_events (pending sess)
    ∧ dedup_event_inodes (pending sess') = dedup_event_inodes (pending sess)
    ∧ volumes (pending sess') !! vid = Some vol'
    ∧ last_tracked_generation vol' = 0
    ∧ size_cutoff vol' = size_cutoff vol
    ∧ last_tracked_size_cutoff vol' = last_tracked_size_cutoff vol
    ∧ min_generation vol' =
        match last_tracked_size_cutoff vol with
        | Some c => if c <=? size_cutoff vol then 1 else 0
        | None => 0
        end
    ∧ ∀ w s it,
        sh_type (header it) = BTRFS_INODE_ITEM_KEY w →
        size_cutoff vol ≤ btrfs_stack_inode_size (payload it) →
        S_ISREG (btrfs_stack_inode_mode (payload it)) = true →
        1 ≤ btrfs_stack_inode_generation (payload it) →
        scan_item w vol' (min_generation vol') s it
        = record_inode w vol' (sh_objectid (header it))
            (btrfs_stack_inode_size (payload it)) s.
Proof.
  intros Hvol. unfold forget_vol. rewrite Hvol.
  eexists _, (forgotten vol). split; [done|]. split; [done|].
  split.
  { intros k row. simpl. by rewrite map_lookup_filter_Some. }
  split; [done|]. split; [done|].
  split; [apply lookup_insert_eq|].
  split; [done|]. split; [done|]. split; [done|].
  split.
  { unfold min_generation, forgotten; simpl.
    destruct (last_tracked_size_cutoff vol) as [c|]; cmp_cases. }
  intros w s it Hty Hsz Hreg Hgen.
  apply scan_item_when_newer; [done|done|done|]. simpl. lia.
Qed.

Lemma forget_vol_forgets_witness :
  ∃ sess',
    forget_vol 1 (sess (CloneExamples.state (1024, 2048) CloneExamples.rows345))
      = (Ok tt, sess')
    ∧ inodes (committed sess') = ∅.
Proof.
  destruct (forget_vol_forgets 1
              (sess (CloneExamples.state (1024, 2048) CloneExamples.rows345))
              CloneExamples.vol1 eq_refl)
    as (sess' & vol' & Hrun & Hc & Hrows & _).
  exists sess'. split; [exact Hrun|]. rewrite Hc.
  apply map_eq. intros k. rewrite lookup_empty.
  destruct (inodes (pending sess') !! k) as [row|] eqn:Hk; [|done].
  apply Hrows in Hk as [Hk Hne]. exfalso. revert Hk Hne.
  destruct (decide (k = (1, 3))) as [->|H3]; [vm_compute; intros [= <-]; auto|].
  destruct (decide (k = (1, 4))) as [->|H4]; [vm_compute; intros [= <-]; auto|].
  destruct (decide (k = (1, 5))) as [->|H5]; [vm_compute; intros [= <-]; auto|].
  intros Hk _. revert Hk. unfold CloneExamples.state, CloneExamples.catalog,
    CloneExamples.rows345; simpl.
  rewrite !lookup_insert_ne by done. by rewrite lookup_empty.
Defined.


(** * Further properties of the cloner *)

Import GroupFootprint.

Section Footprint.

Context (X : list Inode).

Lemma fp_refl st : group_footprint X st st.
Proof.
  split; [done|]. split; [done|].
  split; [exists []; split; [by rewrite app_nil_r|by intros ? ?%elem_of_nil]|].
  split; [exists []; by rewrite app_nil_r|done].
Qed.

Lemma fp_trans st1 st2 st3 :
  group_footprint X st1 st2 → group_footprint X st2 st3 →
  group_footprint X st1 st3.
Proof.
  intros (Hv1 & Hi1 & (sk1 & Hs1 & HX1) & (op1 & Ho1) & Hr1)
         (Hv2 & Hi2 & (sk2 & Hs2 & HX2) & (op2 & Ho2) & Hr2).
  split; [congruence|]. split; [by etrans|].
  split.
  { exists (sk1 ++ sk2). split; [by rewrite Hs2, Hs1, app_assoc|].
    intros i [?|?]%elem_of_app; auto. }
  split; [exists (op1 ++ op2); by rewrite Ho2, Ho1, app_assoc|congruence].
Qed.

Lemma fp_sess st0 st f :
  group_footprint X st0 st →
  (∀ s, volumes (pending (f s)) = volumes (pending s)) →
  (∀ s, inodes (pending (f s)) ⊆ inodes (pending s)) →
  group_footprint X st0 (with_sess f st).
Proof.
  intros H0 Hv Hi. eapply fp_trans; [exact H0|].
  split; [apply Hv|]. split; [apply Hi|].
  split; [exists []; split; [by rewrite app_nil_r|by intros ? ?%elem_of_nil]|].
  split; [exists []; by rewrite app_nil_r|done].
Qed.

Lemma fp_delete st0 st k :
  group_footprint X st0 st →
  group_footprint X st0 (with_sess (sess_delete k) st).
Proof.
  intros H0. apply fp_sess; [done|done|]. intros s. apply delete_subseteq.
Qed.

Lemma fp_skip st0 st i :
  group_footprint X st0 st → i ∈ X →
  group_footprint X st0 (with_skipped (fun l => l ++ [i]) st).
Proof.
  intros H0 Hi. eapply fp_trans; [exact H0|].
  split; [done|]. split; [done|].
  split; [exists [i]; split; [done|by intros ? ->%list_elem_of_singleton]|].
  split; [exists []; by rewrite app_nil_r|done].
Qed.

Lemma fp_open st0 st x :
  group_footprint X st0 st →
  group_footprint X st0 (with_opened (fun l => l ++ [x]) st).
Proof.
  intros H0. eapply fp_trans; [exact H0|].
  split; [done|]. split; [done|].
  split; [exists []; split; [by rewrite app_nil_r|by intros ? ?%elem_of_nil]|].
  split; [by exists [x]|done].
Qed.

Lemma fp_cloned st0 st f :
  group_footprint X st0 st → group_footprint X st0 (with_cloned f st).
Proof.
  intros H0. eapply fp_trans; [exact H0|].
  split; [done|]. split; [done|].
  split; [exists []; split; [by rewrite app_nil_r|by intros ? ?%elem_of_nil]|].
  split; [exists []; by rewrite app_nil_r|done].
Qed.

End Footprint.

Create HintDb fp.
#[local] Hint Resolve fp_refl fp_delete fp_skip fp_open fp_cloned : fp.

Lemma for_each_invariant {A} (body : A → M unit) (J : State → Prop)
    (l : list A) (st : State) r st' :
  (∀ x st r st', x ∈ l → J st → body x st = (r, st') → J st') →
  J st → for_each body l st = (r, st') → J st'.
Proof.
  revert st. induction l as [|x l IH]; intros st Hbody Hst; simpl.
  { by intros [= <- <-]. }
  rewrite bind_run. destruct (body x st) as [[[]|e] st1] eqn:Hx.
  - apply IH.
    + intros ? ? ? ? Hin. apply Hbody. by right.
    + eapply Hbody; [left|done..].
  - intros [= <- <-]. eapply Hbody; [left|done..].
Qed.

Ltac opened_tac :=
  first [ by exists []; split; [simpl; by rewrite app_nil_r | simpl; lia]
        | by eexists [_]; split; [done | simpl; lia] ].

Ltac safe_tac :=
  intros ? ?; simplify_eq;
  first [by left | by right; left | by right; right; eexists].

Ltac step_done :=
  intros [= <- <-];
  split;
    [ auto with fp
    | split;
        [ first [by intros ? [= <-] | by intros ? [=] | idtac]
        | split; [safe_tac|] ] ].

Lemma open_candidate_footprint w X loc inode st0 st r st' :
  inode ∈ X → locals_ok X loc → group_footprint X st0 st →
  open_candidate w loc inode st = (r, st') →
  group_footprint X st0 st'
  ∧ (∀ loc', r = Ok loc' → locals_ok X loc')
  ∧ raises_only_group_exn r
  ∧ quiet st st'
  ∧ ∃ op, opened st' = opened st ++ op ∧ (length op ≤ 1)%nat.
Proof.
  intros Hin (HlX & Hnames & Hfiles) H0. unfold open_candidate. munfold.
  destruct (volumes (pending (sess st)) !! inode_vol inode) as [vol|];
    [|step_done; split; [done|opened_tac]].
  destruct (lookup_ino_path_one w (vol_fd vol) (ino inode)) as [e|path].
  { destruct (e =? ENOENT); step_done; (split; [done|opened_tac]). }
  simpl.
  destruct (fopenat_rw w (vol_fd vol) path) as [e|afile].
  { destruct (e =? ETXTBSY); [|destruct (e =? EACCES); [|destruct (e =? ENOENT)]];
      step_done; (split; [done|opened_tac]). }
  step_done; [|split; [done|opened_tac]].
  intros loc' [= <-]. split; [|split]; simpl.
  - intros fd i. rewrite lookup_insert. case_decide; [by intros [= <-]|apply HlX].
  - intros fd. rewrite !lookup_insert. case_decide; [eauto|apply Hnames].
  - intros f [Hf| ->%list_elem_of_singleton]%elem_of_app.
    + rewrite lookup_insert. case_decide; [eauto|by apply Hfiles].
    + rewrite lookup_insert_eq. eauto.
Qed.

Lemma hash_candidate_footprint w X comm3 loc wu by_hash afile st0 st r st' :
  locals_ok X loc → afile ∈ files loc → buckets_known loc by_hash →
  group_footprint X st0 st →
  hash_candidate w comm3 loc wu by_hash afile st = (r, st') →
  group_footprint X st0 st'
  ∧ (∀ bh, r = Ok bh → buckets_known loc bh)
  ∧ raises_only_group_exn r
  ∧ opened st' = opened st
  ∧ quiet st st'.
Proof.
  intros (HlX & Hnames & Hfiles) Hin Hb H0.
  unfold hash_candidate. munfold. cbv zeta.
  destruct (Hfiles _ Hin) as [inode Hinode]. rewrite Hinode. simpl.
  assert (HiX : inode ∈ X) by by eapply HlX.
  destruct (Hnames (fileno afile)) as [name Hname]; [eauto|]. rewrite Hname.
  case_bool_decide; [by step_done|].
  destruct (negb _); [by step_done|].
  destruct (volumes (pending (sess st)) !! inode_vol inode) as [vol|];
    [|by step_done].
  destruct (negb _); [by step_done|].
  destruct (negb _); [destruct (_ <? _); by step_done|].
  step_done; [|done].
  intros bh [= <-] digest bucket f. unfold bucket_append.
  rewrite lookup_insert. case_decide.
  - intros [= <-] [Hf| ->%list_elem_of_singleton]%elem_of_app; [|eauto].
    destruct (by_hash !! sha1_digest w afile) as [b0|] eqn:Hb0; simpl in Hf.
    + by eapply Hb.
    + by apply elem_of_nil in Hf.
  - apply Hb.
Qed.


Import AuditTrail.

Lemma quiet_refl st : quiet st st.
Proof. by repeat split. Qed.

Lemma quiet_trans st1 st2 st3 : quiet st1 st2 → quiet st2 st3 → quiet st1 st3.
Proof. intros (?&?&?) (?&?&?). repeat split; congruence. Qed.

(** The loop over the destinations, when every descriptor has a name:
    it only extends the clone log, and either raises AssertionError or
    returns the accumulator extended by destinations of the bucket. *)
Lemma clone_dests_outcome w loc sfile dfiles acc st r st' :
  is_Some (fd_names loc !! fileno sfile) →
  (∀ d, d ∈ dfiles → is_Some (fd_names loc !! fileno d)) →
  clone_dests w loc sfile dfiles acc st = (r, st') →
  (∃ log, st' = with_cloned (fun l => l ++ log) st)
  ∧ (r = Raise AssertionError
     ∨ ∃ succ, r = Ok (acc ++ succ) ∧ ∀ f, f ∈ succ → f ∈ dfiles).
Proof.
  intros [sname Hs]. revert acc st.
  induction dfiles as [|d dfiles IH]; intros acc st Hd; simpl.
  { intros [= <- <-]. split; [exists []; by rewrite with_cloned_nil|].
    right. exists []. split; [by rewrite app_nil_r|by intros ? ?%elem_of_nil]. }
  destruct (Hd d) as [dname Hdn]; [left|].
  munfold. rewrite Hs, Hdn.
  destruct (cmp_files w sfile d); simpl.
  2:{ intros [= <- <-]. split; [exists []; by rewrite with_cloned_nil|by left]. }
  assert (Hrest : ∀ d', d' ∈ dfiles → is_Some (fd_names loc !! fileno d')).
  { intros d' Hin. apply Hd. by right. }
  destruct (clone_data w (fileno d) (fileno sfile)); intros Hrun;
    apply IH in Hrun as [[log ->] Hr]; try done.
  - split; [eexists; by rewrite with_cloned_cons|].
    destruct Hr as [->|(succ & -> & Hsucc)]; [by left|right].
    exists (d :: succ). split; [by rewrite <- app_assoc|].
    intros f [->|?]%elem_of_cons; [left|right; auto].
  - split; [eexists; by rewrite with_cloned_cons|].
    destruct Hr as [->|(succ & -> & Hsucc)]; [by left|right].
    exists succ. split; [done|]. intros f ?. right; auto.
Qed.

Lemma event_rows_event evt loc fileset row :
  row ∈ event_rows evt loc fileset → evti_event row = evt.
Proof.
  unfold event_rows. intros Hin. apply list_elem_of_omap in Hin as (f & _ & Hf).
  destruct (fd_inodes loc !! fileno f); simplify_eq/=. done.
Qed.

(** One bucket whose files all have a name and an inode: beside the clone
    log, either nothing changes, or one event and at least two rows that
    refer to it are appended and committed. *)
Lemma clone_fileset_outcome w fs comm3 loc fileset st r st' :
  (∀ f, f ∈ fileset → is_Some (fd_names loc !! fileno f)
                      ∧ is_Some (fd_inodes loc !! fileno f)) →
  clone_fileset w fs comm3 loc fileset st = (r, st') →
  raises_only_group_exn r
  ∧ ∃ log,
      st' = with_cloned (fun l => l ++ log) st
      ∨ ∃ rows,
          r = Ok tt
          ∧ (2 ≤ length rows)%nat
          ∧ (∀ row, row ∈ rows →
               evti_event row = length (dedup_events (pending (sess st))))
          ∧ st' = with_sess
                    (fun s =>
                       commit
                         (with_pending (append_rows rows)
                            (with_pending
                               (append_event
                                  {| evt_fs := fs; item_size := comm_size comm3;
                                     created := system_now w |}) s)))
                    (with_cloned (fun l => l ++ log) st).
Proof.
  intros Hkeys. unfold clone_fileset.
  destruct fileset as [|sfile [|d dfiles]].
  1,2: intros [= <- <-]; split; [safe_tac|]; exists []; left;
       by rewrite with_cloned_nil.
  rewrite bind_run.
  destruct (clone_dests _ _ _ _ _ _) as [r1 st1] eqn:Hd.
  apply clone_dests_outcome in Hd as [[log ->] Hr].
  2:{ apply Hkeys. left. }
  2:{ intros f Hf. apply Hkeys. by right. }
  destruct Hr as [->|(succ & -> & Hsucc)].
  { intros [= <- <-]. split; [safe_tac|]. exists log. by left. }
  simpl. destruct succ as [|s1 succ].
  { intros [= <- <-]. split; [safe_tac|]. exists log. by left. }
  rewrite record_event_rows.
  2:{ intros f [->|Hf]%elem_of_cons; [apply Hkeys; left|].
      apply Hkeys. right. by apply Hsucc. }
  intros [= <- <-]. split; [safe_tac|]. exists log. right.
  exists (event_rows (length (dedup_events (pending (sess st)))) loc
            (sfile :: s1 :: succ)).
  split; [done|]. split; [|split; [|done]].
  - rewrite event_rows_length; [simpl; lia|].
    intros f [->|Hf]%elem_of_cons; [apply Hkeys; left|].
    apply Hkeys. right. by apply Hsucc.
  - intros row Hrow. by apply event_rows_event in Hrow.
Qed.

Lemma filter_all_true {A} (P : A → Prop) `{∀ x, Decision (P x)} (l : list A) :
  (∀ x, x ∈ l → P x) → filter P l = l.
Proof.
  induction l as [|x l IH]; intros Hall; [done|].
  rewrite filter_cons_True by (apply Hall; left).
  f_equal. apply IH. intros y Hy. apply Hall. by right.
Qed.

Lemma audited_refl evt st : audited evt st st.
Proof.
  exists [], []. rewrite !app_nil_r. repeat split; try done.
  - by intros ? ?%elem_of_nil.
  - simpl. lia.
Qed.

Lemma audited_of_quiet evt st0 st : quiet st0 st → audited evt st0 st.
Proof.
  intros (Qe & Qr & _). exists [], []. rewrite !app_nil_r.
  repeat split; try done.
  - by intros ? ?%elem_of_nil.
  - simpl. lia.
Qed.

Lemma audited_cloned evt st0 st f :
  audited evt st0 st → audited evt st0 (with_cloned f st).
Proof. done. Qed.

Lemma audited_append evt st0 st rows f :
  audited evt st0 st →
  (2 ≤ length rows)%nat →
  (∀ row, row ∈ rows →
     evti_event row = length (dedup_events (pending (sess st)))) →
  audited evt st0
    (with_sess
       (fun s => commit (with_pending (append_rows rows)
                           (with_pending (append_event evt) s)))
       (with_cloned f st)).
Proof.
  intros (evs & rws & He & Hr & Hall & Hcnt & Hc) Hlen Hrows.
  exists (evs ++ [evt]), (rws ++ rows). simpl.
  rewrite He, Hr, <- !app_assoc. split; [done|]. split; [done|].
  split; [|split; [|done]].
  - intros e [?| ->%list_elem_of_singleton]%elem_of_app; auto.
  - intros k Hk. rewrite filter_app, length_app.
    rewrite length_app in Hk. simpl in Hk.
    destruct (decide (k < length evs)%nat) as [Hlt|Hge].
    + specialize (Hcnt k Hlt). lia.
    + assert (k = length evs) as -> by lia.
      rewrite (filter_all_true _ rows).
      * lia.
      * intros row Hrow. rewrite (Hrows row Hrow), He, length_app. done.
Qed.

Lemma for_fold_safe {A B} (body : B → A → M B) (I : B → Prop)
    (J : State → Prop) (l : list A) (b : B) (st : State) r st' :
  (∀ b x st r st', x ∈ l → I b → J st → body b x st = (r, st') →
     J st' ∧ (∀ b', r = Ok b' → I b') ∧ raises_only_group_exn r) →
  I b → J st →
  for_fold body l b st = (r, st') →
  J st' ∧ (∀ b', r = Ok b' → I b') ∧ raises_only_group_exn r.
Proof.
  revert b st. induction l as [|x l IH]; intros b st Hbody Hb Hst; simpl.
  { intros [= <- <-]. split; [done|].
    split; [by intros b' [= <-]|by intros ? [=]]. }
  rewrite bind_run.
  destruct (body b x st) as [[b1|e] st1] eqn:Hx.
  - destruct (Hbody _ _ _ _ _ ltac:(left) Hb Hst Hx) as (Hf1 & Hb1 & _).
    apply IH; [|by apply Hb1|done].
    intros ? ? ? ? ? Hin. apply Hbody. by right.
  - intros [= <- <-].
    destruct (Hbody _ _ _ _ _ ltac:(left) Hb Hst Hx) as (Hf1 & _ & Hs).
    split; [done|]. split; [by intros b' [=]|done].
Qed.

Lemma for_each_safe {A} (body : A → M unit) (J : State → Prop)
    (l : list A) (st : State) r st' :
  (∀ x st r st', x ∈ l → J st → body x st = (r, st') →
     J st' ∧ raises_only_group_exn r) →
  J st → for_each body l st = (r, st') →
  J st' ∧ raises_only_group_exn r.
Proof.
  revert st. induction l as [|x l IH]; intros st Hbody Hst; simpl.
  { intros [= <- <-]. split; [done|by intros ? [=]]. }
  rewrite bind_run. destruct (body x st) as [[[]|e] st1] eqn:Hx.
  - apply IH.
    + intros ? ? ? ? Hin. apply Hbody. by right.
    + by eapply Hbody; [left|done..].
  - intros [= <- <-]. eapply Hbody; [left|done..].
Qed.

Lemma opens_of_nil w vols X : opens_of w vols X [].
Proof. exists []. split; [apply sublist_nil_l|constructor]. Qed.

Lemma opens_of_cons w vols x l op1 op2 :
  opens_of w vols [x] op1 → opens_of w vols l op2 →
  opens_of w vols (x :: l) (op1 ++ op2).
Proof.
  intros (c1 & Hs1 & Hf1) (c2 & Hs2 & Hf2). exists (c1 ++ c2). split.
  - change (x :: l) with ([x] ++ l). by apply sublist_app.
  - by apply Forall2_app.
Qed.

(** One turn of the opening loop logs at most one open, that of its own
    candidate, and leaves the volume rows alone. *)
Lemma open_candidate_opened w loc inode st r st' :
  open_candidate w loc inode st = (r, st') →
  volumes (pending (sess st')) = volumes (pending (sess st))
  ∧ ∃ op, opened st' = opened st ++ op ∧ (length op ≤ 1)%nat
          ∧ opens_of w (volumes (pending (sess st))) [inode] op.
Proof.
  assert (Hnone : ∀ s, opened s = opened st →
            ∃ op, opened s = opened st ++ op ∧ (length op ≤ 1)%nat
                  ∧ opens_of w (volumes (pending (sess st))) [inode] op).
  { intros s Hs. exists []. rewrite app_nil_r.
    split; [done|]. split; [simpl; lia|apply opens_of_nil]. }
  unfold open_candidate. munfold.
  destruct (volumes (pending (sess st)) !! inode_vol inode) as [vol|] eqn:Hvol;
    [|intros [= <- <-]; split; [done|by apply Hnone]].
  destruct (lookup_ino_path_one w (vol_fd vol) (ino inode)) as [e|path] eqn:Hp.
  { destruct (e =? ENOENT); intros [= <- <-]; (split; [done|by apply Hnone]). }
  simpl.
  assert (Hone : ∀ s, opened s = opened st ++ [(vol_fd vol, path)] →
            ∃ op, opened s = opened st ++ op ∧ (length op ≤ 1)%nat
                  ∧ opens_of w (volumes (pending (sess st))) [inode] op).
  { intros s Hs. exists [(vol_fd vol, path)].
    split; [done|]. split; [simpl; lia|].
    exists [inode]. split; [done|]. constructor; [|constructor].
    exists vol. done. }
  destruct (fopenat_rw w (vol_fd vol) path) as [e|afile].
  { destruct (e =? ETXTBSY); [|destruct (e =? EACCES); [|destruct (e =? ENOENT)]];
      intros [= <- <-]; (split; [done|by apply Hone]). }
  intros [= <- <-]. split; [done|by apply Hone].
Qed.

Lemma open_loop_opened w l loc st r st' :
  for_fold (open_candidate w) l loc st = (r, st') →
  ∃ op, opened st' = opened st ++ op ∧ (length op ≤ length l)%nat
        ∧ opens_of w (volumes (pending (sess st))) l op.
Proof.
  revert loc st. induction l as [|x l IH]; intros loc st; simpl.
  { intros [= <- <-]. exists []. split; [by rewrite app_nil_r|].
    split; [done|apply opens_of_nil]. }
  rewrite bind_run.
  destruct (open_candidate w loc x st) as [[loc1|e] st1] eqn:Hx;
    apply open_candidate_opened in Hx as (Hv1 & op1 & Ho1 & Hl1 & Hof1).
  - intros Hrest. apply IH in Hrest as (op2 & Ho2 & Hl2 & Hof2).
    rewrite Hv1 in Hof2.
    exists (op1 ++ op2). split; [by rewrite Ho2, Ho1, app_assoc|].
    split; [rewrite length_app; lia|by apply opens_of_cons].
  - intros [= <- <-]. exists op1. split; [done|]. split; [lia|].
    rewrite <- (app_nil_r op1). apply opens_of_cons; [done|apply opens_of_nil].
Qed.

Lemma raises_cast {A B} (e : exn) :
  raises_only_group_exn (@Raise A e) → raises_only_group_exn (@Raise B e).
Proof. intros H e' [= <-]. by apply H. Qed.

(** The invariant of a whole group. *)
Lemma clone_group_inv w fs comm3 st r st' :
  clone_group w fs comm3 st = (r, st') →
  group_inv w fs comm3 st st'
  ∧ raises_only_group_exn r
  ∧ ∃ op, opened st' = opened st ++ op
          ∧ (length op ≤ length (comm_inodes comm3))%nat
          ∧ opens_of w (volumes (pending (sess st))) (comm_inodes comm3) op.
Proof.
  unfold clone_group, group_inv. rewrite bind_run.
  set (X := comm_inodes comm3).
  set (evt := {| evt_fs := fs; item_size := comm_size comm3;
                 created := system_now w |}).
  destruct (for_fold (open_candidate w) _ _ _) as [r1 st1] eqn:Hopen.
  pose proof (open_loop_opened _ _ _ _ _ _ Hopen) as Hopened.
  apply (for_fold_safe _ (locals_ok X)
           (fun s => group_footprint X st s ∧ quiet st s))
    in Hopen as ([Hfp1 Hq1] & Hloc & Hsafe1).
  2:{ intros loc0 x s r0 s' Hx Hl [Hfp Hq] Hrun.
      eapply open_candidate_footprint in Hrun
        as (Hfp' & Hl' & Hs' & Hq' & _); [|done..].
      split; [|done]. split; [done|by eapply quiet_trans]. }
  2:{ split; [|split]; simpl.
      - intros fd i. by rewrite lookup_empty.
      - intros fd [? H]. by rewrite lookup_empty in H.
      - by intros f ?%elem_of_nil. }
  2:{ split; [apply fp_refl|apply quiet_refl]. }
  destruct r1 as [loc|e].
  2:{ intros [= <- <-]. split; [|split; [by eapply raises_cast|done]].
      split; [done|by apply audited_of_quiet]. }
  specialize (Hloc loc eq_refl). cbv zeta. rewrite bind_run.
  destruct (for_fold (hash_candidate _ _ _ _) _ _ _) as [r2 st2] eqn:Hhash.
  apply (for_fold_safe _ (buckets_known loc)
           (fun s => (group_footprint X st s ∧ quiet st s)
                     ∧ opened s = opened st1))
    in Hhash as ([[Hfp2 Hq2] Ho2] & Hbk & Hsafe2).
  2:{ intros bh f s r0 s' Hf Hb [[Hfp Hq] Ho] Hrun.
      eapply hash_candidate_footprint in Hrun
        as (Hfp' & Hb' & Hs' & Ho' & Hq'); [|done..].
      split; [|done]. split; [|congruence].
      split; [done|by eapply quiet_trans]. }
  2:{ intros ? ? ?. by rewrite lookup_empty. }
  2:{ done. }
  destruct r2 as [by_hash|e].
  2:{ intros [= <- <-]. split; [|split; [by eapply raises_cast|]].
      - split; [done|by apply audited_of_quiet].
      - by rewrite Ho2. }
  specialize (Hbk by_hash eq_refl).
  intros Hclone.
  apply (for_each_safe _
           (fun s => (group_footprint X st s ∧ audited evt st s)
                     ∧ opened s = opened st1))
    in Hclone as ([[Hfp3 Ha3] Ho3] & Hsafe3).
  - split; [done|]. split; [done|]. by rewrite Ho3.
  - intros fileset s r0 s' Hin [[Hfp Ha] Ho] Hrun.
    apply list_elem_of_fmap in Hin as ([digest b] & -> & Hb).
    apply elem_of_map_to_list in Hb. simpl in Hrun.
    apply clone_fileset_outcome in Hrun as (Hs & log & Hst).
    2:{ intros f Hf. destruct Hloc as (_ & Hnames & _).
        split; [apply Hnames|]; by eapply Hbk. }
    split; [|done].
    destruct Hst as [->|(rows & -> & Hlen & Hrows & ->)].
    + split; [split|done]; [by apply fp_cloned|by apply audited_cloned].
    + split; [split|done].
      * apply fp_sess; [by apply fp_cloned|done|done].
      * by apply audited_append.
  - split; [split|done]; [done|by apply audited_of_quiet].
Qed.


(** What dedup_tracked1 does with one group, in the three cases of the
    budget: the group is processed from the state [st1], which is [st] with
    at most the soft limit raised, or it is deferred. *)
Lemma dedup_comm3_cases w fs reserved comm3 soft hard st r st' :
  dedup_comm3 w fs reserved comm3 soft hard st = (r, st') →
  let req := 2 * inode_count comm3 + reserved in
  (soft < req ∧ hard < req ∧ r = Ok soft
   ∧ st' = with_skipped
             (fun sk => sk ++ filter (fun i => has_updates i = true)
                                 (comm_inodes comm3)) st)
  ∨ ∃ st1 r1 soft',
      clone_group w fs comm3 st1 = (r1, st')
      ∧ (r = match r1 with Ok _ => Ok soft' | Raise e => Raise e end)
      ∧ ((req ≤ soft ∧ st1 = st ∧ soft' = soft)
         ∨ (soft < req ∧ req ≤ hard ∧ soft' = req
            ∧ st1 = with_rlimit (req, hard) st)).
Proof.
  unfold dedup_comm3. cbv zeta.
  destruct (N.ltb_spec soft (2 * inode_count comm3 + reserved)) as [Hs|Hs].
  - destruct (N.leb_spec (2 * inode_count comm3 + reserved) hard) as [Hh|Hh].
    + rewrite bind_run. unfold setrlimit, modify. rewrite bind_run.
      destruct (clone_group _ _ _ _) as [[[]|e] st2] eqn:Hrun;
        intros [= <- <-]; right; eexists _, _, _;
        (split; [exact Hrun|]); (split; [done|]); right; done.
    + rewrite bind_run, for_each_skip_updated.
      intros [= <- <-]. left. done.
  - rewrite bind_run.
    destruct (clone_group _ _ _ _) as [[[]|e] st2] eqn:Hrun;
      intros [= <- <-]; right; eexists _, _, _;
      (split; [exact Hrun|]); (split; [done|]); left; done.
Qed.

(** X7: processing a group never adds or changes an Inode row and never
    touches a volume row: every row of the session afterwards was there,
    identical, before (rows can only have been deleted), whatever the
    outcome. *)
Theorem group_only_deletes_rows (w : World) (fs reserved : N) (comm3 : Comm3)
    (soft hard : N) (st st' : State) (r : result N) :
  dedup_comm3 w fs reserved comm3 soft hard st = (r, st') →
  volumes (pending (sess st')) = volumes (pending (sess st))
  ∧ ∀ k row, inodes (pending (sess st')) !! k = Some row →
             inodes (pending (sess st)) !! k = Some row.
Proof.
  intros Hrun. apply dedup_comm3_cases in Hrun.
  destruct Hrun as [(_ & _ & _ & ->)|(st1 & r1 & soft' & Hrun & _ & Hst1)];
    [done|].
  apply clone_group_inv in Hrun as ([(Hv & Hi & _) _] & _).
  assert (sess st1 = sess st) as Hs
    by (destruct Hst1 as [(_ & -> & _)|(_ & _ & _ & ->)]; done).
  rewrite Hs in *. split; [done|].
  intros k row Hrow. by eapply lookup_weaken.
Qed.

Lemma group_only_deletes_rows_witness :
  ∃ r st' row,
    dedup_comm3 CloneExamples.truncated_world 1 8
      (CloneExamples.comm3_of CloneExamples.rows345) 1024 2048
      (CloneExamples.state (1024, 2048) CloneExamples.rows345) = (r, st')
    ∧ inodes (pending (sess st')) !! (1, 3) = Some row
    ∧ inodes (pending (sess (CloneExamples.state (1024, 2048)
                               CloneExamples.rows345))) !! (1, 3) = Some row
    ∧ inodes (pending (sess st')) !! (1, 5) = None.
Proof.
  assert (∃ r st' row,
    dedup_comm3 CloneExamples.truncated_world 1 8
      (CloneExamples.comm3_of CloneExamples.rows345) 1024 2048
      (CloneExamples.state (1024, 2048) CloneExamples.rows345) = (r, st')
    ∧ inodes (pending (sess st')) !! (1, 3) = Some row
    ∧ inodes (pending (sess st')) !! (1, 5) = None)
    as (r & st' & row & Hrun & Hrow & Hgone).
  { vm_compute. eauto 10. }
  exists r, st', row. split; [exact Hrun|]. split; [exact Hrow|].
  split; [|exact Hgone].
  exact (proj2 (group_only_deletes_rows CloneExamples.truncated_world 1 8
           (CloneExamples.comm3_of CloneExamples.rows345) 1024 2048
           (CloneExamples.state (1024, 2048) CloneExamples.rows345) st' r Hrun)
           (1, 3) row Hrow).
Defined.


(** X8: skipped only grows while a group is processed, and only by
    candidates of that group. *)
Theorem group_skips_only_candidates (w : World) (fs reserved : N)
    (comm3 : Comm3) (soft hard : N) (st st' : State) (r : result N) :
  dedup_comm3 w fs reserved comm3 soft hard st = (r, st') →
  ∃ sk, skipped st' = skipped st ++ sk
        ∧ ∀ inode, inode ∈ sk → inode ∈ comm_inodes comm3.
Proof.
  intros Hrun. apply dedup_comm3_cases in Hrun.
  destruct Hrun as [(_ & _ & _ & ->)|(st1 & r1 & soft' & Hrun & _ & Hst1)].
  { eexists. split; [done|]. by intros i [_ ?]%list_elem_of_filter. }
  apply clone_group_inv in Hrun as ([(_ & _ & Hsk & _) _] & _).
  assert (skipped st1 = skipped st) as Hs
    by (destruct Hst1 as [(_ & -> & _)|(_ & _ & _ & ->)]; done).
  by rewrite Hs in Hsk.
Qed.

Lemma group_skips_only_candidates_witness :
  ∃ r st' sk,
    dedup_comm3 CloneExamples.unlinked_world 1 8
      (CloneExamples.comm3_of CloneExamples.rows345) 1024 2048
      (CloneExamples.state (1024, 2048) CloneExamples.rows345) = (r, st')
    ∧ skipped st' = sk
    ∧ Forall (fun inode => inode ∈ CloneExamples.rows345) sk.
Proof.
  destruct (dedup_comm3 CloneExamples.unlinked_world 1 8
      (CloneExamples.comm3_of CloneExamples.rows345) 1024 2048
      (CloneExamples.state (1024, 2048) CloneExamples.rows345)) as [r st'] eqn:Hrun.
  destruct (group_skips_only_candidates CloneExamples.unlinked_world 1 8
           (CloneExamples.comm3_of CloneExamples.rows345) 1024 2048
           (CloneExamples.state (1024, 2048) CloneExamples.rows345) st' r Hrun)
    as (sk & Hsk & Hin).
  exists r, st', sk. split; [reflexivity|]. split; [exact Hsk|].
  apply Forall_forall. exact Hin.
Defined.


(** X9: the open-files limit is only ever raised.  If the local
    ofile_soft and ofile_hard hold the process limits and soft ≤ hard when
    a group starts, then afterwards the hard limit is the same, the soft
    limit is at least what it was and at most the hard limit, and the value
    handed back for ofile_soft is again the process's soft limit; the soft
    limit changes only to 2 × inode_count + reserved. *)
Theorem rlimit_only_raised (w : World) (fs reserved : N) (comm3 : Comm3)
    (soft hard : N) (st st' : State) (r : result N) :
  dedup_comm3 w fs reserved comm3 soft hard st = (r, st') →
  rlimit_ofile st = (soft, hard) →
  soft ≤ hard →
  ∃ soft',
    rlimit_ofile st' = (soft', hard)
    ∧ soft ≤ soft' ∧ soft' ≤ hard
    ∧ (soft' = soft ∨ soft' = 2 * inode_count comm3 + reserved)
    ∧ ∀ x, r = Ok x → x = soft'.
Proof.
  intros Hrun Hlim Hle. apply dedup_comm3_cases in Hrun.
  destruct Hrun as [(_ & _ & -> & ->)|(st1 & r1 & soft' & Hrun & -> & Hst1)].
  { exists soft. simpl. rewrite Hlim.
    split; [done|]. split; [lia|]. split; [done|]. split; [by left|].
    by intros x [= <-]. }
  apply clone_group_inv in Hrun as ([(_ & _ & _ & _ & Hr) _] & _).
  exists soft'. rewrite Hr.
  destruct Hst1 as [(? & -> & ->)|(? & ? & -> & ->)]; simpl.
  - rewrite Hlim.
    split; [done|]. split; [lia|]. split; [done|]. split; [by left|].
    intros x. destruct r1; by intros [= <-].
  - split; [done|]. split; [lia|]. split; [done|]. split; [by right|].
    intros x. destruct r1; by intros [= <-].
Qed.

Lemma rlimit_only_raised_witness :
  ∃ r st',
    dedup_comm3 CloneExamples.quiet_world 1 8
      (CloneExamples.comm3_of CloneExamples.rows345) 4 2048
      (CloneExamples.state (4, 2048) CloneExamples.rows345) = (r, st')
    ∧ rlimit_ofile st' = (14, 2048) ∧ r = Ok 14.
Proof.
  assert (∃ st',
    dedup_comm3 CloneExamples.quiet_world 1 8
      (CloneExamples.comm3_of CloneExamples.rows345) 4 2048
      (CloneExamples.state (4, 2048) CloneExamples.rows345) = (Ok 14, st')
    ∧ rlimit_ofile st' = (14, 2048))
    as (st' & Hrun & Hlim).
  { vm_compute. eauto. }
  destruct (rlimit_only_raised CloneExamples.quiet_world 1 8
           (CloneExamples.comm3_of CloneExamples.rows345) 4 2048
           (CloneExamples.state (4, 2048) CloneExamples.rows345) st' (Ok 14) Hrun
              eq_refl ltac:(vm_compute; discriminate))
    as (soft' & Hlim' & _ & _ & _ & Hret).
  exists (Ok 14), st'. split; [exact Hrun|]. split; [exact Hlim|].
  reflexivity.
Defined.


(** X10: a group calls fopenat_rw at most once for each of its candidates,
    and not at all when it is deferred for lack of descriptors.  The opens
    the group adds to the log are, entry by entry and in order, the
    (descriptor of the volume, resolved path) of a subsequence of its
    candidates: each open is accounted for by a candidate of its own, so
    no candidate is opened twice. *)
Theorem group_opens_each_candidate_once (w : World) (fs reserved : N)
    (comm3 : Comm3) (soft hard : N) (st st' : State) (r : result N) :
  dedup_comm3 w fs reserved comm3 soft hard st = (r, st') →
  ∃ op,
    opened st' = opened st ++ op
    ∧ (length op ≤ length (comm_inodes comm3))%nat
    ∧ (∃ cands,
         sublist cands (comm_inodes comm3)
         ∧ Forall2 (fun inode entry =>
                      ∃ vol,
                        volumes (pending (sess st)) !! inode_vol inode
                          = Some vol
                        ∧ entry.1 = vol_fd vol
                        ∧ lookup_ino_path_one w (vol_fd vol) (ino inode)
                          = inr entry.2)
                   cands op)
    ∧ (soft < 2 * inode_count comm3 + reserved →
       hard < 2 * inode_count comm3 + reserved → op = []).
Proof.
  intros Hrun. apply dedup_comm3_cases in Hrun.
  destruct Hrun as [(_ & _ & _ & ->)|(st1 & r1 & soft' & Hrun & _ & Hst1)].
  { exists []. simpl. rewrite app_nil_r.
    split; [done|]. split; [lia|]. split; [|done].
    apply (opens_of_nil w (volumes (pending (sess st)))
             (comm_inodes comm3)). }
  apply clone_group_inv in Hrun as (_ & _ & op & Hop & Hlen & Hof).
  assert (opened st1 = opened st ∧ sess st1 = sess st) as [Hs Hsess]
    by (destruct Hst1 as [(_ & -> & _)|(_ & _ & _ & ->)]; done).
  exists op. rewrite <- Hs. split; [done|]. split; [done|].
  split; [by rewrite <- Hsess|].
  intros ? ?. destruct Hst1 as [(? & _)|(_ & ? & _)]; lia.
Qed.

Lemma group_opens_each_candidate_once_witness :
  ∃ r st' op cands,
    dedup_comm3 CloneExamples.unlinked_world 1 8
      (CloneExamples.comm3_of CloneExamples.rows345) 1024 2048
      (CloneExamples.state (1024, 2048) CloneExamples.rows345) = (r, st')
    ∧ opened st' = op ∧ (length op ≤ 3)%nat
    ∧ sublist cands CloneExamples.rows345
    ∧ Forall2 (fun inode entry =>
                 ∃ vol,
                   volumes
                     (pending
                        (sess (CloneExamples.state (1024, 2048)
                                 CloneExamples.rows345)))
                     !! inode_vol inode = Some vol
                   ∧ entry.1 = vol_fd vol
                   ∧ lookup_ino_path_one CloneExamples.unlinked_world
                       (vol_fd vol) (ino inode) = inr entry.2)
              cands op.
Proof.
  destruct (dedup_comm3 CloneExamples.unlinked_world 1 8
      (CloneExamples.comm3_of CloneExamples.rows345) 1024 2048
      (CloneExamples.state (1024, 2048) CloneExamples.rows345)) as [r st'] eqn:Hrun.
  destruct (group_opens_each_candidate_once CloneExamples.unlinked_world 1 8
           (CloneExamples.comm3_of CloneExamples.rows345) 1024 2048
           (CloneExamples.state (1024, 2048) CloneExamples.rows345) st' r Hrun)
    as (op & Hop & Hlen & (cands & Hsub & Hall) & _).
  exists r, st', op, cands. split; [reflexivity|]. split; [exact Hop|].
  split; [exact Hlen|]. split; [exact Hsub|exact Hall].
Defined.


(** X11: the dictionaries fd_names, fd_inodes and by_hash are never asked
    for a key they do not hold: the only exceptions that leave a group are
    AttributeError (a candidate whose volume the session does not hold),
    AssertionError (equal digests, different bytes) and the IOError of a
    path lookup or an open; never KeyError. *)
Theorem group_raises_only_expected (w : World) (fs reserved : N)
    (comm3 : Comm3) (soft hard : N) (st st' : State) (e : exn) :
  dedup_comm3 w fs reserved comm3 soft hard st = (Raise e, st') →
  e = AttributeError ∨ e = AssertionError ∨ ∃ errno, e = IOError errno.
Proof.
  intros Hrun. apply dedup_comm3_cases in Hrun.
  destruct Hrun as [(_ & _ & [=] & _)|(st1 & r1 & soft' & Hrun & Hr & _)].
  apply clone_group_inv in Hrun as (_ & Hsafe & _).
  destruct r1 as [[]|e1]; [done|]. injection Hr as ->. by apply Hsafe.
Qed.

Lemma group_raises_only_expected_witness :
  ∃ e st',
    dedup_comm3 CloneExamples.collision_world 1 8
      (CloneExamples.comm3_of CloneExamples.rows345) 1024 2048
      (CloneExamples.state (1024, 2048) CloneExamples.rows345) = (Raise e, st')
    ∧ (e = AttributeError ∨ e = AssertionError ∨ ∃ errno, e = IOError errno).
Proof.
  assert (∃ e st',
    dedup_comm3 CloneExamples.collision_world 1 8
      (CloneExamples.comm3_of CloneExamples.rows345) 1024 2048
      (CloneExamples.state (1024, 2048) CloneExamples.rows345) = (Raise e, st'))
    as (e & st' & Hrun).
  { vm_compute. eauto. }
  exists e, st'. split; [exact Hrun|].
  exact (group_raises_only_expected CloneExamples.collision_world 1 8
           (CloneExamples.comm3_of CloneExamples.rows345) 1024 2048
           (CloneExamples.state (1024, 2048) CloneExamples.rows345) st' e Hrun).
Defined.


(** X12: the audit trail of a group.  Whatever its outcome, a group only
    appends to the DedupEvent and DedupEventInode tables; every event it
    appends carries the filesystem, the group's size and the time of
    system_now, has an inode_count of at least 2 and therefore an
    estimated_space_gain of at least the group's size; and if it appended
    any event, the session is committed when the group ends, even when it
    ends with an exception. *)
Theorem group_audit_trail (w : World) (fs reserved : N) (comm3 : Comm3)
    (soft hard : N) (st st' : State) (r : result N) :
  dedup_comm3 w fs reserved comm3 soft hard st = (r, st') →
  let before := pending (sess st) in
  let after := pending (sess st') in
  ∃ evs rws,
    dedup_events after = dedup_events before ++ evs
    ∧ dedup_event_inodes after = dedup_event_inodes before ++ rws
    ∧ (evs ≠ [] → committed (sess st') = after)
    ∧ ∀ id evt,
        dedup_events after !! id = Some evt →
        (length (dedup_events before) ≤ id)%nat →
        evt = {| evt_fs := fs; item_size := comm_size comm3;
                 created := system_now w |}
        ∧ (2 ≤ LogModel.inode_count after id)%nat
        ∧ (Z.of_N (comm_size comm3) ≤ LogModel.estimated_space_gain after id evt)%Z.
Proof.
  intros Hrun. cbv zeta. apply dedup_comm3_cases in Hrun.
  destruct Hrun as [(_ & _ & _ & ->)|(st1 & r1 & soft' & Hrun & _ & Hst1)].
  { exists [], []. simpl. rewrite !app_nil_r.
    split; [done|]. split; [done|]. split; [done|].
    intros id evt Hid Hge. apply lookup_lt_Some in Hid. lia. }
  apply clone_group_inv in Hrun as ([_ Haud] & _).
  assert (sess st1 = sess st) as Hs
    by (destruct Hst1 as [(_ & -> & _)|(_ & _ & _ & ->)]; done).
  destruct Haud as (evs & rws & He & Hr & Hall & Hcnt & Hc).
  rewrite Hs in *. exists evs, rws.
  split; [done|]. split; [done|]. split; [done|].
  intros id evt Hid Hge. rewrite He in Hid.
  rewrite lookup_app_r in Hid by done.
  assert (Hevt : evt = {| evt_fs := fs; item_size := comm_size comm3;
                          created := system_now w |}).
  { apply Hall. by eapply list_elem_of_lookup_2. }
  assert (Hcount : (2 ≤ LogModel.inode_count (pending (sess st')) id)%nat).
  { unfold LogModel.inode_count. rewrite Hr, filter_app, length_app.
    apply lookup_lt_Some in Hid.
    specialize (Hcnt (id - length (dedup_events (pending (sess st))))%nat Hid).
    replace (length (dedup_events (pending (sess st)))
             + (id - length (dedup_events (pending (sess st)))))%nat
      with id in Hcnt by lia.
    lia. }
  split; [done|]. split; [done|].
  unfold LogModel.estimated_space_gain. rewrite Hevt. simpl. nia.
Qed.

Lemma group_audit_trail_witness :
  ∃ r st' evt,
    dedup_comm3 CloneExamples.quiet_world 1 8
      (CloneExamples.comm3_of CloneExamples.rows345) 1024 2048
      (CloneExamples.state (1024, 2048) CloneExamples.rows345) = (r, st')
    ∧ dedup_events (pending (sess st')) !! 0%nat = Some evt
    ∧ evt = {| evt_fs := 1; item_size := 16 * CloneExamples.MiB;
               created := 1700000000 |}
    ∧ (2 ≤ LogModel.inode_count (pending (sess st')) 0)%nat
    ∧ committed (sess st') = pending (sess st').
Proof.
  assert (∃ r st' evt,
    dedup_comm3 CloneExamples.quiet_world 1 8
      (CloneExamples.comm3_of CloneExamples.rows345) 1024 2048
      (CloneExamples.state (1024, 2048) CloneExamples.rows345) = (r, st')
    ∧ dedup_events (pending (sess st')) !! 0%nat = Some evt)
    as (r & st' & evt & Hrun & Hevt).
  { vm_compute. eauto. }
  destruct (group_audit_trail CloneExamples.quiet_world 1 8
           (CloneExamples.comm3_of CloneExamples.rows345) 1024 2048
           (CloneExamples.state (1024, 2048) CloneExamples.rows345) st' r Hrun)
    as (evs & rws & Hevs & _ & Hcommit & Hall).
  destruct (Hall 0%nat evt Hevt ltac:(simpl; lia)) as (Heq & Hcount & _).
  exists r, st', evt. split; [exact Hrun|]. split; [exact Hevt|].
  split; [exact Heq|]. split; [exact Hcount|].
  apply Hcommit. intros ->. rewrite app_nil_r in Hevs.
  rewrite Hevs in Hevt. discriminate Hevt.
Defined.


(** * Properties of windowed_query *)

Section WindowedQuery.

Import Windowed.

Context {A : Type} (size_of : A → Z).

#[local] Existing Instance by_size_desc_dec.

#[local] Instance by_size_desc_trans : Transitive (by_size_desc size_of).
Proof. unfold by_size_desc. intros a b c ? ?. lia. Qed.

#[local] Instance by_size_desc_total : Total (by_size_desc size_of).
Proof. unfold by_size_desc. intros a b. lia. Qed.

#[local] Abbreviation in_window ws := (fun el => (size_of el ≤ ws)%Z).
#[local] Abbreviation sorted_window rows ws :=
  (merge_sort (by_size_desc size_of) (filter (in_window ws) rows)).

Lemma sorted_window_sorted rows ws :
  StronglySorted (by_size_desc size_of) (sorted_window rows ws).
Proof. apply StronglySorted_merge_sort; apply _. Qed.

Lemma sorted_window_elem rows ws x :
  x ∈ sorted_window rows ws ↔ x ∈ rows ∧ (size_of x ≤ ws)%Z.
Proof.
  rewrite merge_sort_Permutation, list_elem_of_filter. tauto.
Qed.

Lemma filter_none {B} (P : B → Prop) `{∀ x, Decision (P x)} (l : list B) :
  (∀ x, x ∈ l → ¬ P x) → filter P l = [].
Proof.
  induction l as [|x l IH]; intros Hall; [done|].
  rewrite filter_cons_False by (apply Hall; left).
  apply IH. intros y Hy. apply Hall. by right.
Qed.

Lemma filter_weaker_length {B} (P Q : B → Prop) `{∀ x, Decision (P x)}
    `{∀ x, Decision (Q x)} (l : list B) :
  (∀ x, P x → Q x) →
  (length (filter P l) ≤ length (filter Q l))%nat.
Proof.
  intros HPQ. induction l as [|z l IH]; [done|].
  rewrite !filter_cons.
  destruct (decide (P z)); destruct (decide (Q z)); simpl; try lia.
  exfalso. auto.
Qed.

Lemma filter_strict_length {B} (P Q : B → Prop) `{∀ x, Decision (P x)}
    `{∀ x, Decision (Q x)} (l : list B) (y : B) :
  (∀ x, P x → Q x) → y ∈ l → Q y → ¬ P y →
  (length (filter P l) < length (filter Q l))%nat.
Proof.
  intros HPQ. induction l as [|x l IH]; intros Hy HQ HP.
  { by apply elem_of_nil in Hy. }
  pose proof (filter_weaker_length P Q l HPQ) as Hle.
  rewrite !filter_cons.
  apply elem_of_cons in Hy as [<-|Hy].
  - destruct (decide (P y)); [done|]. destruct (decide (Q y)); [|done].
    simpl. lia.
  - specialize (IH Hy HQ HP).
    destruct (decide (P x)); destruct (decide (Q x)); simpl; try lia.
    exfalso. auto.
Qed.

(** One turn of the loop: the window that was read, its last element, and
    what that says about the next window. *)
Lemma select_window_last rows ws per el :
  last (select_window size_of rows ws per) = Some el →
  el ∈ rows ∧ (size_of el ≤ ws)%Z
  ∧ (∀ x, x ∈ select_window size_of rows ws per →
          x ∈ rows ∧ (size_of el ≤ size_of x ≤ ws)%Z)
  ∧ StronglySorted (by_size_desc size_of) (select_window size_of rows ws per)
  ∧ (length (select_window size_of rows ws per) ≤ per)%nat.
Proof.
  unfold select_window. intros Hlast.
  pose proof (sorted_window_sorted rows ws) as Hsorted.
  rewrite <- (take_drop per (sorted_window rows ws)) in Hsorted.
  apply StronglySorted_app_1_l in Hsorted.
  apply last_Some in Hlast as [li' Hli]. rewrite Hli in Hsorted |- *.
  assert (Hsub : ∀ x, x ∈ li' ++ [el] → x ∈ rows ∧ (size_of x ≤ ws)%Z).
  { intros x Hx. rewrite <- Hli in Hx.
    apply sorted_window_elem. by apply (subseteq_take per). }
  destruct (Hsub el) as [? ?].
  { apply elem_of_app. right. apply list_elem_of_here. }
  split; [done|]. split; [done|]. split; [|split; [done|]].
  - intros x Hx. destruct (Hsub x Hx) as [? ?]. split; [done|]. split; [|done].
    apply elem_of_app in Hx as [Hx| ->%list_elem_of_singleton]; [|lia].
    apply (StronglySorted_app_1_elem_of (by_size_desc size_of) li' [el]);
      [done..|apply list_elem_of_here].
  - rewrite <- Hli, length_take. lia.
Qed.

(** X13: against any table, the generator stops after at most one turn per
    row plus one (so fuel above the number of rows is enough).  It yields
    only rows of the table whose size is at most window_start, in order of
    non-increasing size, and of the rows that share one size it yields at
    most [per]: rows beyond that are passed over. *)
Theorem windowed_query_yields (rows : list A) (per fuel : nat)
    (window_start : Z) :
  (length rows < fuel)%nat →
  ∃ out,
    windowed_query size_of fuel window_start rows per = Some out
    ∧ (∀ x, x ∈ out → x ∈ rows ∧ (size_of x ≤ window_start)%Z)
    ∧ StronglySorted (by_size_desc size_of) out
    ∧ ∀ s, (length (filter (fun x => size_of x = s) out) ≤ per)%nat.
Proof.
  intros Hfuel.
  assert (Hmeasure :
    (length (filter (in_window window_start) rows) < fuel)%nat).
  { pose proof (length_filter (in_window window_start) rows). lia. }
  clear Hfuel. revert window_start Hmeasure.
  induction fuel as [|fuel IH]; intros ws Hm; [lia|]. simpl.
  destruct (last (select_window size_of rows ws per)) as [el|] eqn:Hlast.
  2:{ exists []. split; [done|]. split; [by intros ? ?%elem_of_nil|].
      split; [constructor|]. intros s. simpl. lia. }
  destruct (select_window_last _ _ _ _ Hlast)
    as (Hel & Hws & Hli & Hsorted & Hlen).
  destruct (IH (size_of el - 1)%Z) as (rest & -> & Hrest & Hrsorted & Hcount).
  { pose proof (filter_strict_length (in_window (size_of el - 1))
                  (in_window ws) rows el) as Hlt.
    simpl in Hlt. specialize (Hlt ltac:(intros x; lia) Hel Hws ltac:(lia)).
    lia. }
  eexists. split; [done|]. split; [|split].
  - intros x [Hx|Hx]%elem_of_app.
    + destruct (Hli x Hx) as [? ?]. split; [done|lia].
    + destruct (Hrest x Hx) as [? ?]. split; [done|lia].
  - apply StronglySorted_app_2; [|done..].
    intros x1 x2 H1 H2. destruct (Hli x1 H1) as [_ ?].
    destruct (Hrest x2 H2) as [_ ?]. unfold by_size_desc. lia.
  - intros s. rewrite filter_app, length_app.
    destruct (decide (size_of el ≤ s)%Z).
    + rewrite (filter_none _ rest).
      * pose proof (length_filter (fun x => size_of x = s)
                      (select_window size_of rows ws per)). simpl. lia.
      * intros x Hx. destruct (Hrest x Hx) as [_ ?]. lia.
    + rewrite (filter_none _ (select_window size_of rows ws per)).
      * apply Hcount.
      * intros x Hx. destruct (Hli x Hx) as [_ ?]. lia.
Qed.

Lemma NoDup_fmap_inj_on {B C} (f : B → C) (l : list B) x y :
  NoDup (f <$> l) → x ∈ l → y ∈ l → f x = f y → x = y.
Proof.
  induction l as [|z l IH]; intros Hnd Hx Hy Hf.
  { by apply elem_of_nil in Hx. }
  rewrite fmap_cons in Hnd. apply NoDup_cons in Hnd as [Hz Hnd].
  apply elem_of_cons in Hx as [->|Hx]; apply elem_of_cons in Hy as [->|Hy].
  - done.
  - exfalso. apply Hz. rewrite Hf. by apply list_elem_of_fmap_2.
  - exfalso. apply Hz. rewrite <- Hf. by apply list_elem_of_fmap_2.
  - by apply IH.
Qed.

(** With pairwise different sizes, the window that follows a window is
    what the sorted table has left. *)
Lemma next_window rows ws per el :
  NoDup (size_of <$> rows) →
  last (take per (sorted_window rows ws)) = Some el →
  sorted_window rows (size_of el - 1) = drop per (sorted_window rows ws).
Proof.
  intros Hnd Hlast.
  pose proof (sorted_window_sorted rows ws) as Hsorted.
  assert (Hndw : NoDup (sorted_window rows ws)).
  { rewrite merge_sort_Permutation. apply NoDup_filter.
    by eapply NoDup_fmap_1. }
  assert (Hin : ∀ x, x ∈ sorted_window rows ws →
                     x ∈ rows ∧ (size_of x ≤ ws)%Z).
  { intros x. by rewrite sorted_window_elem. }
  assert (Hperm : filter (in_window (size_of el - 1)) (sorted_window rows ws)
                  ≡ₚ filter (in_window (size_of el - 1)) rows).
  { assert (size_of el ≤ ws)%Z as Hel.
    { apply Hin. apply (subseteq_take per). by apply last_Some_elem_of. }
    rewrite merge_sort_Permutation, list_filter_filter.
    rewrite (list_filter_iff _ (fun x => (size_of x ≤ size_of el - 1)%Z) rows);
      [done|].
    intros x. lia. }
  remember (sorted_window rows ws) as l eqn:Hl. clear Hl.
  remember (drop per l) as rest eqn:Hdrop.
  apply last_Some in Hlast as [li' Htake].
  assert (Hl : l = (li' ++ [el]) ++ rest).
  { by rewrite <- Htake, Hdrop, take_drop. }
  clear Hdrop Htake. subst l.
  assert (Hel1 : el ∈ li' ++ [el]).
  { apply elem_of_app. right. apply list_elem_of_here. }
  assert (Hel2 : el ∈ rows).
  { apply Hin. apply elem_of_app. by left. }
  assert (Hrest : ∀ x, x ∈ rest → (size_of x ≤ size_of el - 1)%Z).
  { intros x Hx.
    pose proof (StronglySorted_app_1_elem_of (by_size_desc size_of)
                  (li' ++ [el]) rest el x Hsorted Hel1 Hx) as Hle.
    unfold by_size_desc in Hle.
    destruct (decide (size_of x = size_of el)) as [Heq|]; [|lia].
    exfalso. apply NoDup_app in Hndw as (_ & Hdisj & _).
    apply (Hdisj el); [done|].
    replace el with x; [done|].
    apply (NoDup_fmap_inj_on size_of rows); [done| |done|done].
    apply Hin. apply elem_of_app. by right. }
  assert (Hli : ∀ x, x ∈ li' ++ [el] → ¬ (size_of x ≤ size_of el - 1)%Z).
  { intros x [Hx| ->%list_elem_of_singleton]%elem_of_app; [|lia].
    pose proof (StronglySorted_app_1_elem_of (by_size_desc size_of)
                  li' [el] x el
                  (StronglySorted_app_1_l _ _ _ Hsorted) Hx
                  (list_elem_of_here _ _))
      as Hle.
    unfold by_size_desc in Hle. lia. }
  rewrite filter_app, (filter_none _ (li' ++ [el])) in Hperm by done.
  rewrite (filter_all_true _ rest) in Hperm by done. simpl in Hperm.
  apply StronglySorted_unique_strong with (R := by_size_desc size_of).
  - intros x1 x2 H1 H2 ? ?. apply sorted_window_elem in H1 as [H1 _].
    destruct (Hin x2) as [H2' _]; [apply elem_of_app; by right|].
    apply (NoDup_fmap_inj_on size_of rows); [done..|].
    unfold by_size_desc in *. lia.
  - apply sorted_window_sorted.
  - by apply StronglySorted_app_1_r in Hsorted.
  - by rewrite merge_sort_Permutation, Hperm.
Qed.

Lemma windowed_query_sorted_window rows per fuel ws :
  NoDup (size_of <$> rows) →
  (0 < per)%nat →
  (length (filter (in_window ws) rows) < fuel)%nat →
  windowed_query size_of fuel ws rows per = Some (sorted_window rows ws).
Proof.
  intros Hnd Hper. revert ws.
  induction fuel as [|fuel IH]; intros ws Hm; [lia|]. simpl.
  destruct (last (select_window size_of rows ws per)) as [el|] eqn:Hlast.
  - destruct (select_window_last _ _ _ _ Hlast) as (Hel & Hws & _).
    rewrite IH.
    + simpl. f_equal. unfold select_window in *.
      rewrite (next_window rows ws per el Hnd Hlast). apply take_drop.
    + pose proof (filter_strict_length (in_window (size_of el - 1))
                    (in_window ws) rows el) as Hlt.
      simpl in Hlt. specialize (Hlt ltac:(intros x; lia) Hel Hws ltac:(lia)).
      lia.
  - f_equal. unfold select_window in Hlast.
    apply last_None in Hlast.
    destruct (sorted_window rows ws) as [|x l]; [done|].
    destruct per; [lia|done].
Qed.

(** X14: when the rows have pairwise different sizes (as the size groups
    of Commonality1 have) and [per] is at least 1, the generator yields
    every row whose size is at most window_start exactly once, largest
    first. *)
Theorem windowed_query_enumerates (rows : list A) (per fuel : nat)
    (window_start : Z) :
  NoDup (size_of <$> rows) →
  (0 < per)%nat →
  (length rows < fuel)%nat →
  ∃ out,
    windowed_query size_of fuel window_start rows per = Some out
    ∧ out ≡ₚ filter (fun el => (size_of el ≤ window_start)%Z) rows
    ∧ NoDup out
    ∧ StronglySorted (by_size_desc size_of) out.
Proof.
  intros Hnd Hper Hfuel. eexists. split; [|split; [|split]].
  - apply windowed_query_sorted_window; [done..|].
    pose proof (length_filter (in_window window_start) rows). lia.
  - apply merge_sort_Permutation.
  - rewrite merge_sort_Permutation. apply NoDup_filter.
    by eapply NoDup_fmap_1.
  - apply sorted_window_sorted.
Qed.

End WindowedQuery.

Lemma windowed_query_yields_witness :
  ∃ out,
    Windowed.windowed_query (fun x : Z => x) 7 10 [3; 7; 7; 12; 7; 5]%Z 2
      = Some out
    ∧ StronglySorted (Windowed.by_size_desc (fun x : Z => x)) out
    ∧ (length (filter (fun x => x = 7%Z) out) ≤ 2)%nat.
Proof.
  destruct (windowed_query_yields (fun x : Z => x) [3; 7; 7; 12; 7; 5]%Z
              2 7 10 ltac:(simpl; lia))
    as (out & Hrun & _ & Hsorted & Hcount).
  exists out. split; [exact Hrun|]. split; [exact Hsorted|exact (Hcount 7%Z)].
Defined.

Lemma windowed_query_enumerates_witness :
  ∃ out,
    Windowed.windowed_query (fun x : Z => x) 6 10 [3; 7; 12; 9; 5]%Z 2
      = Some out
    ∧ out ≡ₚ [3; 7; 9; 5]%Z.
Proof.
  destruct (windowed_query_enumerates (fun x : Z => x) [3; 7; 12; 9; 5]%Z
              2 6 10
              ltac:(apply (bool_decide_unpack _); vm_compute; exact I)
              ltac:(lia) ltac:(simpl; lia))
    as (out & Hrun & Hperm & _).
  exists out. split; [exact Hrun|exact Hperm].
Defined.

(** * Clone safety *)

Import CloneSafety.

Lemma pairs_of_nil P : pairs_of P [].
Proof. intros ? ? Hin. by apply elem_of_nil in Hin. Qed.

Lemma pairs_of_app P log1 log2 :
  pairs_of P log1 → pairs_of P log2 → pairs_of P (log1 ++ log2).
Proof.
  intros H1 H2 dest src [Hin|Hin]%elem_of_app; [by apply H1|by apply H2].
Qed.

Lemma pairs_of_weaken (P Q : File → File → Prop) log :
  (∀ d s, P d s → Q d s) → pairs_of P log → pairs_of Q log.
Proof.
  intros HPQ HP dest src Hin.
  destruct (HP dest src Hin) as (d & s & ? & ? & ?). exists d, s. auto.
Qed.

Lemma clone_dests_pairs w loc sfile dfiles acc st r st' :
  clone_dests w loc sfile dfiles acc st = (r, st') →
  ∃ log, cloned st' = cloned st ++ log
         ∧ pairs_of (fun d s => s = sfile ∧ d ∈ dfiles
                                ∧ cmp_files w sfile d = true) log.
Proof.
  revert acc st. induction dfiles as [|d dfiles IH]; intros acc st; simpl.
  { intros [= <- <-]. exists []. split; [by rewrite app_nil_r|].
    apply pairs_of_nil. }
  munfold.
  assert (Hnone : ∃ log, cloned st = cloned st ++ log
                         ∧ pairs_of (fun d0 s => s = sfile ∧ d0 ∈ d :: dfiles
                                       ∧ cmp_files w sfile d0 = true) log).
  { exists []. split; [by rewrite app_nil_r|apply pairs_of_nil]. }
  destruct (fd_names loc !! fileno sfile); [|by intros [= <- <-]].
  destruct (fd_names loc !! fileno d); [|by intros [= <- <-]].
  destruct (cmp_files w sfile d) eqn:Hcmp; simpl; [|by intros [= <- <-]].
  intros Hrest.
  assert (∃ acc', clone_dests w loc sfile dfiles acc'
                    (with_cloned (fun l => l ++ [(fileno d, fileno sfile)]) st)
                  = (r, st')) as [acc' Hrun].
  { destruct (clone_data w (fileno d) (fileno sfile)); eauto. }
  apply IH in Hrun as (log & Hlog & Hfrom). simpl in Hlog.
  exists ([(fileno d, fileno sfile)] ++ log).
  split; [by rewrite Hlog, <- app_assoc|].
  apply pairs_of_app.
  - intros dest src [= -> ->]%list_elem_of_singleton.
    exists d, sfile. split; [done|]. split; [done|].
    split; [done|]. split; [left|done].
  - eapply pairs_of_weaken; [|exact Hfrom].
    intros d0 sf (? & ? & ?). split; [done|]. split; [by right|done].
Qed.

Lemma clone_fileset_pairs w fs comm3 loc fileset st r st' :
  clone_fileset w fs comm3 loc fileset st = (r, st') →
  ∃ log, cloned st' = cloned st ++ log
         ∧ pairs_of (fun d s => d ∈ fileset ∧ s ∈ fileset
                                ∧ cmp_files w s d = true) log.
Proof.
  assert (Hnone : ∃ log, cloned st = cloned st ++ log
            ∧ pairs_of (fun d s => d ∈ fileset ∧ s ∈ fileset
                                   ∧ cmp_files w s d = true) log).
  { exists []. split; [by rewrite app_nil_r|apply pairs_of_nil]. }
  unfold clone_fileset. destruct fileset as [|sfile [|d dfiles]];
    [by intros [= <- <-]..|].
  rewrite bind_run.
  destruct (clone_dests _ _ _ _ _ _) as [[succ|e] st1] eqn:Hd;
    apply clone_dests_pairs in Hd as (log & Hlog & Hfrom).
  - assert (cloned st' = cloned st1 → ∃ log0,
              cloned st' = cloned st ++ log0
              ∧ pairs_of (fun d0 s => d0 ∈ sfile :: d :: dfiles
                            ∧ s ∈ sfile :: d :: dfiles
                            ∧ cmp_files w s d0 = true) log0) as Hdone.
    { intros Heq. exists log. split; [congruence|].
      eapply pairs_of_weaken; [|exact Hfrom].
      intros d0 sf (-> & ? & ?). split; [by right|]. split; [left|done]. }
    destruct succ as [|s1 succ].
    + intros [= <- <-]. by apply Hdone.
    + intros Hev. apply record_event_cloned in Hev. by apply Hdone.
  - intros [= <- <-]. exists log. split; [done|].
    eapply pairs_of_weaken; [|exact Hfrom].
    intros d0 sf (-> & ? & ?). split; [by right|]. split; [left|done].
Qed.

Lemma clone_buckets_pairs w fs comm3 loc buckets st r st' :
  for_each (clone_fileset w fs comm3 loc) buckets st = (r, st') →
  ∃ log, cloned st' = cloned st ++ log
         ∧ pairs_of (fun d s => ∃ b, b ∈ buckets ∧ d ∈ b ∧ s ∈ b
                                     ∧ cmp_files w s d = true) log.
Proof.
  revert st. induction buckets as [|b buckets IH]; intros st; simpl.
  { intros [= <- <-]. exists []. split; [by rewrite app_nil_r|].
    apply pairs_of_nil. }
  rewrite bind_run.
  destruct (clone_fileset w fs comm3 loc b st) as [[[]|e] st1] eqn:Hb;
    apply clone_fileset_pairs in Hb as (log1 & Hlog1 & Hfrom1).
  - intros Hrest. apply IH in Hrest as (log2 & Hlog2 & Hfrom2).
    exists (log1 ++ log2). split; [by rewrite Hlog2, Hlog1, app_assoc|].
    apply pairs_of_app.
    + eapply pairs_of_weaken; [|exact Hfrom1].
      intros df sf (? & ? & ?). exists b. split; [left|done].
    + eapply pairs_of_weaken; [|exact Hfrom2].
      intros df sf (b' & ? & ?). exists b'. split; [by right|done].
  - intros [= <- <-]. exists log1. split; [done|].
    eapply pairs_of_weaken; [|exact Hfrom1].
    intros df sf (? & ? & ?). exists b. split; [left|done].
Qed.

Lemma bucket_append_by_digest w by_hash f :
  buckets_by_digest w by_hash →
  buckets_by_digest w (bucket_append (sha1_digest w f) f by_hash).
Proof.
  intros Hb digest bucket g. unfold bucket_append.
  destruct (decide (digest = sha1_digest w f)) as [->|Hne].
  - rewrite lookup_insert_eq. intros [= <-] [Hg| ->%list_elem_of_singleton]%elem_of_app;
      [|done].
    destruct (by_hash !! sha1_digest w f) as [old|] eqn:Hold; simpl in Hg.
    + by eapply Hb.
    + by apply elem_of_nil in Hg.
  - rewrite lookup_insert_ne by done. apply Hb.
Qed.

Lemma hash_candidate_by_digest w comm3 loc in_write_use by_hash afile st r st' :
  buckets_by_digest w by_hash →
  hash_candidate w comm3 loc in_write_use by_hash afile st = (r, st') →
  ∀ by_hash', r = Ok by_hash' → buckets_by_digest w by_hash'.
Proof.
  intros Hb. unfold hash_candidate. munfold. cbv zeta.
  destruct (fd_inodes loc !! fileno afile) as [inode|];
    [|by intros [= <- <-] ? [=]].
  simpl. case_bool_decide.
  { destruct (fd_names loc !! fileno afile); intros [= <- <-] ? [=]; by subst. }
  destruct (N.eqb_spec (fstat w (fileno afile)).1 (ino inode)); simpl.
  2:{ intros [= <- <-] ? [= <-]. done. }
  destruct (volumes (pending (sess st)) !! inode_vol inode) as [vol|];
    [|by intros [= <- <-] ? [=]].
  destruct (N.eqb_spec (fstat w (fileno afile)).2 (vol_st_dev vol)); simpl.
  2:{ intros [= <- <-] ? [= <-]. done. }
  destruct (N.eqb_spec (tell w afile) (comm_size comm3)); simpl.
  2:{ destruct (_ <? _); intros [= <- <-] ? [= <-]; done. }
  intros [= <- <-] ? [= <-]. by apply bucket_append_by_digest.
Qed.

(** Every clone_data call of clone_group is made on a verified pair. *)
Lemma clone_group_pairs w fs comm3 st r st' :
  clone_group w fs comm3 st = (r, st') →
  ∃ log,
    cloned st' = cloned st ++ log
    ∧ pairs_of (verified_pair w comm3 (volumes (pending (sess st)))) log.
Proof.
  assert (Hnone : ∀ st1, cloned st1 = cloned st →
            ∃ log, cloned st1 = cloned st ++ log
              ∧ pairs_of (verified_pair w comm3
                            (volumes (pending (sess st)))) log).
  { intros st1 H1. exists []. split; [by rewrite app_nil_r|].
    apply pairs_of_nil. }
  unfold clone_group. rewrite bind_run.
  destruct (for_fold (open_candidate w) _ _ _) as [r1 st1] eqn:Hopen.
  apply (for_fold_invariant _
           (fun loc => ∀ fd i, fd_inodes loc !! fd = Some i →
                               i ∈ comm_inodes comm3)
           (clone_frame st))
    in Hopen as [[Hc1 Hv1] Hloc];
    [| |by intros ? ?; simpl; rewrite lookup_empty|apply clone_frame_refl].
  2:{ intros loc0 x st2 r2 st2' Hx Hinv Hst2 Hrun.
      eapply open_candidate_inodes in Hrun as [Hf ?]; [|done..].
      split; [by eapply clone_frame_trans|done]. }
  destruct r1 as [loc|e]; [|intros [= <- <-]; by apply Hnone].
  specialize (Hloc loc eq_refl).
  cbv zeta. rewrite bind_run.
  destruct (for_fold (hash_candidate _ _ _ _) _ _ _) as [r2 st2] eqn:Hhash.
  apply (for_fold_invariant _
           (fun bh => buckets_checked w comm3 (volumes (pending (sess st))) bh
                      ∧ buckets_by_digest w bh)
           (clone_frame st))
    in Hhash as [[Hc2 Hv2] Hbh];
    [| |by split; intros ? ? ?; rewrite lookup_empty|by split].
  2:{ intros bh f st3 r3 st3' _ [Hchk Hdig] [Hc3 Hv3] Hrun.
      pose proof (hash_candidate_by_digest _ _ _ _ _ _ _ _ _ Hdig Hrun) as Hd.
      eapply hash_candidate_checked in Hrun as [Hf ?]; [|done..].
      split; [by eapply clone_frame_trans|]. intros b' ->. split; auto. }
  destruct r2 as [by_hash|e]; [|intros [= <- <-]; by apply Hnone].
  destruct (Hbh _ eq_refl) as [Hchk Hdig].
  intros Hclone. apply clone_buckets_pairs in Hclone as (log & Hlog & Hfrom).
  exists log. split; [congruence|].
  eapply pairs_of_weaken; [|exact Hfrom].
  intros df sf (b & Hb & Hd & Hs & Hcmp).
  apply list_elem_of_fmap in Hb as ([digest b'] & -> & Hb).
  apply elem_of_map_to_list in Hb. simpl in *.
  split; [done|]. split; [|split; by eapply Hchk].
  by rewrite (Hdig _ _ _ Hb Hd), (Hdig _ _ _ Hb Hs).
Qed.

(** X15: clone_data is only ever called on a verified pair.  Whatever the
    outcome of a group, for every call clone_data(dest, src) it made, the
    two descriptors belong to files whose bytes cmp_files found equal,
    whose SHA-1 digests are equal, whose length as read is the group's
    size, and for which fstat named the inode and device of a candidate of
    the group. *)
Theorem group_clones_only_verified_pairs (w : World) (fs reserved : N)
    (comm3 : Comm3) (soft hard : N) (st st' : State) (r : result N) :
  dedup_comm3 w fs reserved comm3 soft hard st = (r, st') →
  ∃ log,
    cloned st' = cloned st ++ log
    ∧ ∀ dest src, (dest, src) ∈ log →
        ∃ dfile sfile,
          fileno dfile = dest ∧ fileno sfile = src
          ∧ cmp_files w sfile dfile = true
          ∧ sha1_digest w dfile = sha1_digest w sfile
          ∧ checked w comm3 (volumes (pending (sess st))) dfile
          ∧ checked w comm3 (volumes (pending (sess st))) sfile.
Proof.
  intros Hrun. apply dedup_comm3_cases in Hrun.
  destruct Hrun as [(_ & _ & _ & ->)|(st1 & r1 & soft' & Hrun & _ & Hst1)].
  { exists []. split; [by rewrite app_nil_r|].
    intros ? ? Hin. by apply elem_of_nil in Hin. }
  apply clone_group_pairs in Hrun as (log & Hlog & Hpairs).
  assert (sess st1 = sess st ∧ cloned st1 = cloned st) as [Hs Hc]
    by (destruct Hst1 as [(_ & -> & _)|(_ & _ & _ & ->)]; done).
  rewrite Hs, Hc in *. exists log. split; [done|].
  intros dest src Hin.
  destruct (Hpairs dest src Hin) as (df & sf & ? & ? & ? & ? & ? & ?).
  exists df, sf. done.
Qed.

Lemma group_clones_only_verified_pairs_witness :
  ∃ r st' log,
    dedup_comm3 CloneExamples.quiet_world 1 8
      (CloneExamples.comm3_of CloneExamples.rows345) 1024 2048
      (CloneExamples.state (1024, 2048) CloneExamples.rows345) = (r, st')
    ∧ cloned st' = log
    ∧ Forall (fun pair =>
                ∃ dfile sfile,
                  fileno dfile = pair.1 ∧ fileno sfile = pair.2
                  ∧ cmp_files CloneExamples.quiet_world sfile dfile = true)
             log
    ∧ length log = 2%nat.
Proof.
  assert (∃ r st',
    dedup_comm3 CloneExamples.quiet_world 1 8
      (CloneExamples.comm3_of CloneExamples.rows345) 1024 2048
      (CloneExamples.state (1024, 2048) CloneExamples.rows345) = (r, st')
    ∧ length (cloned st') = 2%nat)
    as (r & st' & Hrun & Hlen).
  { vm_compute. eauto. }
  destruct (group_clones_only_verified_pairs CloneExamples.quiet_world 1 8
              (CloneExamples.comm3_of CloneExamples.rows345) 1024 2048
              (CloneExamples.state (1024, 2048) CloneExamples.rows345)
              st' r Hrun)
    as (log & Hlog & Hpairs).
  exists r, st', log. split; [exact Hrun|]. split; [exact Hlog|].
  split.
  - apply Forall_forall. intros [dest src] Hin.
    destruct (Hpairs dest src Hin) as (df & sf & ? & ? & ? & _).
    exists df, sf. done.
  - exact (eq_trans (f_equal length (eq_sym Hlog)) Hlen).
Defined.

(** * dedup_tracked as a whole *)

(** The outcome of dedup_tracked in closed form: the continuation
    dedup_tracked1 does not occur in it. *)
Lemma dedup_tracked_closed_form (dedup_tracked1 : N → N → N → M unit)
    (volset : list Volume) (st : State) :
  dedup_tracked dedup_tracked1 volset st
  = let st0 := with_skipped (fun _ => []) st in
    match volset with
    | [] => (Raise IndexError, st0)
    | vol0 :: _ =>
        if forallb (fun vol => vol_fs vol =? vol_fs vol0) volset then
          match commonality1 (pending (sess st)) (vol_fs vol0)
                  (vol_id <$> volset) with
          | [] => (Ok tt, with_sess commit st0)
          | _ :: _ => (Raise TypeError, st0)
          end
        else (Raise AssertionError, st0)
    end.
Proof.
  unfold dedup_tracked. rewrite bind_run. unfold set_skipped, modify.
  cbv beta iota zeta. destruct volset as [|vol0 rest]; [done|].
  destruct (forallb _ (vol0 :: rest)) eqn:Hfs; cbv [negb]; [|done].
  rewrite !bind_run. unfold gets at 1. cbv beta iota.
  change (sess (with_skipped (fun _ => []) st)) with (sess st).
  destruct (commonality1 _ _ _) as [|sz szs] eqn:Hcomm; [done|].
  cbn [length]. rewrite bind_run. unfold gets at 1. cbv beta iota.
  change (sess (with_skipped (fun _ => []) st)) with (sess st).
  destruct (first_by_size_desc_is_Some (pending (sess st)) (vol_fs vol0)
              (vol_id <$> (vol0 :: rest))) as [row Hrow]; [by rewrite Hcomm|].
  rewrite bind_run. cbv beta iota.
  change (sess (with_skipped (fun _ => []) st)) with (sess st).
  rewrite Hrow, windowed_query_binding. reflexivity.
Qed.

(** X16: dedup_tracked never reaches the pipeline and never touches the
    tracked data.  For every continuation dedup_tracked1 and every volset,
    the pending catalog, the process limits, the log of opens and the log
    of clones are as before and skipped is empty afterwards.  It returns
    normally only when the volumes share one filesystem and Commonality1
    is empty, and then the session is committed; otherwise it raises
    IndexError (empty volset), AssertionError (a volume of another
    filesystem) or TypeError, and commits nothing. *)
Theorem dedup_tracked_touches_nothing
    (dedup_tracked1 : N → N → N → M unit) (volset : list Volume)
    (st st' : State) (r : result unit) :
  dedup_tracked dedup_tracked1 volset st = (r, st') →
  pending (sess st') = pending (sess st)
  ∧ rlimit_ofile st' = rlimit_ofile st
  ∧ opened st' = opened st
  ∧ cloned st' = cloned st
  ∧ skipped st' = []
  ∧ (r = Ok tt →
     committed (sess st') = pending (sess st)
     ∧ ∃ vol0, head volset = Some vol0
         ∧ (∀ vol, vol ∈ volset → vol_fs vol = vol_fs vol0)
         ∧ commonality1 (pending (sess st)) (vol_fs vol0)
             (vol_id <$> volset) = [])
  ∧ (∀ e, r = Raise e →
       committed (sess st') = committed (sess st)
       ∧ ((e = IndexError ∧ volset = [])
          ∨ (e = AssertionError
             ∧ ∃ vol0 vol, head volset = Some vol0 ∧ vol ∈ volset
                           ∧ vol_fs vol ≠ vol_fs vol0)
          ∨ (e = TypeError
             ∧ ∃ vol0, head volset = Some vol0
                 ∧ commonality1 (pending (sess st)) (vol_fs vol0)
                     (vol_id <$> volset) ≠ []))).
Proof.
  rewrite dedup_tracked_closed_form. cbv zeta.
  destruct volset as [|vol0 rest].
  { intros [= <- <-]. do 6 (split; [done|]).
    intros e [= <-]. split; [done|]. by left. }
  destruct (forallb _ (vol0 :: rest)) eqn:Hfs.
  - destruct (commonality1 _ _ _) as [|sz szs] eqn:Hcomm; intros [= <- <-].
    + do 5 (split; [done|]). split; [|done].
      intros _. split; [done|]. exists vol0. split; [done|]. split; [|done].
      intros vol Hvol. rewrite forallb_forall in Hfs.
      apply N.eqb_eq, Hfs. by apply list_elem_of_In.
    + do 6 (split; [done|]).
      intros e [= <-]. split; [done|]. right. right. split; [done|].
      exists vol0. split; [done|]. by rewrite Hcomm.
  - intros [= <- <-]. do 6 (split; [done|]).
    intros e [= <-]. split; [done|]. right. left. split; [done|].
    exists vol0.
    assert (¬ Forall (fun vol => vol_fs vol = vol_fs vol0) (vol0 :: rest))
      as Hnot.
    { intros Hall. rewrite <- not_true_iff_false in Hfs. apply Hfs.
      apply forallb_forall. intros vol Hvol. apply N.eqb_eq.
      rewrite Forall_forall in Hall. apply Hall. by apply list_elem_of_In. }
    apply not_Forall_Exists in Hnot; [|intros vol; apply _].
    apply Exists_exists in Hnot as (vol & Hvol & Hne).
    exists vol. done.
Qed.

Lemma dedup_tracked_touches_nothing_witness :
  ∃ e st',
    dedup_tracked (fun _ _ _ => mret tt)
      [CloneExamples.vol1; VolsetExamples.vol_elsewhere]
      (CloneExamples.state (1024, 2048) CloneExamples.rows345)
    = (Raise e, st')
    ∧ e = AssertionError
    ∧ pending (sess st')
      = pending (sess (CloneExamples.state (1024, 2048) CloneExamples.rows345))
    ∧ cloned st' = [].
Proof.
  assert (∃ e st',
    dedup_tracked (fun _ _ _ => mret tt)
      [CloneExamples.vol1; VolsetExamples.vol_elsewhere]
      (CloneExamples.state (1024, 2048) CloneExamples.rows345)
    = (Raise e, st') ∧ e = AssertionError)
    as (e & st' & Hrun & He).
  { vm_compute. eauto. }
  destruct (dedup_tracked_touches_nothing (fun _ _ _ => mret tt)
              [CloneExamples.vol1; VolsetExamples.vol_elsewhere]
              (CloneExamples.state (1024, 2048) CloneExamples.rows345)
              st' (Raise e) Hrun)
    as (Hp & _ & _ & Hc & _).
  exists e, st'. split; [exact Hrun|]. split; [exact He|].
  split; [exact Hp|exact Hc].
Defined.

(** * dedup_tracked2 *)

Import Globals Tracked2.

(** The module binds none of the names that do_dedup and the last lines of
    dedup_tracked2 read without defining them. *)
Lemma skipped_is_unbound {A} (k : M A) :
  with_global "skipped" k = raise NameError.
Proof. reflexivity. Qed.

Lemma count3_is_unbound {A} (k : M A) :
  with_global "count3" k = raise NameError.
Proof. reflexivity. Qed.

(** X17: dedup_tracked2 never returns normally, whatever do_hashing does:
    it ends with the exception of the first step that fails or, when
    every group was hashed without error, with NameError for the name
    [skipped] of line 678, after the has_updates flags were cleared and
    before the commit of line 680. *)
Theorem dedup_tracked2_never_completes (do_hashing : list Inode → M unit)
    (mark_skipped : M unit) (volset : list Volume) (st st' : State)
    (r : result unit) :
  dedup_tracked2 do_hashing mark_skipped volset st = (r, st') →
  ∃ e, r = Raise e.
Proof.
  unfold dedup_tracked2. cbv zeta.
  destruct volset as [|vol0 rest]; [intros [= <- <-]; eauto|].
  destruct (negb _); [intros [= <- <-]; eauto|].
  rewrite bind_run. unfold gets at 1. cbv beta iota. rewrite bind_run.
  destruct (for_each _ _ st) as [[[]|e] st1]; [|intros [= <- <-]; eauto].
  rewrite bind_run. unfold on_sess at 1, modify at 1. cbv beta iota.
  rewrite bind_run, skipped_is_unbound. intros [= <- <-]. eauto.
Qed.

Lemma dedup_tracked2_never_completes_witness :
  ∃ e st',
    dedup_tracked2 (fun _ => mret tt) (mret tt) [CloneExamples.vol1]
      (CloneExamples.state (1024, 2048) CloneExamples.rows345)
    = (Raise e, st').
Proof.
  destruct (dedup_tracked2 (fun _ => mret tt) (mret tt) [CloneExamples.vol1]
              (CloneExamples.state (1024, 2048) CloneExamples.rows345))
    as [r st'] eqn:Hrun.
  destruct (dedup_tracked2_never_completes (fun _ => mret tt) (mret tt)
              [CloneExamples.vol1]
              (CloneExamples.state (1024, 2048) CloneExamples.rows345)
              st' r Hrun) as [e ->].
  exists e, st'. reflexivity.
Defined.



(** * do_dedup *)

Import DoDedup DedupFrame.

Lemma untouched_refl st : untouched st st.
Proof. by split. Qed.

Lemma untouched_trans st1 st2 st3 :
  untouched st1 st2 → untouched st2 st3 → untouched st1 st3.
Proof. intros [? ?] [? ?]. split; congruence. Qed.

(** A loop that ends normally went through every element. *)
Lemma for_fold_ok_all {A B} (body : B → A → M B) (J : State → Prop)
    (P : A → Prop) (l : list A) (b : B) (st : State) r st' :
  (∀ b x st r st', x ∈ l → J st → body b x st = (r, st') →
     J st' ∧ ((∃ b', r = Ok b') → P x)) →
  J st → for_fold body l b st = (r, st') →
  J st' ∧ ((∃ b', r = Ok b') → Forall P l).
Proof.
  revert b st. induction l as [|x l IH]; intros b st Hbody HJ; simpl.
  { intros [= <- <-]. split; [done|]. intros _. constructor. }
  rewrite bind_run. destruct (body b x st) as [[b1|e] st1] eqn:Hx.
  - destruct (Hbody _ _ _ _ _ ltac:(left) HJ Hx) as [HJ1 HP].
    intros Hrest. apply IH in Hrest as [HJ' Hall]; [| |done].
    2:{ intros b0 y st0 r0 st0' Hy. apply Hbody. by right. }
    split; [done|]. intros Hok. constructor; [apply HP; eauto|by apply Hall].
  - destruct (Hbody _ _ _ _ _ ltac:(left) HJ Hx) as [HJ1 _].
    intros [= <- <-]. split; [done|]. by intros [? [=]].
Qed.

Section DoDedupFacts.

Context (w : World) (too_many : M unit) (skipped_append : Inode → M unit).

Lemma skip_global_raises {A} (inode : Inode) (k : unit → M A) (st : State) :
  (skip_global skipped_append inode ≫= k) st = (Raise NameError, st).
Proof. reflexivity. Qed.

Lemma open_chunk_inode_step loc inode st r st' :
  open_chunk_inode w skipped_append loc inode st = (r, st') →
  untouched st st'
  ∧ ((∃ loc', r = Ok loc') →
     ∀ vol path,
       volumes (pending (sess st)) !! inode_vol inode = Some vol →
       lookup_ino_path_one w (vol_fd vol) (ino inode) = inr path →
       ∃ afile, fopenat_rw w (vol_fd vol) path = inr afile).
Proof.
  unfold open_chunk_inode. rewrite bind_run. unfold inode_volume.
  destruct (volumes (pending (sess st)) !! inode_vol inode) as [vol|] eqn:Hvol.
  2:{ intros [= <- <-]. split; [apply untouched_refl|]. by intros [? [=]]. }
  destruct (lookup_ino_path_one w (vol_fd vol) (ino inode)) as [e|path] eqn:Hp.
  { destruct (e =? ENOENT); intros [= <- <-]; (split; [by split|]);
      intros _ ? ? [= <-]; by rewrite Hp. }
  rewrite bind_run. unfold log_open at 1, modify at 1. cbv beta iota.
  destruct (fopenat_rw w (vol_fd vol) path) as [e|afile] eqn:Ho.
  - destruct (e =? ETXTBSY); [rewrite skip_global_raises|
      destruct (e =? EACCES); [rewrite skip_global_raises|
        destruct (e =? ENOENT); [rewrite skip_global_raises|]]];
      intros [= <- <-]; (split; [by split|]); by intros [? [=]].
  - intros [= <- <-]. split; [by split|].
    intros _ ? ? [= <-]. rewrite Hp. intros [= <-]. eauto.
Qed.

Lemma hash_chunk_file_step loc wu acc afile st r st' :
  hash_chunk_file w skipped_append loc wu acc afile st = (r, st') →
  untouched st st'
  ∧ ((∃ acc', r = Ok acc') →
     ∃ inode vol,
       fd_inodes loc !! fileno afile = Some inode
       ∧ volumes (pending (sess st)) !! inode_vol inode = Some vol
       ∧ (fileno afile ∉ wu)
       ∧ fst (fstat w (fileno afile)) = ino inode
       ∧ snd (fstat w (fileno afile)) = vol_st_dev vol
       ∧ (tell w afile = inode_size inode ∨ tell w afile < size_cutoff vol)).
Proof.
  unfold hash_chunk_file. cbv zeta. rewrite bind_run. unfold getitem at 1.
  destruct (fd_inodes loc !! fileno afile) as [inode|] eqn:Hinode.
  2:{ intros [= <- <-]. split; [apply untouched_refl|]. by intros [? [=]]. }
  unfold mret at 1, M_ret at 1. cbv beta iota.
  case_bool_decide as Hwu.
  { rewrite bind_run. unfold getitem.
    destruct (fd_names loc !! fileno afile).
    - unfold mret at 1, M_ret at 1. cbv beta iota.
      rewrite skip_global_raises. intros [= <- <-].
      split; [apply untouched_refl|]. by intros [? [=]].
    - intros [= <- <-]. split; [apply untouched_refl|]. by intros [? [=]]. }
  destruct (N.eqb_spec (fstat w (fileno afile)).1 (ino inode)) as [Hi|Hi];
    cbv [negb].
  2:{ rewrite skip_global_raises. intros [= <- <-].
      split; [apply untouched_refl|]. by intros [? [=]]. }
  rewrite bind_run. unfold inode_volume.
  destruct (volumes (pending (sess st)) !! inode_vol inode) as [vol|] eqn:Hvol.
  2:{ intros [= <- <-]. split; [apply untouched_refl|]. by intros [? [=]]. }
  destruct (N.eqb_spec (fstat w (fileno afile)).2 (vol_st_dev vol)) as [Hd|Hd];
    cbv [negb].
  2:{ rewrite skip_global_raises. intros [= <- <-].
      split; [apply untouched_refl|]. by intros [? [=]]. }
  destruct (N.eqb_spec (tell w afile) (inode_size inode)) as [Hs|Hs];
    cbv [negb].
  - intros [= <- <-]. split; [apply untouched_refl|]. intros _.
    exists inode, vol. auto 10.
  - destruct (N.ltb_spec (tell w afile) (size_cutoff vol)) as [Hc|Hc].
    + intros [= <- <-]. split; [by split|]. intros _.
      exists inode, vol. auto 10.
    + rewrite skip_global_raises. intros [= <- <-].
      split; [apply untouched_refl|]. by intros [? [=]].
Qed.

Lemma clone_chunk_dests_untouched loc sfile dfiles acc st r st' :
  clone_chunk_dests w loc sfile dfiles acc st = (r, st') → untouched st st'.
Proof.
  revert acc st. induction dfiles as [|d dfiles IH]; intros acc st; simpl.
  { intros [= <- <-]. apply untouched_refl. }
  munfold.
  destruct (fd_names loc !! fileno sfile);
    [|intros [= <- <-]; apply untouched_refl].
  destruct (fd_names loc !! fileno d);
    [|intros [= <- <-]; apply untouched_refl].
  destruct (cmp_files w sfile d); simpl;
    [|intros [= <- <-]; apply untouched_refl].
  destruct (clone_data w (fileno d) (fileno sfile)).
  - intros Hrest. apply IH in Hrest. by destruct Hrest.
  - destruct (fd_inodes loc !! fileno sfile);
      [|intros [= <- <-]; by split].
    destruct (fd_inodes loc !! fileno d);
      [|intros [= <- <-]; by split].
    intros Hrest. apply IH in Hrest. by destruct Hrest.
Qed.

Lemma record_chunk_event_untouched fs loc cur sfile succ st r st' :
  record_chunk_event w fs loc cur sfile succ st = (r, st') →
  untouched st st'.
Proof.
  unfold record_chunk_event. destruct cur as [inode|];
    [|intros [= <- <-]; apply untouched_refl].
  unfold add_event. rewrite !bind_run.
  unfold gets at 1. cbv beta iota. rewrite bind_run.
  unfold on_sess at 1. unfold modify at 1. cbv beta iota.
  unfold mret at 1. unfold M_ret at 1. rewrite bind_run.
  match goal with
  | |- context [for_fold ?b ?l ?c ?s] =>
      destruct (for_fold b l c s) as [r1 st1] eqn:Hrows;
      apply (for_fold_invariant b (fun _ => True) (untouched st))
        in Hrows as [Hst1 _]; [| |done|by split]
  end.
  2:{ intros c0 afile s0 r0 s0' _ _ Hs0. rewrite bind_run. unfold getitem.
      destruct (fd_inodes loc !! fileno afile);
        intros [= <- <-]; (split; [|done]);
        (eapply untouched_trans; [exact Hs0|by split]). }
  destruct r1; intros [= <- <-]; [|done].
  eapply untouched_trans; [exact Hst1|by split].
Qed.

Lemma clone_chunk_fileset_untouched fs loc cur fileset st r st' :
  clone_chunk_fileset w fs loc cur fileset st = (r, st') → untouched st st'.
Proof.
  unfold clone_chunk_fileset. destruct fileset as [|sfile [|d dfiles]];
    [intros [= <- <-]; apply untouched_refl..|].
  rewrite bind_run.
  destruct (clone_chunk_dests _ _ _ _ _ _) as [[succ|e] st1] eqn:Hd;
    apply clone_chunk_dests_untouched in Hd.
  - destruct succ as [|s1 succ]; [by intros [= <- <-]|].
    intros Hev. apply record_chunk_event_untouched in Hev.
    by eapply untouched_trans.
  - by intros [= <- <-].
Qed.

End DoDedupFacts.

(** X19: do_dedup cannot set anything aside.  In every situation in which
    dedup_tracked1 puts an inode on skipped and goes on, do_dedup stops
    with an exception (NameError, for the names count3 and skipped that it
    never binds).  So when do_dedup returns normally, the descriptors it
    needed were within the soft or the hard limit, every inode of the
    chunk whose path was found could be opened, and every opened file was
    not in write use, had the inode number and device of its row, and had
    the length of its row or a length below the volume's cutoff; skipped
    is never changed. *)
Theorem do_dedup_completes_only_without_skips (w : World) (too_many : M unit)
    (skipped_append : Inode → M unit) (fs reserved soft hard : N)
    (chunk : list Inode) (st st' : State) (soft' : N) :
  do_dedup w too_many skipped_append fs reserved soft hard chunk st
    = (Ok soft', st') →
  let req := 2 * N.of_nat (length chunk) + reserved in
  (req ≤ soft ∨ req ≤ hard)
  ∧ skipped st' = skipped st
  ∧ (∀ inode vol path,
       inode ∈ chunk →
       volumes (pending (sess st)) !! inode_vol inode = Some vol →
       lookup_ino_path_one w (vol_fd vol) (ino inode) = inr path →
       ∃ afile, fopenat_rw w (vol_fd vol) path = inr afile)
  ∧ ∃ loc st1 st2,
      sess st1 = sess st
      ∧ for_fold (open_chunk_inode w skipped_append) chunk no_locals st1
        = (Ok loc, st2)
      ∧ ∀ afile, afile ∈ files loc →
          ∃ inode vol,
            fd_inodes loc !! fileno afile = Some inode
            ∧ volumes (pending (sess st)) !! inode_vol inode = Some vol
            ∧ (fileno afile ∉ fds_in_write_use w (fds loc))
            ∧ fst (fstat w (fileno afile)) = ino inode
            ∧ snd (fstat w (fileno afile)) = vol_st_dev vol
            ∧ (tell w afile = inode_size inode
               ∨ tell w afile < size_cutoff vol).
Proof.
  unfold do_dedup. cbv zeta. rewrite bind_run.
  set (req := 2 * N.of_nat (length chunk) + reserved).
  assert (∃ st1 soft1,
    (if soft <? req
     then if req <=? hard
          then _ ← setrlimit req hard; mret req
          else _ ← Globals.with_global "count3"
                     (Globals.with_global "comm3" too_many);
               mret soft
     else mret soft) st
    = (if (soft <? req) && negb (req <=? hard)
       then Raise NameError else Ok soft1, st1)
    ∧ untouched st st1 ∧ sess st1 = sess st)
    as (st1 & soft1 & -> & Hst1 & Hsess1).
  { destruct (soft <? req); [destruct (req <=? hard)|]; simpl.
    - exists (with_rlimit (req, hard) st), req. by split.
    - exists st, soft. by split.
    - exists st, soft. by split. }
  destruct (N.ltb_spec soft req) as [Hs|Hs];
    [destruct (N.leb_spec req hard) as [Hh|Hh]|]; cbv [andb negb];
    [|intros [=]|].
  all: rewrite bind_run;
    destruct (for_fold (open_chunk_inode _ _) _ _ _) as [[loc|e] st2] eqn:Hopen;
    [|intros [=]];
    pose proof Hopen as Hopen0;
    apply (for_fold_ok_all _ (untouched st)
             (fun inode => ∀ vol path,
                volumes (pending (sess st)) !! inode_vol inode = Some vol →
                lookup_ino_path_one w (vol_fd vol) (ino inode) = inr path →
                ∃ afile, fopenat_rw w (vol_fd vol) path = inr afile))
      in Hopen as [Hst2 Hall]; [| |done];
    [|intros b x s r s' _ Hs0 Hrun;
      apply open_chunk_inode_step in Hrun as [Hu Hok];
      split; [by eapply untouched_trans|];
      destruct Hs0 as [_ <-]; exact Hok];
    specialize (Hall ltac:(eauto)); rewrite Forall_forall in Hall;
    rewrite bind_run;
    destruct (for_fold (hash_chunk_file _ _ _ _) _ _ _)
      as [[hashed|e] st3] eqn:Hhash; [|intros [=]];
    apply (for_fold_ok_all _ (untouched st)
             (fun afile => ∃ inode vol,
                fd_inodes loc !! fileno afile = Some inode
                ∧ volumes (pending (sess st)) !! inode_vol inode = Some vol
                ∧ (fileno afile ∉ fds_in_write_use w (fds loc))
                ∧ fst (fstat w (fileno afile)) = ino inode
                ∧ snd (fstat w (fileno afile)) = vol_st_dev vol
                ∧ (tell w afile = inode_size inode
                   ∨ tell w afile < size_cutoff vol)))
      in Hhash as [Hst3 Hfiles]; [| |done];
    [|intros b x s r s' _ Hs0 Hrun;
      apply hash_chunk_file_step in Hrun as [Hu Hok];
      split; [by eapply untouched_trans|];
      destruct Hs0 as [_ <-]; exact Hok];
    specialize (Hfiles ltac:(eauto)); rewrite Forall_forall in Hfiles;
    rewrite bind_run;
    destruct (for_fold (clone_chunk_fileset _ _ _) _ _ _)
      as [[cur|e] st4] eqn:Hclone; [|intros [=]];
    apply (for_fold_invariant _ (fun _ => True) (untouched st))
      in Hclone as [Hst4 _]; [| |done|done];
    [|intros b x s r s' _ _ Hs0 Hrun;
      apply clone_chunk_fileset_untouched in Hrun;
      split; [by eapply untouched_trans|done]];
    intros [= <- <-];
    (split; [lia|]); (split; [by destruct Hst4|]);
    (split; [intros inode vol path Hin; by apply Hall|]);
    exists loc, st1, st2; (split; [exact Hsess1|]);
    (split; [exact Hopen0|exact Hfiles]).
Qed.

Lemma do_dedup_completes_only_without_skips_witness :
  ∃ st' afile,
    do_dedup CloneExamples.quiet_world (mret tt) (fun _ => mret tt)
      1 8 1024 2048 CloneExamples.rows345
      (CloneExamples.state (1024, 2048) CloneExamples.rows345)
    = (Ok 1024, st')
    ∧ skipped st' = []
    ∧ fopenat_rw CloneExamples.quiet_world 7 "f4" = inr afile.
Proof.
  assert (∃ st',
    do_dedup CloneExamples.quiet_world (mret tt) (fun _ => mret tt)
      1 8 1024 2048 CloneExamples.rows345
      (CloneExamples.state (1024, 2048) CloneExamples.rows345)
    = (Ok 1024, st')) as [st' Hrun].
  { vm_compute. eauto. }
  destruct (do_dedup_completes_only_without_skips CloneExamples.quiet_world
              (mret tt) (fun _ => mret tt) 1 8 1024 2048
              CloneExamples.rows345
              (CloneExamples.state (1024, 2048) CloneExamples.rows345)
              st' 1024 Hrun)
    as (_ & Hskipped & Hopen & _).
  destruct (Hopen (CloneExamples.inode 4) CloneExamples.vol1 "f4")
    as [afile Hafile].
  - right. left.
  - reflexivity.
  - reflexivity.
  - exists st', afile. split; [exact Hrun|]. split; [exact Hskipped|].
    exact Hafile.
Defined.

Section DoDedupClones.

Import CloneSafety.

Context (w : World) (too_many : M unit) (skipped_append : Inode → M unit).

Lemma clone_chunk_dests_pairs loc sfile dfiles acc st r st' :
  clone_chunk_dests w loc sfile dfiles acc st = (r, st') →
  ∃ log, cloned st' = cloned st ++ log
         ∧ pairs_of (fun d s => s = sfile ∧ d ∈ dfiles
                                ∧ cmp_files w sfile d = true) log.
Proof.
  revert acc st. induction dfiles as [|d dfiles IH]; intros acc st; simpl.
  { intros [= <- <-]. exists []. split; [by rewrite app_nil_r|].
    apply pairs_of_nil. }
  munfold.
  assert (Hnone : ∃ log, cloned st = cloned st ++ log
                         ∧ pairs_of (fun d0 s => s = sfile ∧ d0 ∈ d :: dfiles
                                       ∧ cmp_files w sfile d0 = true) log).
  { exists []. split; [by rewrite app_nil_r|apply pairs_of_nil]. }
  destruct (fd_names loc !! fileno sfile); [|by intros [= <- <-]].
  destruct (fd_names loc !! fileno d); [|by intros [= <- <-]].
  destruct (cmp_files w sfile d) eqn:Hcmp; simpl; [|by intros [= <- <-]].
  intros Hrest.
  assert (Hone : pairs_of (fun d0 sf => sf = sfile ∧ d0 ∈ d :: dfiles
                             ∧ cmp_files w sfile d0 = true)
                   [(fileno d, fileno sfile)]).
  { intros dest src [= -> ->]%list_elem_of_singleton.
    exists d, sfile. split; [done|]. split; [done|].
    split; [done|]. split; [left|done]. }
  assert ((r, st') = (Raise KeyError,
                      with_cloned (fun l => l ++ [(fileno d, fileno sfile)]) st)
          ∨ ∃ acc', clone_chunk_dests w loc sfile dfiles acc'
                      (with_cloned (fun l => l ++ [(fileno d, fileno sfile)]) st)
                    = (r, st')) as [[= -> ->]|[acc' Hrun]].
  { destruct (clone_data w (fileno d) (fileno sfile)); [eauto|].
    destruct (fd_inodes loc !! fileno sfile); simpl in Hrest;
      [|left; by rewrite <- Hrest].
    destruct (fd_inodes loc !! fileno d); simpl in Hrest;
      [|left; by rewrite <- Hrest].
    eauto. }
  { exists [(fileno d, fileno sfile)]. done. }
  apply IH in Hrun as (log & Hlog & Hfrom). simpl in Hlog.
  exists ([(fileno d, fileno sfile)] ++ log).
  split; [by rewrite Hlog, <- app_assoc|].
  apply pairs_of_app; [done|].
  eapply pairs_of_weaken; [|exact Hfrom].
  intros d0 sf (? & ? & ?). split; [done|]. split; [by right|done].
Qed.

Lemma record_chunk_event_cloned fs loc cur sfile succ st r st' :
  record_chunk_event w fs loc cur sfile succ st = (r, st') →
  cloned st' = cloned st.
Proof.
  unfold record_chunk_event. destruct cur as [inode|];
    [|by intros [= <- <-]].
  unfold add_event. rewrite !bind_run.
  unfold gets at 1. cbv beta iota. rewrite bind_run.
  unfold on_sess at 1. unfold modify at 1. cbv beta iota.
  unfold mret at 1. unfold M_ret at 1. rewrite bind_run.
  match goal with
  | |- context [for_fold ?b ?l ?c ?s] =>
      destruct (for_fold b l c s) as [r1 st1] eqn:Hrows;
      apply (for_fold_invariant b (fun _ => True)
               (fun s0 => cloned s0 = cloned st))
        in Hrows as [Hst1 _]; [| |done|done]
  end.
  2:{ intros c0 afile s0 r0 s0' _ _ Hs0. rewrite bind_run. unfold getitem.
      destruct (fd_inodes loc !! fileno afile);
        intros [= <- <-]; (split; [|done]); done. }
  destruct r1; intros [= <- <-]; done.
Qed.

Lemma clone_chunk_fileset_pairs fs loc cur fileset st r st' :
  clone_chunk_fileset w fs loc cur fileset st = (r, st') →
  ∃ log, cloned st' = cloned st ++ log
         ∧ pairs_of (fun d s => d ∈ fileset ∧ s ∈ fileset
                                ∧ cmp_files w s d = true) log.
Proof.
  assert (Hnone : ∃ log, cloned st = cloned st ++ log
            ∧ pairs_of (fun d s => d ∈ fileset ∧ s ∈ fileset
                                   ∧ cmp_files w s d = true) log).
  { exists []. split; [by rewrite app_nil_r|apply pairs_of_nil]. }
  unfold clone_chunk_fileset. destruct fileset as [|sfile [|d dfiles]];
    [by intros [= <- <-]..|].
  rewrite bind_run.
  destruct (clone_chunk_dests _ _ _ _ _ _) as [[succ|e] st1] eqn:Hd;
    apply clone_chunk_dests_pairs in Hd as (log & Hlog & Hfrom).
  - assert (cloned st' = cloned st1 → ∃ log0,
              cloned st' = cloned st ++ log0
              ∧ pairs_of (fun d0 sf => d0 ∈ sfile :: d :: dfiles
                            ∧ sf ∈ sfile :: d :: dfiles
                            ∧ cmp_files w sf d0 = true) log0) as Hdone.
    { intros Heq. exists log. split; [congruence|].
      eapply pairs_of_weaken; [|exact Hfrom].
      intros d0 sf (-> & ? & ?). split; [by right|]. split; [left|done]. }
    destruct succ as [|s1 succ].
    + intros [= <- <-]. by apply Hdone.
    + intros Hev. apply record_chunk_event_cloned in Hev. by apply Hdone.
  - intros [= <- <-]. exists log. split; [done|].
    eapply pairs_of_weaken; [|exact Hfrom].
    intros d0 sf (-> & ? & ?). split; [by right|]. split; [left|done].
Qed.

Lemma clone_chunk_buckets_pairs fs loc buckets cur st r st' :
  for_fold (clone_chunk_fileset w fs loc) buckets cur st = (r, st') →
  ∃ log, cloned st' = cloned st ++ log
         ∧ pairs_of (fun d s => ∃ b, b ∈ buckets ∧ d ∈ b ∧ s ∈ b
                                     ∧ cmp_files w s d = true) log.
Proof.
  revert cur st. induction buckets as [|b buckets IH]; intros cur st; simpl.
  { intros [= <- <-]. exists []. split; [by rewrite app_nil_r|].
    apply pairs_of_nil. }
  rewrite bind_run.
  destruct (clone_chunk_fileset w fs loc cur b st) as [[cur1|e] st1] eqn:Hb;
    apply clone_chunk_fileset_pairs in Hb as (log1 & Hlog1 & Hfrom1).
  - intros Hrest. apply IH in Hrest as (log2 & Hlog2 & Hfrom2).
    exists (log1 ++ log2). split; [by rewrite Hlog2, Hlog1, app_assoc|].
    apply pairs_of_app.
    + eapply pairs_of_weaken; [|exact Hfrom1].
      intros df sf (? & ? & ?). exists b. split; [left|done].
    + eapply pairs_of_weaken; [|exact Hfrom2].
      intros df sf (b' & ? & ?). exists b'. split; [by right|done].
  - intros [= <- <-]. exists log1. split; [done|].
    eapply pairs_of_weaken; [|exact Hfrom1].
    intros df sf (? & ? & ?). exists b. split; [left|done].
Qed.

Lemma open_chunk_inode_cloned loc inode st r st' :
  open_chunk_inode w skipped_append loc inode st = (r, st') →
  cloned st' = cloned st.
Proof.
  unfold open_chunk_inode. rewrite bind_run. unfold inode_volume.
  destruct (volumes (pending (sess st)) !! inode_vol inode) as [vol|];
    [|by intros [= <- <-]].
  destruct (lookup_ino_path_one w (vol_fd vol) (ino inode)) as [e|path].
  { destruct (e =? ENOENT); by intros [= <- <-]. }
  rewrite bind_run. unfold log_open at 1, modify at 1. cbv beta iota.
  destruct (fopenat_rw w (vol_fd vol) path) as [e|afile].
  - destruct (e =? ETXTBSY); [rewrite skip_global_raises|
      destruct (e =? EACCES); [rewrite skip_global_raises|
        destruct (e =? ENOENT); [rewrite skip_global_raises|]]];
      by intros [= <- <-].
  - by intros [= <- <-].
Qed.

Lemma hash_chunk_file_by_digest loc wu acc afile st r st' :
  buckets_by_digest w acc.1 →
  hash_chunk_file w skipped_append loc wu acc afile st = (r, st') →
  cloned st' = cloned st
  ∧ ∀ acc', r = Ok acc' → buckets_by_digest w acc'.1.
Proof.
  intros Hb. unfold hash_chunk_file. cbv zeta. rewrite bind_run.
  unfold getitem at 1.
  destruct (fd_inodes loc !! fileno afile) as [inode|];
    [|by intros [= <- <-]].
  unfold mret at 1, M_ret at 1. cbv beta iota.
  case_bool_decide as Hwu.
  { rewrite bind_run. unfold getitem.
    destruct (fd_names loc !! fileno afile).
    - unfold mret at 1, M_ret at 1. cbv beta iota.
      rewrite skip_global_raises. by intros [= <- <-].
    - by intros [= <- <-]. }
  destruct (N.eqb_spec (fstat w (fileno afile)).1 (ino inode)); cbv [negb].
  2:{ rewrite skip_global_raises. by intros [= <- <-]. }
  rewrite bind_run. unfold inode_volume.
  destruct (volumes (pending (sess st)) !! inode_vol inode) as [vol|];
    [|by intros [= <- <-]].
  destruct (N.eqb_spec (snd (fstat w (fileno afile))) (vol_st_dev vol));
    cbv [negb].
  2:{ rewrite skip_global_raises. by intros [= <- <-]. }
  destruct (N.eqb_spec (tell w afile) (inode_size inode)); cbv [negb].
  - intros [= <- <-]. split; [done|]. intros ? [= <-]. simpl.
    by apply bucket_append_by_digest.
  - destruct (N.ltb_spec (tell w afile) (size_cutoff vol)).
    + intros [= <- <-]. split; [done|]. by intros ? [= <-].
    + rewrite skip_global_raises. by intros [= <- <-].
Qed.

End DoDedupClones.

(** X20: do_dedup, too, calls clone_data only on pairs it has compared.
    Whatever its outcome, for every call clone_data(dest, src) it made,
    the two descriptors belong to files whose SHA-1 digests are equal and
    whose bytes cmp_files found equal. *)
Theorem do_dedup_clones_only_compared_pairs (w : World) (too_many : M unit)
    (skipped_append : Inode → M unit) (fs reserved soft hard : N)
    (chunk : list Inode) (st st' : State) (r : result N) :
  do_dedup w too_many skipped_append fs reserved soft hard chunk st
    = (r, st') →
  ∃ log,
    cloned st' = cloned st ++ log
    ∧ ∀ dest src, (dest, src) ∈ log →
        ∃ dfile sfile,
          fileno dfile = dest ∧ fileno sfile = src
          ∧ cmp_files w sfile dfile = true
          ∧ sha1_digest w dfile = sha1_digest w sfile.
Proof.
  assert (Hnone : ∀ st1, cloned st1 = cloned st →
            ∃ log, cloned st1 = cloned st ++ log
              ∧ ∀ dest src, (dest, src) ∈ log →
                  ∃ dfile sfile,
                    fileno dfile = dest ∧ fileno sfile = src
                    ∧ cmp_files w sfile dfile = true
                    ∧ sha1_digest w dfile = sha1_digest w sfile).
  { intros st1 H1. exists []. split; [by rewrite app_nil_r|].
    intros ? ? Hin. by apply elem_of_nil in Hin. }
  unfold do_dedup. cbv zeta. rewrite bind_run.
  set (req := 2 * N.of_nat (length chunk) + reserved).
  assert (∃ st1 r1,
    (if soft <? req
     then if req <=? hard
          then _ ← setrlimit req hard; mret req
          else _ ← Globals.with_global "count3"
                     (Globals.with_global "comm3" too_many);
               mret soft
     else mret soft) st = (r1, st1)
    ∧ cloned st1 = cloned st) as (st1 & r1 & -> & Hst1).
  { destruct (soft <? req); [destruct (req <=? hard)|]; simpl.
    - exists (with_rlimit (req, hard) st), (Ok req). by split.
    - exists st, (Raise NameError). by split.
    - exists st, (Ok soft). by split. }
  destruct r1 as [soft1|e]; [|intros [= <- <-]; by apply Hnone].
  rewrite bind_run.
  destruct (for_fold (open_chunk_inode _ _) _ _ _) as [r2 st2] eqn:Hopen.
  apply (for_fold_invariant _ (fun _ => True)
           (fun s => cloned s = cloned st))
    in Hopen as [Hst2 _]; [| |done|done].
  2:{ intros b x s r0 s' _ _ Hs Hrun.
      apply open_chunk_inode_cloned in Hrun. split; [congruence|done]. }
  destruct r2 as [loc|e]; [|intros [= <- <-]; by apply Hnone].
  rewrite bind_run.
  destruct (for_fold (hash_chunk_file _ _ _ _) _ _ _) as [r3 st3] eqn:Hhash.
  apply (for_fold_invariant _
           (fun acc => CloneSafety.buckets_by_digest w acc.1)
           (fun s => cloned s = cloned st))
    in Hhash as [Hst3 Hdig];
    [| |by intros ? ? ?; simpl; rewrite lookup_empty|done].
  2:{ intros b x s r0 s' _ Hb Hs Hrun.
      eapply hash_chunk_file_by_digest in Hrun as [Hc Hd]; [|done].
      split; [congruence|done]. }
  destruct r3 as [hashed|e]; [|intros [= <- <-]; by apply Hnone].
  specialize (Hdig _ eq_refl).
  rewrite bind_run.
  destruct (for_fold (clone_chunk_fileset _ _ _) _ _ _) as [r4 st4] eqn:Hclone.
  apply clone_chunk_buckets_pairs in Hclone as (log & Hlog & Hfrom).
  intros Hret. assert (st' = st4) as -> by (destruct r4; by injection Hret).
  exists log. split; [congruence|].
  intros dest src Hin.
  destruct (Hfrom dest src Hin) as (df & sf & ? & ? & b & Hb & Hd & Hs & Hcmp).
  exists df, sf. split; [done|]. split; [done|]. split; [done|].
  apply list_elem_of_fmap in Hb as ([digest b'] & -> & Hb).
  apply elem_of_map_to_list in Hb. simpl in *.
  by rewrite (Hdig _ _ _ Hb Hd), (Hdig _ _ _ Hb Hs).
Qed.

Lemma do_dedup_clones_only_compared_pairs_witness :
  ∃ r st' log,
    do_dedup CloneExamples.quiet_world (mret tt) (fun _ => mret tt)
      1 8 1024 2048 CloneExamples.rows345
      (CloneExamples.state (1024, 2048) CloneExamples.rows345) = (r, st')
    ∧ cloned st' = log
    ∧ Forall (fun pair =>
                ∃ dfile sfile,
                  fileno dfile = pair.1 ∧ fileno sfile = pair.2
                  ∧ cmp_files CloneExamples.quiet_world sfile dfile = true)
             log
    ∧ length log = 2%nat.
Proof.
  assert (∃ r st',
    do_dedup CloneExamples.quiet_world (mret tt) (fun _ => mret tt)
      1 8 1024 2048 CloneExamples.rows345
      (CloneExamples.state (1024, 2048) CloneExamples.rows345) = (r, st')
    ∧ length (cloned st') = 2%nat)
    as (r & st' & Hrun & Hlen).
  { vm_compute. eauto. }
  destruct (do_dedup_clones_only_compared_pairs CloneExamples.quiet_world
              (mret tt) (fun _ => mret tt) 1 8 1024 2048
              CloneExamples.rows345
              (CloneExamples.state (1024, 2048) CloneExamples.rows345)
              st' r Hrun)
    as (log & Hlog & Hpairs).
  exists r, st', log. split; [exact Hrun|]. split; [exact Hlog|].
  split.
  - apply Forall_forall. intros [dest src] Hin.
    destruct (Hpairs dest src Hin) as (df & sf & ? & ? & ? & _).
    exists df, sf. done.
  - exact (eq_trans (f_equal length (eq_sym Hlog)) Hlen).
Defined.

(** * show_vols: mount points by root id *)

Section MountFacts.

Import Mounts.

Context (mw : MountWorld).

Lemma collect_mpoints_stops l1 volpath mpoint l2 acc :
  refused mw mpoint →
  collect_mpoints mw (l1 ++ (volpath, mpoint) :: l2) acc
  = collect_mpoints mw l1 acc.
Proof.
  intros (fd & Hopen & Hsub & Hroot). revert acc.
  induction l1 as [|[vp mp] l1 IH]; intros acc; simpl.
  - by rewrite Hopen, Hsub, Hroot.
  - destruct (os_open mw mp) as [e|fd']; [done|].
    destruct (is_subvolume mw fd'); simpl; [|apply IH].
    destruct (get_root_id mw fd') as [e|rid]; [done|apply IH].
Qed.

(** What has been collected when the loop ends: the entries that were
    there, followed by subvolume roots of the list. *)
Lemma collect_mpoints_sound l acc m :
  collect_mpoints mw l acc = Returns m →
  ∀ root_id volpath mpoint,
    (volpath, mpoint) ∈ default [] (m !! root_id) →
    (volpath, mpoint) ∈ default [] (acc !! root_id)
    ∨ ((volpath, mpoint) ∈ l ∧ subvol_root mw mpoint root_id).
Proof.
  revert acc. induction l as [|[vp mp] l IH]; intros acc; simpl.
  { intros [= <-]. auto. }
  destruct (os_open mw mp) as [e|fd] eqn:Hopen; [done|].
  destruct (is_subvolume mw fd) eqn:Hsub; simpl.
  2:{ intros Hrun rid v p Hin.
      destruct (IH _ Hrun rid v p Hin) as [?|[? ?]]; [by left|].
      right. split; [by right|done]. }
  destruct (get_root_id mw fd) as [e|rid0] eqn:Hroot.
  { destruct (e =? EPERM); [|done]. intros [= <-]. auto. }
  intros Hrun rid v p Hin.
  destruct (IH _ Hrun rid v p Hin) as [Hacc|[? ?]].
  - unfold mpoint_append in Hacc.
    destruct (decide (rid = rid0)) as [->|Hne].
    + rewrite lookup_insert_eq in Hacc. simpl in Hacc.
      apply elem_of_app in Hacc as [?|[= -> ->]%list_elem_of_singleton];
        [by left|].
      right. split; [left|]. exists fd. done.
    + rewrite lookup_insert_ne in Hacc by done. by left.
  - right. split; [by right|done].
Qed.

Lemma collect_mpoints_complete l acc :
  (∀ volpath mpoint, (volpath, mpoint) ∈ l →
     ∃ fd, os_open mw mpoint = inr fd
           ∧ (is_subvolume mw fd = true → ∃ rid, get_root_id mw fd = inr rid)) →
  ∃ m,
    collect_mpoints mw l acc = Returns m
    ∧ ∀ root_id volpath mpoint,
        (volpath, mpoint) ∈ default [] (acc !! root_id)
        ∨ ((volpath, mpoint) ∈ l ∧ subvol_root mw mpoint root_id) →
        (volpath, mpoint) ∈ default [] (m !! root_id).
Proof.
  revert acc. induction l as [|[vp mp] l IH]; intros acc Hall; simpl.
  { exists acc. split; [done|].
    intros rid v p [?|[Hin _]]; [done|by apply elem_of_nil in Hin]. }
  destruct (Hall vp mp ltac:(left)) as (fd & Hopen & Hroot).
  rewrite Hopen.
  assert (Hrest : ∀ volpath mpoint, (volpath, mpoint) ∈ l →
            ∃ fd, os_open mw mpoint = inr fd
                  ∧ (is_subvolume mw fd = true →
                     ∃ rid, get_root_id mw fd = inr rid)).
  { intros v p Hin. apply (Hall v p). by right. }
  destruct (is_subvolume mw fd) eqn:Hsub; simpl.
  - destruct (Hroot eq_refl) as [rid0 Hrid]. rewrite Hrid.
    destruct (IH (mpoint_append rid0 (vp, mp) acc) Hrest) as (m & -> & Hm).
    exists m. split; [done|].
    intros rid v p [Hacc|[Hin Hsv]].
    + apply Hm. left. unfold mpoint_append.
      destruct (decide (rid = rid0)) as [->|Hne].
      * rewrite lookup_insert_eq. simpl. apply elem_of_app. by left.
      * by rewrite lookup_insert_ne.
    + apply elem_of_cons in Hin as [[= -> ->]|Hin].
      * destruct Hsv as (fd' & Hopen' & _ & Hrid').
        rewrite Hopen in Hopen'. injection Hopen' as <-.
        rewrite Hrid in Hrid'. injection Hrid' as <-.
        apply Hm. left. unfold mpoint_append. rewrite lookup_insert_eq.
        simpl. apply elem_of_app. right. left.
      * apply Hm. right. done.
  - destruct (IH acc Hrest) as (m & -> & Hm).
    exists m. split; [done|].
    intros rid v p [Hacc|[Hin Hsv]]; [apply Hm; by left|].
    apply elem_of_cons in Hin as [[= -> ->]|Hin]; [|apply Hm; by right].
    destruct Hsv as (fd' & Hopen' & Hsub' & _).
    rewrite Hopen in Hopen'. injection Hopen' as <-. congruence.
Qed.

End MountFacts.

(** X21: a mount point at which get_root_id is refused (EPERM) ends the
    listing of the device: the mount points that follow it in
    /proc/self/mountinfo are not looked at, and the helper of show_vols
    answers exactly as if the device's list ended before the refused
    mount point. *)
Theorem eperm_ends_the_listing (mw : Mounts.MountWorld)
    (mpoints_by_dev : gmap string (list (string * string))) (dev : string)
    (l1 l2 : list (string * string)) (volpath mpoint : string) :
  mpoints_by_dev !! Mounts.realpath mw dev
    = Some (l1 ++ (volpath, mpoint) :: l2) →
  Mounts.refused mw mpoint →
  Mounts.get_subvol_mpoints_by_root_id mw mpoints_by_dev dev
  = Mounts.get_subvol_mpoints_by_root_id mw
      (<[Mounts.realpath mw dev := l1]> mpoints_by_dev) dev.
Proof.
  intros Hdev Href. unfold Mounts.get_subvol_mpoints_by_root_id. cbv zeta.
  rewrite Hdev, lookup_insert_eq. by apply collect_mpoints_stops.
Qed.

Lemma eperm_ends_the_listing_witness :
  Mounts.get_subvol_mpoints_by_root_id MountExamples.world
    MountExamples.mounts "/dev/sda1"
  = Mounts.Returns {[ 5 := [("/", "/")] ]}.
Proof.
  rewrite (eperm_ends_the_listing MountExamples.world MountExamples.mounts
             "/dev/sda1" [("/", "/")] [("/home", "/home")] "/srv" "/srv").
  - vm_compute. reflexivity.
  - reflexivity.
  - exists 4. repeat split.
Defined.

(** X22: what the helper of show_vols reports.  Whenever it returns, every
    (volpath, mpoint) it lists under a root id is an entry of the device
    whose mount point could be opened, is the root of a subvolume and has
    that root id.  When every mount point of the device can be opened and
    get_root_id fails at none of its subvolume roots, it returns, and it
    lists every such entry. *)
Theorem subvol_mpoints_reported (mw : Mounts.MountWorld)
    (mpoints_by_dev : gmap string (list (string * string))) (dev : string)
    (l : list (string * string)) :
  mpoints_by_dev !! Mounts.realpath mw dev = Some l →
  (∀ m root_id volpath mpoint,
     Mounts.get_subvol_mpoints_by_root_id mw mpoints_by_dev dev
       = Mounts.Returns m →
     (volpath, mpoint) ∈ default [] (m !! root_id) →
     (volpath, mpoint) ∈ l ∧ Mounts.subvol_root mw mpoint root_id)
  ∧ ((∀ volpath mpoint, (volpath, mpoint) ∈ l →
        ∃ fd, Mounts.os_open mw mpoint = inr fd
              ∧ (Mounts.is_subvolume mw fd = true →
                 ∃ rid, Mounts.get_root_id mw fd = inr rid)) →
     ∃ m,
       Mounts.get_subvol_mpoints_by_root_id mw mpoints_by_dev dev
         = Mounts.Returns m
       ∧ ∀ root_id volpath mpoint,
           (volpath, mpoint) ∈ l → Mounts.subvol_root mw mpoint root_id →
           (volpath, mpoint) ∈ default [] (m !! root_id)).
Proof.
  intros Hdev. unfold Mounts.get_subvol_mpoints_by_root_id. cbv zeta.
  rewrite Hdev. split.
  - intros m rid v p Hrun Hin.
    destruct (collect_mpoints_sound mw l ∅ m Hrun rid v p Hin) as [Hno|?];
      [|done].
    rewrite lookup_empty in Hno. by apply elem_of_nil in Hno.
  - intros Hall. destruct (collect_mpoints_complete mw l ∅ Hall) as (m & -> & Hm).
    exists m. split; [done|]. intros rid v p Hin Hsv. apply Hm. by right.
Qed.

Lemma subvol_mpoints_reported_witness :
  ∃ m,
    Mounts.get_subvol_mpoints_by_root_id MountExamples.world
      MountExamples.readable_mounts "/dev/sda1"
    = Mounts.Returns m
    ∧ ("/home", "/home") ∈ default [] (m !! 257).
Proof.
  destruct (subvol_mpoints_reported MountExamples.world
              MountExamples.readable_mounts
              "/dev/sda1" [("/", "/"); ("/home", "/home")]
              ltac:(vm_compute; reflexivity))
    as [_ Hcomplete].
  destruct Hcomplete as (m & Hrun & Hm).
  - intros v p Hin.
    apply elem_of_cons in Hin as [[= -> ->]|Hin];
      [exists 3; split; [reflexivity|]; intros _; by exists 5|].
    apply list_elem_of_singleton in Hin as [= -> ->].
    exists 5. split; [reflexivity|]. intros _. by exists 257.
  - exists m. split; [exact Hrun|]. apply Hm.
    + right. left.
    + exists 5. repeat split.
Defined.
